(** * apiserver-network-proxy: the routing core of the proxy server

    A shallow embedding of [pkg/server]: the backend storage and the
    backend managers (backend_manager.go), the pending-dial table, the
    frontend registry and the two stream handlers (server.go), and the
    HTTP CONNECT entry point (tunnel.go).

    Conventions.
    - Go pointers are allocation numbers ([nat]); objects that the code
      mutates through a pointer ([*ProxyClientConnection]) live in an
      explicit heap, so that the pending table and the registry alias the
      same record, as they do in the source.
    - A Go map is a [gmap]; a slice is a [list], and where two slices share
      a backing array and the code writes through one of them
      ([RemoveBackend]) the backing array is modelled explicitly.
    - Run-time faults (index out of range, slice bounds, close of a closed
      channel, a call through a nil interface) are the [Panic] outcome.
    - Calls that leave the process (stream sends, socket writes and closes)
      are recorded in a trace of [Event]s; whether such a call fails is
      decided by an arbitrary environment [io] that sees the whole history.
    - Each handler invocation on one packet is one transition: the locks of
      the source make every table operation atomic, and the interleaving of
      table operations of concurrent handlers is modelled separately, for
      the promotion of a record, in module [Interleaved]. *)

From stdpp Require Import gmap strings list fin_maps.
From Stdlib Require Import ZArith Ascii.

Open Scope Z_scope.
Open Scope nat_scope.

(** ** Outcomes of a call that may fault *)

Inductive panic : Type :=
  | IndexOutOfRange
  | SliceBoundsOutOfRange
  | CloseOfClosedChannel
  | IntnNonPositive
  | NilDereference.

Inductive outcome (A : Type) : Type :=
  | Done (a : A)
  | Panic (p : panic).
Arguments Done {A} a.
Arguments Panic {A} p.

Definition obind {A B} (m : outcome A) (k : A → outcome B) : outcome B :=
  match m with
  | Done a => k a
  | Panic p => Panic p
  end.

(** ** Backend handles and the backend storage (backend_manager.go) *)

(** A stream to an agent ([agent.AgentService_ConnectServer]) is known by
    its identity only. *)
Definition Stream := nat.

(** [type backend struct { mu; conn }], always used through [*backend]:
    [addr] is the address of the object, [conn] its immutable field.  The
    [Backend] interface values of the server are such pointers, and [==] on
    them is pointer equality. *)
Record backend : Type := mkBackend { addr : nat; conn : Stream }.

#[global] Instance backend_eq_dec : EqDecision backend.
Proof. solve_decision. Defined.

Definition same_handle (b1 b2 : backend) : bool :=
  bool_decide (addr b1 = addr b2).

(** The [Backend] interface: [None] is the nil interface. *)
Definition Backend := option backend.

Definition Backend_eq (b1 b2 : Backend) : bool :=
  match b1, b2 with
  | Some x, Some y => same_handle x y
  | None, None => true
  | _, _ => false
  end.

(** [DefaultBackendStorage].  [next_addr] is the allocator used by
    [newBackend]; the [random] field is the draw passed to
    [GetRandomBackend]. *)
Record DefaultBackendStorage : Type := mkStorage {
  backends : gmap string (list backend);
  agentIDs : list string;
  next_addr : nat
}.

Definition NewDefaultBackendStorage : DefaultBackendStorage :=
  {| backends := ∅; agentIDs := []; next_addr := 0 |}.

Definition newBackend (c : Stream) (a : nat) : backend :=
  {| addr := a; conn := c |}.

(** [s.backends[agentID]]: reading a missing key yields the nil slice. *)
Definition backends_at (s : DefaultBackendStorage) (agentID : string)
  : list backend :=
  default [] (backends s !! agentID).

(** [GetBackend]: the guard tests whether the whole map is empty, then
    index 0 of [s.backends[agentID]] is read. *)
Definition GetBackend (agentID : string) (s : DefaultBackendStorage)
  : outcome Backend :=
  if decide (size (backends s) = 0) then Done None
  else match backends_at s agentID !! 0 with
       | Some b => Done (Some b)
       | None => Panic IndexOutOfRange
       end.

(** [AddBackend]. [addedBackend] is allocated before the map is looked at. *)
Definition AddBackend (agentID : string) (c : Stream)
    (s : DefaultBackendStorage) : backend * DefaultBackendStorage :=
  let addedBackend := newBackend c (next_addr s) in
  match backends s !! agentID with
  | Some l =>
      match list_find (λ v, conn v = c) l with
      | Some (_, v) =>
          (v, {| backends := backends s; agentIDs := agentIDs s;
                 next_addr := S (next_addr s) |})
      | None =>
          (addedBackend,
           {| backends := <[agentID := l ++ [addedBackend]]> (backends s);
              agentIDs := agentIDs s;
              next_addr := S (next_addr s) |})
      end
  | None =>
      (addedBackend,
       {| backends := <[agentID := [addedBackend]]> (backends s);
          agentIDs := agentIDs s ++ [agentID];
          next_addr := S (next_addr s) |})
  end.

(** [append(s.backends[agentID][:i], s.backends[agentID][i+1:]...)] on the
    backing array [arr], of which [s.backends[agentID]] is the first [len]
    cells.  The append has room and writes in place: cells [i+1 .. len-1]
    move one place down, the cells from [len-1] on keep their contents.
    Slicing [[i+1:]] faults when [i+1] exceeds the length. *)
Definition remove_at (i : nat) (arr : list backend) (len : nat)
  : outcome (list backend * nat) :=
  if decide (i + 1 ≤ len)
  then Done (take i arr ++ take (len - (i + 1)) (drop (i + 1) arr)
               ++ drop (len - 1) arr,
             len - 1)
  else Panic SliceBoundsOutOfRange.

(** The [for i, c := range backends] loop of [RemoveBackend].  The range
    operand is the slice read before the loop; it keeps its length but
    shares the backing array with [s.backends[agentID]], so [c] is read
    from the array as it is at iteration [i]. *)
Fixpoint RemoveBackend_range (c : Stream) (idxs : list nat)
    (arr : list backend) (len : nat) (found : bool)
  : outcome (list backend * nat * bool) :=
  match idxs with
  | [] => Done (arr, len, found)
  | i :: rest =>
      match arr !! i with
      | Some v =>
          if decide (conn v = c) then
            obind (remove_at i arr len)
                  (λ '(arr', len'), RemoveBackend_range c rest arr' len' true)
          else RemoveBackend_range c rest arr len found
      | None => Done (arr, len, found)
      end
  end.

(** The swap-with-last removal from [s.agentIDs], stopping at the first
    match. *)
Definition remove_agentID (agentID : string) (ids : list string)
  : list string :=
  match list_find (λ x, x = agentID) ids with
  | Some (i, _) =>
      match last ids with
      | Some l => take (length ids - 1) (<[i := l]> ids)
      | None => ids
      end
  | None => ids
  end.

Definition RemoveBackend (agentID : string) (c : Stream)
    (s : DefaultBackendStorage) : outcome DefaultBackendStorage :=
  match backends s !! agentID with
  | None => Done s
  | Some l =>
      obind (RemoveBackend_range c (seq 0 (length l)) l (length l) false)
        (λ '(arr, len, found),
           let m := if found then <[agentID := take len arr]> (backends s)
                    else backends s in
           if decide (length (default [] (m !! agentID)) = 0)
           then Done {| backends := delete agentID m;
                        agentIDs := remove_agentID agentID (agentIDs s);
                        next_addr := next_addr s |}
           else Done {| backends := m; agentIDs := agentIDs s;
                        next_addr := next_addr s |})
  end.

Definition NumBackends (s : DefaultBackendStorage) : nat :=
  size (backends s).

(** [GetRandomBackend]; [draw] is the value of [s.random.Intn] before the
    reduction to [0 .. len(s.agentIDs)-1]. *)
Definition GetRandomBackend (draw : nat) (s : DefaultBackendStorage)
  : outcome Backend :=
  if decide (size (backends s) = 0) then Done None
  else if decide (length (agentIDs s) = 0) then Panic IntnNonPositive
  else match agentIDs s !! (draw mod length (agentIDs s)) with
       | None => Panic IndexOutOfRange
       | Some agentID =>
           match backends_at s agentID !! 0 with
           | Some b => Done (Some b)
           | None => Panic IndexOutOfRange
           end
       end.

(** ** The backend managers *)

(** The value that [ctx.Value(DestIPContextKey)] yields when it is not
    nil: a string, or a value of another dynamic type. *)
Inductive ctxValue : Type :=
  | VString (v : string)
  | VOther.

(** A [context.Context], as far as the managers read it: the value bound
    to [DestIPContextKey], if any. *)
Definition Context := option ctxValue.

Inductive PacketType : Type :=
  | DIAL_REQ | DIAL_RSP | CLOSE_REQ | CLOSE_RSP | DATA.

Inductive error : Type :=
  | ErrNotFound                       (* "No backend available" *)
  | ErrNoAgentID                      (* "no agentID found in the context" *)
  | ErrTypeAssertion                  (* "type assertion failed" *)
  | ErrAgentNotInFrontends (agentID : string)
  | ErrConnNotInFrontends (connID : Z) (agentID : string)
  | ErrUnrecognizedType (t : PacketType)
  | ErrUnrecognizedMode (m : string)
  | ErrHijack
  | ErrTransport (code : nat).        (* reported by a stream or a socket *)

Inductive BackendManager : Type :=
  | DefaultBackendManager
  | DestIPBackendManager.

Definition DefaultBackendManager_Backend (draw : nat)
    (s : DefaultBackendStorage) : outcome (Backend * option error) :=
  obind (GetRandomBackend draw s) (λ be,
    match be with
    | None => Done (None, Some ErrNotFound)
    | Some b => Done (Some b, None)
    end).

Definition DestIPBackendManager_Backend (ctx : Context)
    (s : DefaultBackendStorage) : outcome (Backend * option error) :=
  match ctx with
  | None => Done (None, Some ErrNoAgentID)
  | Some VOther => Done (None, Some ErrTypeAssertion)
  | Some (VString agentID) =>
      obind (GetBackend agentID s) (λ be,
        match be with
        | None => Done (None, Some ErrNotFound)
        | Some b => Done (Some b, None)
        end)
  end.

Definition BackendManager_Backend (m : BackendManager) (ctx : Context)
    (draw : nat) (s : DefaultBackendStorage)
  : outcome (Backend * option error) :=
  match m with
  | DefaultBackendManager => DefaultBackendManager_Backend draw s
  | DestIPBackendManager => DestIPBackendManager_Backend ctx s
  end.

(** ** Packets, frontend records and the server state (server.go) *)

Definition bytes := list Byte.byte.

(** A [client.Packet] whose payload is of the kind of its [Type]: the tag
    together with the payload of that variant.  A packet as a stream
    delivers it, whose payload can be unset or of another kind, is a
    [WirePacket], below; the handlers read a field of the payload before
    they pass a packet on, so that a packet passed on is of this form. *)
Inductive Packet : Type :=
  | Packet_DialRequest (protocol address : string) (random : Z)
  | Packet_DialResponse (random : Z) (cid : Z) (err : string)
  | Packet_CloseRequest (cid : Z)
  | Packet_CloseResponse (cid : Z)
  | Packet_Data (cid : Z) (data : bytes).

Definition Type_ (pkt : Packet) : PacketType :=
  match pkt with
  | Packet_DialRequest _ _ _ => DIAL_REQ
  | Packet_DialResponse _ _ _ => DIAL_RSP
  | Packet_CloseRequest _ => CLOSE_REQ
  | Packet_CloseResponse _ => CLOSE_RSP
  | Packet_Data _ _ => DATA
  end.

(** A hijacked socket ([net.Conn]) is known by its identity. *)
Definition Conn := nat.

(** [ProxyClientConnection].  [connected] is the channel of that name:
    [false] while it is open, [true] once it has been closed.  [start] only
    feeds the latency metric and is left out. *)
Record ProxyClientConnection : Type := mkPCC {
  Mode : string;
  Grpc : option Stream;
  HTTP : option Conn;
  connected : bool;
  connectID : Z;
  pcc_agentID : string;
  pcc_backend : Backend
}.

(** Calls that leave the process. *)
Inductive Event : Type :=
  | EvGrpcSend (stream : Stream) (pkt : Packet)   (* frontend stream.Send *)
  | EvBackendSend (b : backend) (pkt : Packet)    (* b.conn.Send *)
  | EvHTTPWrite (c : Conn) (data : bytes)         (* c.HTTP.Write *)
  | EvHTTPClose (c : Conn).                       (* c.HTTP.Close *)

(** The environment of the server: the result of every outgoing call and
    the values of the two random sources, each as a function of the
    history, and the order in which a [range] over an inner map of the
    registry visits its entries. *)
Class Environment : Type := {
  io : list Event → Event → option error;
  Intn : list Event → nat;
  Int63 : list Event → Z;
  go_range : gmap Z nat → list (Z * nat);
  go_range_perm : ∀ m, go_range m ≡ₚ map_to_list m
}.

(** [ProxyServer], with the heap of [ProxyClientConnection] objects (a
    pointer is an index into [heap]) and the trace of outgoing calls.
    [storage] is the [DefaultBackendStorage] behind [BackendManager];
    [pendingDial] is [PendingDial.pendingDial]. *)
Record ProxyServer : Type := mkServer {
  storage : DefaultBackendStorage;
  manager : BackendManager;
  proxyStrategy : string;
  frontends : gmap string (gmap Z nat);
  pendingDial : gmap Z nat;
  heap : list ProxyClientConnection;
  trace : list Event
}.

Definition set_storage (f : DefaultBackendStorage → DefaultBackendStorage)
    (s : ProxyServer) : ProxyServer :=
  mkServer (f (storage s)) (manager s) (proxyStrategy s) (frontends s)
           (pendingDial s) (heap s) (trace s).

Definition set_frontends
    (f : gmap string (gmap Z nat) → gmap string (gmap Z nat))
    (s : ProxyServer) : ProxyServer :=
  mkServer (storage s) (manager s) (proxyStrategy s) (f (frontends s))
           (pendingDial s) (heap s) (trace s).

Definition set_pendingDial (f : gmap Z nat → gmap Z nat)
    (s : ProxyServer) : ProxyServer :=
  mkServer (storage s) (manager s) (proxyStrategy s) (frontends s)
           (f (pendingDial s)) (heap s) (trace s).

Definition set_heap
    (f : list ProxyClientConnection → list ProxyClientConnection)
    (s : ProxyServer) : ProxyServer :=
  mkServer (storage s) (manager s) (proxyStrategy s) (frontends s)
           (pendingDial s) (f (heap s)) (trace s).

Definition set_trace (f : list Event → list Event)
    (s : ProxyServer) : ProxyServer :=
  mkServer (storage s) (manager s) (proxyStrategy s) (frontends s)
           (pendingDial s) (heap s) (f (trace s)).

(** [NewProxyServer].  server.go derives the manager from the strategy
    string and tunnel.go reads [proxyStrategy]; here the manager and the
    strategy are taken as they are given, so that every pair of them is an
    initial state. *)
Definition NewProxyServer (m : BackendManager) (strategy : string)
  : ProxyServer :=
  mkServer NewDefaultBackendStorage m strategy ∅ ∅ [] [].

(** Handlers run in a state monad over [ProxyServer] with faults. *)
Definition M (A : Type) : Type := ProxyServer → outcome (A * ProxyServer).

#[global] Instance M_ret : MRet M := λ A a s, Done (a, s).
#[global] Instance M_bind : MBind M := λ A B k m s,
  match m s with
  | Done (a, s') => k a s'
  | Panic p => Panic p
  end.

Definition get : M ProxyServer := λ s, Done (s, s).
Definition modify (f : ProxyServer → ProxyServer) : M unit :=
  λ s, Done (tt, f s).
Definition fault {A} (p : panic) : M A := λ _, Panic p.
Definition lift {A} (o : outcome A) : M A :=
  λ s, match o with Done a => Done (a, s) | Panic p => Panic p end.

(** The state a handler leaves, when it returns. *)
Definition exec {A} (m : M A) (s : ProxyServer) : option ProxyServer :=
  match m s with
  | Done (_, s') => Some s'
  | Panic _ => None
  end.

(** The same, for use on sample runs that are known to return. *)
Definition after {A} (m : M A) (s : ProxyServer) : ProxyServer :=
  default s (exec m s).

Section Handlers.
Context `{Environment}.

(** An outgoing call: the environment decides its result from the history,
    and the call is appended to the trace. *)
Definition call (ev : Event) : M (option error) :=
  λ s, Done (io (trace s) ev, set_trace (λ t, t ++ [ev]) s).

(** [Send] of a [backend]: the call goes to the stream [b.conn]. *)
Definition Backend_Send (b : backend) (pkt : Packet) : M (option error) :=
  call (EvBackendSend b pkt).

(** [send] of a [ProxyClientConnection], on the record as read from the
    heap. *)
Definition send (c : ProxyClientConnection) (pkt : Packet)
  : M (option error) :=
  if decide (Mode c = "grpc") then
    match Grpc c with
    | Some stream => call (EvGrpcSend stream pkt)
    | None => fault NilDereference
    end
  else if decide (Mode c = "http-connect") then
    match pkt with
    | Packet_CloseResponse _ =>
        match HTTP c with
        | Some h => call (EvHTTPClose h)
        | None => fault NilDereference
        end
    | Packet_Data _ data =>
        match HTTP c with
        | Some h => call (EvHTTPWrite h data)
        | None => fault NilDereference
        end
    | Packet_DialResponse _ _ err =>
        if decide (err ≠ "") then
          match HTTP c with
          | Some h => call (EvHTTPClose h)
          | None => fault NilDereference
          end
        else mret None
    | _ => mret (Some (ErrUnrecognizedType (Type_ pkt)))
    end
  else mret (Some (ErrUnrecognizedMode (Mode c))).

(** A computation that amounts to the one outgoing call [ev]: its result
    is the environment's, and the call is the only change of the state. *)
Definition performs (m : M (option error)) (ev : Event) (s : ProxyServer)
  : Prop :=
  m s = Done (io (trace s) ev, set_trace (λ t, t ++ [ev]) s).

(** Reading through a [*ProxyClientConnection]. *)
Definition deref (p : nat) : M ProxyClientConnection :=
  λ s, match heap s !! p with
       | Some c => Done (c, s)
       | None => Panic NilDereference
       end.

(** [&ProxyClientConnection{...}]. *)
Definition new (c : ProxyClientConnection) : M nat :=
  λ s, Done (length (heap s), set_heap (λ h, h ++ [c]) s).

(** *** The pending-dial table *)

Definition PendingDial_Add (random : Z) (clientConn : nat) : M unit :=
  modify (set_pendingDial (λ m, <[random := clientConn]> m)).

Definition PendingDial_Get (random : Z) : M (option nat) :=
  λ s, Done (pendingDial s !! random, s).

Definition PendingDial_Remove (random : Z) : M unit :=
  modify (set_pendingDial (λ m, delete random m)).

(** *** The frontend registry *)

Definition addFrontend (agentID : string) (connID : Z) (p : nat) : M unit :=
  modify (set_frontends (λ f,
    <[agentID := <[connID := p]> (default ∅ (f !! agentID))]> f)).

Definition removeFrontend (agentID : string) (connID : Z) : M unit :=
  modify (set_frontends (λ f,
    match f !! agentID with
    | None => f
    | Some conns =>
        match conns !! connID with
        | None => f
        | Some _ =>
            let conns' := delete connID conns in
            if decide (size conns' = 0) then delete agentID f
            else <[agentID := conns']> f
        end
    end)).

Definition getFrontend (agentID : string) (connID : Z)
  : M (option nat * option error) :=
  λ s, match frontends s !! agentID with
       | None => Done ((None, Some (ErrAgentNotInFrontends agentID)), s)
       | Some conns =>
           match conns !! connID with
           | None =>
               Done ((None, Some (ErrConnNotInFrontends connID agentID)), s)
           | Some conn => Done ((Some conn, None), s)
           end
       end.

(** The [range frontends] loop of [getFrontendsForBackendConn]. *)
Fixpoint frontendsForBackendConn_range (b : Backend) (l : list (Z * nat))
    (ret : list nat) : M (list nat) :=
  match l with
  | [] => mret ret
  | (_, frontend) :: rest =>
      c ← deref frontend;
      if Backend_eq (pcc_backend c) b
      then frontendsForBackendConn_range b rest (ret ++ [frontend])
      else frontendsForBackendConn_range b rest ret
  end.

Definition getFrontendsForBackendConn (agentID : string) (b : Backend)
  : M (list nat * option error) :=
  s ← get;
  match frontends s !! agentID with
  | None => mret ([], Some (ErrAgentNotInFrontends agentID))
  | Some conns =>
      ret ← frontendsForBackendConn_range b (go_range conns) [];
      mret (ret, None)
  end.

(** *** The frontend stream handler, [serveRecvFrontend] *)

(** The local variables of the handler. *)
Record frontendVars : Type := mkVars {
  firstConnID : Z;
  cur_backend : Backend
}.

(** One iteration of [for pkt := range recvCh]. *)
Definition serveRecvFrontend_pkt (stream : Stream) (pkt : Packet)
    (v : frontendVars) : M frontendVars :=
  match pkt with
  | Packet_DialRequest _ _ random =>
      s ← get;
      '(be, err) ← lift (BackendManager_Backend (manager s) None
                           (Intn (trace s)) (storage s));
      let v := mkVars (firstConnID v) be in
      match err with
      | Some _ => mret v
      | None =>
          p ← new (mkPCC "grpc" (Some stream) None false 0 "" be);
          PendingDial_Add random p;;
          match be with
          | Some b => _ ← Backend_Send b pkt; mret v
          | None => fault NilDereference
          end
      end
  | Packet_CloseRequest _ =>
      match cur_backend v with
      | None => mret v
      | Some b => _ ← Backend_Send b pkt; mret v
      end
  | Packet_Data connID _ =>
      let v := if decide (firstConnID v = 0%Z)
               then mkVars connID (cur_backend v) else v in
      match cur_backend v with
      | None => mret v
      | Some b => _ ← Backend_Send b pkt; mret v
      end
  | _ => mret v
  end.

Fixpoint serveRecvFrontend_loop (stream : Stream) (recvCh : list Packet)
    (v : frontendVars) : M frontendVars :=
  match recvCh with
  | [] => mret v
  | pkt :: rest =>
      v' ← serveRecvFrontend_pkt stream pkt v;
      serveRecvFrontend_loop stream rest v'
  end.

(** What follows the loop, once [recvCh] is closed. *)
Definition serveRecvFrontend_close (v : frontendVars) : M unit :=
  match cur_backend v with
  | None => mret tt
  | Some b =>
      _ ← Backend_Send b (Packet_CloseRequest (firstConnID v)); mret tt
  end.

(** [serveRecvFrontend] on a stream that delivers [recvCh] and then ends. *)
Definition serveRecvFrontend (stream : Stream) (recvCh : list Packet)
  : M unit :=
  v ← serveRecvFrontend_loop stream recvCh (mkVars 0 None);
  serveRecvFrontend_close v.

(** *** The backend stream handler, [serveRecvBackend] *)

(** [frontend.connectID = connID; frontend.agentID = agentID]. *)
Definition set_ids (connID : Z) (agentID : string)
    (c : ProxyClientConnection) : ProxyClientConnection :=
  mkPCC (Mode c) (Grpc c) (HTTP c) (connected c) connID agentID
        (pcc_backend c).

Definition set_connected (c : ProxyClientConnection)
  : ProxyClientConnection :=
  mkPCC (Mode c) (Grpc c) (HTTP c) true (connectID c) (pcc_agentID c)
        (pcc_backend c).

Definition assign_ids (p : nat) (connID : Z) (agentID : string) : M unit :=
  c ← deref p;
  modify (set_heap (λ h, <[p := set_ids connID agentID c]> h)).

(** [close(frontend.connected)]. *)
Definition close_connected (p : nat) : M unit :=
  c ← deref p;
  if connected c then fault CloseOfClosedChannel
  else modify (set_heap (λ h, <[p := set_connected c]> h)).

(** The [DIAL_RSP] case, for a nonce found in the pending table. *)
Definition promote (agentID : string) (pkt : Packet) (random connID : Z)
    (err : string) (frontend : nat) : M unit :=
  let dialErr := bool_decide (err ≠ "") in
  c ← deref frontend;
  e ← send c pkt;
  PendingDial_Remove random;;
  let dialErr := dialErr || bool_decide (is_Some e) in
  if dialErr then mret tt
  else
    assign_ids frontend connID agentID;;
    addFrontend agentID connID frontend;;
    close_connected frontend.

(** One iteration of [for pkt := range recvCh]. *)
Definition serveRecvBackend_pkt (agentID : string) (pkt : Packet) : M unit :=
  match pkt with
  | Packet_DialResponse random connID err =>
      o ← PendingDial_Get random;
      match o with
      | None => mret tt
      | Some frontend => promote agentID pkt random connID err frontend
      end
  | Packet_Data connID _ =>
      '(frontend, err) ← getFrontend agentID connID;
      match frontend, err with
      | Some p, None => c ← deref p; _ ← send c pkt; mret tt
      | _, _ => mret tt
      end
  | Packet_CloseResponse connID =>
      '(frontend, err) ← getFrontend agentID connID;
      match frontend, err with
      | Some p, None =>
          c ← deref p; _ ← send c pkt; removeFrontend agentID connID
      | _, _ => mret tt
      end
  | _ => mret tt
  end.

(** The deferred function: the loop over the frontends of the closed
    backend connection. *)
Fixpoint close_frontends (agentID : string) (l : list nat) : M unit :=
  match l with
  | [] => mret tt
  | frontend :: rest =>
      c ← deref frontend;
      removeFrontend agentID (connectID c);;
      _ ← send c (Packet_CloseResponse (connectID c));
      close_frontends agentID rest
  end.

Definition serveRecvBackend_cleanup (agentID : string) (b : Backend)
  : M unit :=
  '(l, _) ← getFrontendsForBackendConn agentID b;
  close_frontends agentID l.

Fixpoint serveRecvBackend_loop (agentID : string) (recvCh : list Packet)
  : M unit :=
  match recvCh with
  | [] => mret tt
  | pkt :: rest =>
      serveRecvBackend_pkt agentID pkt;;
      serveRecvBackend_loop agentID rest
  end.

(** [serveRecvBackend] on a stream that delivers [recvCh] and then ends. *)
Definition serveRecvBackend (b : Backend) (agentID : string)
    (recvCh : list Packet) : M unit :=
  serveRecvBackend_loop agentID recvCh;;
  serveRecvBackend_cleanup agentID b.

End Handlers.

(** ** The HTTP CONNECT entry point (tunnel.go) *)

(** The parts of [*http.Request] that [ServeHTTP] reads.  [TLS] is the number
    of peer certificates of the connection state, when there is one. *)
Record Request : Type := mkRequest {
  Method : string;
  Host : string;
  TLS : option nat
}.

(** The [http.ResponseWriter] of the request, as the net/http server
    implements it: whether it is an [http.Hijacker], the status code sent
    to the client (the first [WriteHeader] fixes it), whether the
    connection has been taken over by [Hijack], and the status codes that
    the handler passed to [WriteHeader], in order. *)
Record ResponseWriter : Type := mkWriter {
  hijackable : bool;
  status : option nat;
  hijacked : bool;
  header_calls : list nat
}.

Definition StatusOK := 200.
Definition StatusMethodNotAllowed := 405.
Definition StatusInternalServerError := 500.

(** [w.WriteHeader(code)]: ignored on a hijacked connection and when a
    header has been written already. *)
Definition WriteHeader (code : nat) (w : ResponseWriter) : ResponseWriter :=
  let st := if hijacked w then status w
            else match status w with
                 | Some c => Some c
                 | None => Some code
                 end in
  mkWriter (hijackable w) st (hijacked w) (header_calls w ++ [code]).

(** [http.Error(w, msg, code)]: sets headers, calls [WriteHeader] and
    prints the message to [w]. *)
Definition http_Error (code : nat) (w : ResponseWriter) : ResponseWriter :=
  WriteHeader code w.

(** The state of [w] after a successful [Hijack]. *)
Definition set_hijacked (w : ResponseWriter) : ResponseWriter :=
  mkWriter (hijackable w) (status w) true (header_calls w).

(** [strings.Split(host, ":")[0]]. *)
Fixpoint before_colon (host : string) : string :=
  match host with
  | EmptyString => EmptyString
  | String a rest =>
      if Ascii.eqb a ":"%char then EmptyString else String a (before_colon rest)
  end.

(** How [ServeHTTP] leaves its first part: by one of its [return]s, or by
    reaching the receive on [connection.connected]. *)
Inductive tunnelExit : Type :=
  | ExitMethodNotAllowed
  | ExitHijackUnsupported
  | ExitHijackFailed
  | ExitNoBackend (err : error)
  | ExitDialFailed (err : error)
  | AwaitConnected (random : Z) (connection : nat) (b : backend) (c : Conn).

Section Tunnel.
Context `{Environment}.

(** [ServeHTTP] up to the receive on [connection.connected].  [hijack] is
    what [hijacker.Hijack()] returns: the socket, or an error. *)
Definition ServeHTTP_dial (w : ResponseWriter) (r : Request)
    (hijack : option Conn) : M (tunnelExit * ResponseWriter) :=
  if decide (TLS r = Some 0) then fault IndexOutOfRange
  else if decide (Method r ≠ "CONNECT") then
    mret (ExitMethodNotAllowed, http_Error StatusMethodNotAllowed w)
  else if negb (hijackable w) then
    mret (ExitHijackUnsupported, http_Error StatusInternalServerError w)
  else
    let w := WriteHeader StatusOK w in
    match hijack with
    | None => mret (ExitHijackFailed, http_Error StatusInternalServerError w)
    | Some c =>
        let w := set_hijacked w in
        s ← get;
        let random := (Int63 (trace s) mod 2 ^ 63)%Z in
        let dialRequest := Packet_DialRequest "tcp" (Host r) random in
        let ctx := if decide (proxyStrategy s = "destIP")
                   then Some (VString (before_colon (Host r)))
                   else None in
        '(be, err) ← lift (BackendManager_Backend (manager s) ctx
                             (Intn (trace s)) (storage s));
        match err with
        | Some e =>
            mret (ExitNoBackend e, http_Error StatusInternalServerError w)
        | None =>
            connection ←
              new (mkPCC "http-connect" None (Some c) false 0 "" be);
            PendingDial_Add random connection;;
            match be with
            | None => fault NilDereference
            | Some b =>
                e ← Backend_Send b dialRequest;
                match e with
                | Some e => mret (ExitDialFailed e, w)
                | None => mret (AwaitConnected random connection b c, w)
                end
            end
        end
    end.

(** The read loop: [reads] are the chunks read from the socket before the
    read that fails or reports EOF. *)
Fixpoint tunnel_loop (b : backend) (connID : Z) (reads : list bytes)
  : M unit :=
  match reads with
  | [] => mret tt
  | pkt :: rest =>
      e ← Backend_Send b (Packet_Data connID pkt);
      match e with
      | Some _ => mret tt
      | None => tunnel_loop b connID rest
      end
  end.

(** [ServeHTTP] from the point where the receive on [connection.connected]
    has returned, with the deferred [conn.Close()] at the end. *)
Definition ServeHTTP_proxy (connection : nat) (b : backend) (c : Conn)
    (reads : list bytes) : M unit :=
  pcc ← deref connection;
  tunnel_loop b (connectID pcc) reads;;
  _ ← call (EvHTTPClose c);
  mret tt.

(** ** The server as a transition system *)

(** One transition is one handler invocation: an agent stream registered or
    deregistered by [Connect], one packet of a frontend or backend stream,
    the end of such a stream, or a part of [ServeHTTP].  The local
    variables of a frontend handler are arbitrary.  A handler that faults
    ends the process and yields no state.  In the program the handlers
    run side by side and take their locks for one table operation at a
    time: [reachable] has the states in which no handler is in the middle
    of an invocation, and [Interleaved.run], below, those in which the
    operations of the [DIAL_RSP] case of several handlers interleave. *)
Inductive step : ProxyServer → ProxyServer → Prop :=
  | step_AddBackend agentID stream s :
      step s (set_storage (λ st, (AddBackend agentID stream st).2) s)
  | step_RemoveBackend agentID stream s st' :
      RemoveBackend agentID stream (storage s) = Done st' →
      step s (set_storage (λ _, st') s)
  | step_frontend_pkt stream pkt v v' s s' :
      serveRecvFrontend_pkt stream pkt v s = Done (v', s') → step s s'
  | step_frontend_close v s s' :
      serveRecvFrontend_close v s = Done (tt, s') → step s s'
  | step_backend_pkt agentID pkt s s' :
      serveRecvBackend_pkt agentID pkt s = Done (tt, s') → step s s'
  | step_backend_cleanup agentID b s s' :
      serveRecvBackend_cleanup agentID b s = Done (tt, s') → step s s'
  | step_tunnel_dial w r hijack x s s' :
      ServeHTTP_dial w r hijack s = Done (x, s') → step s s'
  | step_tunnel_proxy connection b c reads pcc s s' :
      heap s !! connection = Some pcc → connected pcc = true →
      ServeHTTP_proxy connection b c reads s = Done (tt, s') → step s s'.

Definition reachable (s : ProxyServer) : Prop :=
  ∃ m strategy, rtc step (NewProxyServer m strategy) s.

End Tunnel.

(** [conn = Frontend[agentID][connID]]. *)
Definition lookup_frontend (s : ProxyServer) (agentID : string) (connID : Z)
  : option nat :=
  frontends s !! agentID ≫= (λ conns, conns !! connID).

(** The record [p] is in the pending-dial table, under some nonce. *)
Definition in_pending (s : ProxyServer) (p : nat) : Prop :=
  ∃ random, pendingDial s !! random = Some p.

(** The record [p] is in the frontend registry, under some pair. *)
Definition in_registry (s : ProxyServer) (p : nat) : Prop :=
  ∃ agentID connID, lookup_frontend s agentID connID = Some p.

(** ** Sequences of registrations and the registrations they leave *)

Inductive storageOp : Type :=
  | OpAdd (agentID : string) (c : Stream)
  | OpRemove (agentID : string) (c : Stream).

Definition run_op (op : storageOp) (s : DefaultBackendStorage)
  : outcome DefaultBackendStorage :=
  match op with
  | OpAdd agentID c => Done (AddBackend agentID c s).2
  | OpRemove agentID c => RemoveBackend agentID c s
  end.

Fixpoint run_ops (ops : list storageOp) (s : DefaultBackendStorage)
  : outcome DefaultBackendStorage :=
  match ops with
  | [] => Done s
  | op :: rest => obind (run_op op s) (run_ops rest)
  end.

(** The streams registered and not deregistered since, per agent. *)
Fixpoint registered (ops : list storageOp) (g : gset (string * Stream))
  : gset (string * Stream) :=
  match ops with
  | [] => g
  | OpAdd agentID c :: rest => registered rest ({[ (agentID, c) ]} ∪ g)
  | OpRemove agentID c :: rest => registered rest (g ∖ {[ (agentID, c) ]})
  end.

(** The agents that have a registered stream. *)
Definition registered_agents (g : gset (string * Stream)) : gset string :=
  set_map fst g.

(** ** Connection identifiers seen on a frontend stream *)

(** The identifiers of the [DATA] packets of a stream, in order. *)
Definition data_connIDs (recvCh : list Packet) : list Z :=
  omap (λ pkt, match pkt with
               | Packet_Data connID _ => Some connID
               | _ => None
               end) recvCh.

(** The first identifier observed in a [DATA] packet. *)
Definition first_observed_connID (recvCh : list Packet) : option Z :=
  head (data_connIDs recvCh).

(** The first identifier other than 0 observed in a [DATA] packet, and 0
    when there is none. *)
Definition first_nonzero_connID (recvCh : list Packet) : Z :=
  default 0%Z (head (filter (λ c, c ≠ 0%Z) (data_connIDs recvCh))).

(** ** A quiet environment and sample states *)

(** Every outgoing call succeeds, the random sources yield 0, and a map is
    visited in the order of [map_to_list]. *)
Definition quiet : Environment :=
  {| io := λ _ _, None;
     Intn := λ _, 0;
     Int63 := λ _, 0%Z;
     go_range := map_to_list;
     go_range_perm := λ m, reflexivity (map_to_list m) |}.


(** ** Invariants of the backend storage *)

(** [agentIDs] lists the keys of [backends] without repetition, no agent
    is kept with an empty list of handles, and the handles of one agent
    wrap different streams. *)
Record storage_inv (s : DefaultBackendStorage) : Prop := mkStorageInv {
  inv_nodup : NoDup (agentIDs s);
  inv_keys : ∀ a, a ∈ agentIDs s ↔ is_Some (backends s !! a);
  inv_nonempty : ∀ a l, backends s !! a = Some l → l ≠ [];
  inv_conns : ∀ a l, backends s !! a = Some l → NoDup (conn <$> l)
}.

(** The storage holds a handle for exactly the registrations [g]. *)
Definition tracks (g : gset (string * Stream)) (s : DefaultBackendStorage)
  : Prop :=
  ∀ a c, (a, c) ∈ g ↔ ∃ l, backends s !! a = Some l ∧ c ∈ conn <$> l.

(** ** Sample states *)

(** A storage in which agent ["A"] alone has a stream (stream 7). *)
Definition storage_A : DefaultBackendStorage :=
  (AddBackend "A" 7 NewDefaultBackendStorage).2.

Definition backend_A : backend := mkBackend 0 7.

(** A server with the default manager and agent ["A"] connected. *)
Definition server_A : ProxyServer :=
  set_storage (λ _, storage_A) (NewProxyServer DefaultBackendManager "default").

(** A server with the destination manager and agent ["A"] connected. *)
Definition server_destIP_A : ProxyServer :=
  set_storage (λ _, storage_A) (NewProxyServer DestIPBackendManager "destIP").

(** A response writer on which nothing has been written. *)
Definition fresh_writer : ResponseWriter := mkWriter true None false [].

(** A frontend stream that sends a dial request, then data for connection 0
    and data for connection 5. *)
Definition stream_0_5 : list Packet :=
  [Packet_DialRequest "tcp" "10.0.0.1:80" 7; Packet_Data 0 [];
   Packet_Data 5 []].

(** The statement that the [CLOSE_REQ] sent at the end of a frontend
    stream carries the first identifier observed in a [DATA] packet of the
    stream. *)
Definition closes_first_observed `{Environment} (stream : Stream)
    (recvCh : list Packet) (s : ProxyServer) : Prop :=
  ∀ v s1 b,
    serveRecvFrontend_loop stream recvCh (mkVars 0 None) s = Done (v, s1) →
    cur_backend v = Some b →
    ∃ connID,
      first_observed_connID recvCh = Some connID ∧
      serveRecvFrontend_close v s1 =
        Done (tt, set_trace
                    (λ t, t ++ [EvBackendSend b (Packet_CloseRequest connID)])
                    s1).

(** ** Invariants of the server state *)

(** The record has the transport that its mode uses. *)
Definition transport_ok (c : ProxyClientConnection) : Prop :=
  (Mode c = "grpc" ∧ is_Some (Grpc c)) ∨
  (Mode c = "http-connect" ∧ is_Some (HTTP c)).

(** The outgoing call that [send] makes for a packet, if it makes one. *)
Definition send_call (c : ProxyClientConnection) (pkt : Packet)
  : option Event :=
  if decide (Mode c = "grpc") then
    (λ stream, EvGrpcSend stream pkt) <$> Grpc c
  else if decide (Mode c = "http-connect") then
    match pkt with
    | Packet_CloseResponse _ => EvHTTPClose <$> HTTP c
    | Packet_Data _ data => (λ h, EvHTTPWrite h data) <$> HTTP c
    | Packet_DialResponse _ _ err =>
        if decide (err ≠ "") then EvHTTPClose <$> HTTP c else None
    | _ => None
    end
  else None.

(** What one transition does to the pending-dial table, the registry and
    the heap: it leaves the table and the heap alone and adds nothing to
    the registry; or it allocates a record with an open latch and puts
    it in the table; or it removes a nonce from the table; or it promotes
    the record of a nonce. *)
Inductive effect (s s' : ProxyServer) : Prop :=
  | eff_registry_shrinks :
      pendingDial s' = pendingDial s → heap s' = heap s →
      (∀ a cid p, lookup_frontend s' a cid = Some p →
                  lookup_frontend s a cid = Some p) →
      effect s s'
  | eff_pending_add r c :
      pendingDial s' = <[r := length (heap s)]> (pendingDial s) →
      heap s' = heap s ++ [c] → connected c = false → transport_ok c →
      frontends s' = frontends s →
      effect s s'
  | eff_pending_drop r :
      pendingDial s' = delete r (pendingDial s) → heap s' = heap s →
      frontends s' = frontends s →
      effect s s'
  | eff_promote r p a cid c :
      pendingDial s !! r = Some p → heap s !! p = Some c →
      connected c = false →
      pendingDial s' = delete r (pendingDial s) →
      heap s' = <[p := set_connected (set_ids cid a c)]> (heap s) →
      frontends s' =
        <[a := <[cid := p]> (default ∅ (frontends s !! a))]> (frontends s) →
      effect s s'.

(** Every record in a table is allocated; a record is in the pending
    table under one nonce only; and no record is both in the pending
    table and in the registry. *)
Record tables_inv (s : ProxyServer) : Prop := mkTablesInv {
  inv_pending_alloc :
    ∀ r p, pendingDial s !! r = Some p → p < length (heap s);
  inv_pending_inj :
    ∀ r1 r2 p, pendingDial s !! r1 = Some p → pendingDial s !! r2 = Some p →
               r1 = r2;
  inv_registry_alloc :
    ∀ a cid p, lookup_frontend s a cid = Some p → p < length (heap s);
  inv_disjoint : ∀ p, in_pending s p → in_registry s p → False
}.

(** Moreover the latch of a record in the pending table is open, a record
    of the registry is filed under the identifiers that it carries, and
    every record has the transport of its mode. *)
Record server_inv (s : ProxyServer) : Prop := mkServerInv {
  inv_tables : tables_inv s;
  inv_pending_open :
    ∀ r p c, pendingDial s !! r = Some p → heap s !! p = Some c →
             connected c = false;
  inv_keyed :
    ∀ a cid p c, lookup_frontend s a cid = Some p → heap s !! p = Some c →
                 connectID c = cid ∧ pcc_agentID c = a;
  inv_transport : ∀ p c, heap s !! p = Some c → transport_ok c
}.

(** The state [s'] differs from [s] by the outgoing calls [evs] only. *)
Definition calls_only (s s' : ProxyServer) (evs : list Event) : Prop :=
  s' = set_trace (λ t, t ++ evs) s.

(** ** The records that the agent-disconnect cleanup concerns *)

(** The [backend] field of the record at [p] is the handle [b]. *)
Definition bound_to (s : ProxyServer) (b : Backend) (p : nat) : bool :=
  match heap s !! p with
  | Some c => Backend_eq (pcc_backend c) b
  | None => false
  end.

(** The [connectID] field of the record at [p]. *)
Definition record_connID (s : ProxyServer) (p : nat) : Z :=
  from_option connectID 0%Z (heap s !! p).

(** The outgoing call by which the record at [p] is sent a [CLOSE_RSP]
    that carries the record's own [connectID]. *)
Definition close_call (s : ProxyServer) (p : nat) : list Event :=
  option_list
    (heap s !! p ≫= λ c, send_call c (Packet_CloseResponse (connectID c))).

(** ** Sample runs *)

(** [server_A] after a gRPC frontend on stream 1 has sent a dial request
    with nonce 7. *)
Definition server_dialed : ProxyServer :=
  after (serveRecvFrontend_pkt (H:=quiet) 1
           (Packet_DialRequest "tcp" "10.0.0.1:80" 7) (mkVars 0 None))
        server_A.

(** A dial request with nonce [random] on a new frontend stream, answered
    by agent ["A"] with the connection identifier [cid]. *)
Definition dial_and_answer (stream : Stream) (random cid : Z)
    (s : ProxyServer) : ProxyServer :=
  after (serveRecvBackend_pkt (H:=quiet) "A"
           (Packet_DialResponse random cid ""))
    (after (serveRecvFrontend_pkt (H:=quiet) stream
              (Packet_DialRequest "tcp" "10.0.0.1:80" random) (mkVars 0 None))
           s).

(** Agent ["A"] serves connections 101 and 102 over its first handle
    ([backend_A], stream 7), then its stream 7 is deregistered and it
    registers stream 8, whose handle serves connection 103. *)
Definition backend_A2 : backend := mkBackend 1 8.

Definition reconnect_A (s : ProxyServer) : ProxyServer :=
  set_storage (λ st, (AddBackend "A" 8 st).2)
    (set_storage (λ st, match RemoveBackend "A" 7 st with
                        | Done st' => st'
                        | Panic _ => st
                        end) s).

Definition server_two_handles : ProxyServer :=
  dial_and_answer 3 3 103
    (reconnect_A (dial_and_answer 2 2 102 (dial_and_answer 1 1 101 server_A))).


(** ** Interleaved promotions

    The [DIAL_RSP] case of the backend handler takes the lock of the
    pending-dial table, releases it, talks to the frontend, takes the lock
    again, and only then the lock of the registry.  Here each of these
    operations is a transition of its own, so that the handlers of
    several backend streams, and all other handlers, run between them. *)

Module Interleaved.

(** Where a backend handler stands in the [DIAL_RSP] case: after
    [PendingDial.Get]; after [frontend.send], with its result; after
    [PendingDial.Remove], no error having been found; after the two
    assignments; after [addFrontend]. *)
Inductive pc : Type :=
  | Forwarding
  | Removing (e : option error)
  | Assigning
  | Adding
  | Closing.

(** A handler in the [DIAL_RSP] case: the agent of its stream, the fields
    of the response, the record that [PendingDial.Get] returned, and its
    position. *)
Record handler : Type := mkHandler {
  h_agentID : string;
  h_random : Z;
  h_connID : Z;
  h_err : string;
  h_frontend : nat;
  h_pc : pc
}.

Definition at_pc (q : pc) (h : handler) : handler :=
  mkHandler (h_agentID h) (h_random h) (h_connID h) (h_err h)
            (h_frontend h) q.

Definition h_pkt (h : handler) : Packet :=
  Packet_DialResponse (h_random h) (h_connID h) (h_err h).

(** The handler has not yet called [PendingDial.Remove]. *)
Definition before_remove (h : handler) : Prop :=
  match h_pc h with
  | Forwarding | Removing _ => True
  | _ => False
  end.

Record system : Type := mkSystem {
  server : ProxyServer;
  handlers : list handler
}.

Section Steps.
Context `{Environment}.

(** One operation of one handler in the [DIAL_RSP] case. *)
Inductive micro : system → system → Prop :=
  | micro_get s hs agentID random connID err p :
      pendingDial s !! random = Some p →
      micro (mkSystem s hs)
            (mkSystem s (mkHandler agentID random connID err p Forwarding
                           :: hs))
  | micro_forward s s' hs1 hs2 h c e :
      h_pc h = Forwarding → heap s !! h_frontend h = Some c →
      send c (h_pkt h) s = Done (e, s') →
      micro (mkSystem s (hs1 ++ h :: hs2))
            (mkSystem s' (hs1 ++ at_pc (Removing e) h :: hs2))
  | micro_remove_err s s' hs1 hs2 h e :
      h_pc h = Removing e → h_err h ≠ "" ∨ is_Some e →
      PendingDial_Remove (h_random h) s = Done (tt, s') →
      micro (mkSystem s (hs1 ++ h :: hs2)) (mkSystem s' (hs1 ++ hs2))
  | micro_remove_ok s s' hs1 hs2 h :
      h_pc h = Removing None → h_err h = "" →
      PendingDial_Remove (h_random h) s = Done (tt, s') →
      micro (mkSystem s (hs1 ++ h :: hs2))
            (mkSystem s' (hs1 ++ at_pc Assigning h :: hs2))
  | micro_assign s s' hs1 hs2 h :
      h_pc h = Assigning →
      assign_ids (h_frontend h) (h_connID h) (h_agentID h) s
        = Done (tt, s') →
      micro (mkSystem s (hs1 ++ h :: hs2))
            (mkSystem s' (hs1 ++ at_pc Adding h :: hs2))
  | micro_add s s' hs1 hs2 h :
      h_pc h = Adding →
      addFrontend (h_agentID h) (h_connID h) (h_frontend h) s
        = Done (tt, s') →
      micro (mkSystem s (hs1 ++ h :: hs2))
            (mkSystem s' (hs1 ++ at_pc Closing h :: hs2))
  | micro_close s s' hs1 hs2 h :
      h_pc h = Closing →
      close_connected (h_frontend h) s = Done (tt, s') →
      micro (mkSystem s (hs1 ++ h :: hs2)) (mkSystem s' (hs1 ++ hs2)).

(** A transition of the system: a whole handler invocation as in [step],
    or one operation of a handler in the [DIAL_RSP] case. *)
Inductive run : system → system → Prop :=
  | run_handler s s' hs :
      step s s' → run (mkSystem s hs) (mkSystem s' hs)
  | run_micro sys sys' : micro sys sys' → run sys sys'.

Definition reachable_system (sys : system) : Prop :=
  ∃ m strategy, rtc run (mkSystem (NewProxyServer m strategy) []) sys.

End Steps.

(** The tables are well formed; a record held by a handler is allocated;
    before the handler has removed its nonce the record is in the pending
    table under that nonce at most; afterwards it is not in the table. *)
Record inv (sys : system) : Prop := mkInv {
  sys_tables : tables_inv (server sys);
  sys_alloc :
    ∀ h, h ∈ handlers sys → h_frontend h < length (heap (server sys));
  sys_before :
    ∀ h r, h ∈ handlers sys → before_remove h →
           pendingDial (server sys) !! r = Some (h_frontend h) →
           r = h_random h;
  sys_after :
    ∀ h, h ∈ handlers sys → ¬ before_remove h →
         ¬ in_pending (server sys) (h_frontend h)
}.

End Interleaved.

(** * Further parts of the code *)

(** ** [strings.Split], [strings.HasPrefix] and [strings.TrimPrefix] *)

(** [strings.Split(s, sep)] for a separator of one character. *)
Fixpoint Split (sep : ascii) (s : string) : list string :=
  match s with
  | EmptyString => [EmptyString]
  | String a rest =>
      if Ascii.eqb a sep then EmptyString :: Split sep rest
      else match Split sep rest with
           | x :: xs => String a x :: xs
           | [] => [String a EmptyString]
           end
  end.

(** The strings of [l] with [sep] between them. *)
Fixpoint Join (sep : ascii) (l : list string) : string :=
  match l with
  | [] => EmptyString
  | [x] => x
  | x :: rest => x +:+ String sep (Join sep rest)
  end.

(** The character [sep] does not occur in [s]. *)
Fixpoint free_of (sep : ascii) (s : string) : bool :=
  match s with
  | EmptyString => true
  | String a rest => negb (Ascii.eqb a sep) && free_of sep rest
  end.

Definition HasPrefix (s pre : string) : bool := String.prefix pre s.

Fixpoint drop_chars (n : nat) (s : string) : string :=
  match n, s with
  | S n', String _ rest => drop_chars n' rest
  | _, _ => s
  end.

Definition TrimPrefix (s pre : string) : string :=
  if HasPrefix s pre then drop_chars (String.length pre) s else s.

(** ** Agent authentication (server.go) *)

Record AgentTokenAuthenticationOptions : Type := mkAuthOptions {
  Enabled : bool;
  AgentNamespace : string;
  AgentServiceAccount : string;
  AuthenticationAudience : string
}.

(** The [Status] of the [TokenReview] that the identity service returns:
    [Status.Error], [Status.Authenticated] and [Status.User.Username]. *)
Record TokenReviewStatus : Type := mkStatus {
  Status_Error : string;
  Status_Authenticated : bool;
  Status_Username : string
}.

Inductive auth_error : Type :=
  | ErrRequestFailed          (* "Failed to authenticate request" *)
  | ErrLookupFailed (msg : string)
  | ErrNotAuthenticated       (* "service account jwt not valid" *)
  | ErrUsernameFormat         (* "unexpected username format" *)
  | ErrNotServiceAccount      (* "username returned is not a service account" *)
  | ErrNamespace (ns : string)
  | ErrServiceAccount (sa : string)
  | ErrNoMetadata             (* "Failed to retrieve metadata from context" *)
  | ErrNoToken                (* "Authentication context was not found" *)
  | ErrTooManyTokens (n : nat)
  | ErrNoSchemePrefix
  | ErrValidation (e : auth_error).

(** The incoming metadata of a stream, as far as the server reads it: the
    values under [header.AgentID] and those under
    [header.AuthenticationTokenContextKey]. *)
Record Metadata : Type := mkMetadata {
  md_AgentID : list string;
  md_AuthenticationToken : list string
}.

Section Authentication.
(** The options of the server, the answer of the identity service to
    [TokenReviews().Create] for a token and an audience ([None] when the
    request fails), and the constant
    [header.AuthenticationTokenContextSchemePrefix]. *)
Variable options : AgentTokenAuthenticationOptions.
Variable TokenReviews_Create : string → string → option TokenReviewStatus.
Variable SchemePrefix : string.

Definition validateAuthToken (token : string) : option auth_error :=
  match TokenReviews_Create token (AuthenticationAudience options) with
  | None => Some ErrRequestFailed
  | Some r =>
      if decide (Status_Error r ≠ "") then
        Some (ErrLookupFailed (Status_Error r))
      else if negb (Status_Authenticated r) then Some ErrNotAuthenticated
      else
        match Split ":" (Status_Username r) with
        | [p0; p1; ns; sa] =>
            if decide (p0 ≠ "system" ∨ p1 ≠ "serviceaccount") then
              Some ErrNotServiceAccount
            else if decide (AgentNamespace options ≠ ns) then
              Some (ErrNamespace ns)
            else if decide (AgentServiceAccount options ≠ sa) then
              Some (ErrServiceAccount sa)
            else None
        | _ => Some ErrUsernameFormat
        end
  end.

(** [authenticateAgentViaToken]; [ctx] is [None] when the context carries
    no metadata. *)
Definition authenticateAgentViaToken (ctx : option Metadata)
  : option auth_error :=
  match ctx with
  | None => Some ErrNoMetadata
  | Some md =>
      match md_AuthenticationToken md with
      | [] => Some ErrNoToken
      | [authContext] =>
          if negb (HasPrefix authContext SchemePrefix) then
            Some ErrNoSchemePrefix
          else
            match validateAuthToken (TrimPrefix authContext SchemePrefix) with
            | Some e => Some (ErrValidation e)
            | None => None
            end
      | l => Some (ErrTooManyTokens (length l))
      end
  end.

End Authentication.

(** ** [Connect] (server.go) *)

Inductive connect_error : Type :=
  | ErrNoContext                      (* "failed to get context" *)
  | ErrAgentIDs (ids : list string)   (* "expected one agent ID ..." *)
  | ErrSendHeader (e : error)
  | ErrAuthentication (e : auth_error).

(** The function [agentID] of server.go. *)
Definition stream_agentID (ctx : option Metadata)
  : string * option connect_error :=
  match ctx with
  | None => (EmptyString, Some ErrNoContext)
  | Some md =>
      match md_AgentID md with
      | [id] => (id, None)
      | ids => (EmptyString, Some (ErrAgentIDs ids))
      end
  end.

Section Connecting.
Context `{Environment}.
Variable options : AgentTokenAuthenticationOptions.
Variable TokenReviews_Create : string → string → option TokenReviewStatus.
Variable SchemePrefix : string.

(** The deferred [s.BackendManager.RemoveBackend(agentID, stream)]. *)
Definition Connect_deferred (agentID : string) (stream : Stream) : M unit :=
  s ← get;
  st ← lift (RemoveBackend agentID stream (storage s));
  modify (set_storage (λ _, st)).

(** [Connect] on a stream with metadata [ctx] whose [SendHeader] returns
    [sendHeader] and which delivers the packets [recvCh ++ buffered] and
    then ends.  The handler [serveRecvBackend] runs beside [Connect]: of
    the packets it is given, [buffered] are those still in the channel
    when [Connect] returns and its deferred [RemoveBackend] runs. *)
Definition Connect (ctx : option Metadata) (stream : Stream)
    (sendHeader : option error) (recvCh buffered : list Packet)
  : M (option connect_error) :=
  match stream_agentID ctx with
  | (_, Some e) => mret (Some e)
  | (agentID, None) =>
      s ← get;
      let backend := (AddBackend agentID stream (storage s)).1 in
      modify (set_storage (λ st, (AddBackend agentID stream st).2));;
      match sendHeader with
      | Some e =>
          Connect_deferred agentID stream;; mret (Some (ErrSendHeader e))
      | None =>
          match (if Enabled options
                 then authenticateAgentViaToken options TokenReviews_Create
                        SchemePrefix ctx
                 else None) with
          | Some e =>
              Connect_deferred agentID stream;;
              mret (Some (ErrAuthentication e))
          | None =>
              serveRecvBackend_loop agentID recvCh;;
              Connect_deferred agentID stream;;
              serveRecvBackend_loop agentID buffered;;
              serveRecvBackend_cleanup agentID (Some backend);;
              mret None
          end
      end
  end.

End Connecting.

(** ** Further invariants of the server state *)

(** No agent is kept in the registry with an empty map of connections. *)
Definition registry_nonempty (s : ProxyServer) : Prop :=
  ∀ a conns, frontends s !! a = Some conns → conns ≠ ∅.

(** The latch of every record of the registry is closed. *)
Definition registered_connected (s : ProxyServer) : Prop :=
  ∀ a cid p c, lookup_frontend s a cid = Some p → heap s !! p = Some c →
               connected c = true.

(** The record [p] exists, is not in the pending-dial table, and its latch
    is open. *)
Definition abandoned (s : ProxyServer) (p : nat) : Prop :=
  ¬ in_pending s p ∧ ∃ c, heap s !! p = Some c ∧ connected c = false.

(** The packets that the frontend handler passes on to its backend. *)
Definition forwarded (pkt : Packet) : bool :=
  match pkt with
  | Packet_Data _ _ | Packet_CloseRequest _ => true
  | _ => false
  end.

(** A computation keeps the property [P] of the server state. *)
Definition preserves {A} (P : ProxyServer → Prop) (m : M A) : Prop :=
  ∀ s x s', P s → m s = Done (x, s') → P s'.

(** A property of the server state that the operations on the trace, the
    heap, the pending-dial table and the registry keep. *)
Record stable (P : ProxyServer → Prop) : Prop := mkStable {
  stable_trace : ∀ f s, P s → P (set_trace f s);
  stable_heap : ∀ f s, P s → P (set_heap f s);
  stable_pendingDial : ∀ f s, P s → P (set_pendingDial f s);
  stable_addFrontend : ∀ a cid p, preserves P (addFrontend a cid p);
  stable_removeFrontend : ∀ a cid, preserves P (removeFrontend a cid)
}.

(** The storage is well formed and holds the handles of some set of
    registrations. *)
Definition storage_ok (s : ProxyServer) : Prop :=
  storage_inv (storage s) ∧ ∃ g, tracks g (storage s).

(** The outgoing call, if any, by which the record at [p] is sent the
    packet [pkt]. *)
Definition delivery (s : ProxyServer) (p : nat) (pkt : Packet)
  : list Event :=
  option_list (heap s !! p ≫= λ c, send_call c pkt).

(** The record that a gRPC frontend handler creates for a dial. *)
Definition grpc_record (stream : Stream) (b : backend)
  : ProxyClientConnection :=
  mkPCC "grpc" (Some stream) None false 0 "" (Some b).

(** The record that [ServeHTTP] creates for a dial. *)
Definition tunnel_record (c : Conn) (b : backend) : ProxyClientConnection :=
  mkPCC "http-connect" None (Some c) false 0 "" (Some b).

(** ** Further sample states *)

(** A server to which no agent is connected. *)
Definition server_empty : ProxyServer :=
  NewProxyServer DefaultBackendManager "default".

(** [server_A] with connection 101 established for a gRPC frontend on
    stream 1. *)
Definition server_101 : ProxyServer := dial_and_answer 1 7 101 server_A.

(** [server_101] after agent ["A"] has closed connection 101. *)
Definition server_101_closed : ProxyServer :=
  after (serveRecvBackend_pkt (H:=quiet) "A" (Packet_CloseResponse 101))
        server_101.

(** A CONNECT request for port 443 of host ["A"]. *)
Definition request_A : Request := mkRequest "CONNECT" "A:443" None.

(** [server_A] after [ServeHTTP] has dialled for [request_A] on socket 9,
    and then after agent ["A"] has answered with connection 55. *)
Definition server_tunnel_dialed : ProxyServer :=
  after (ServeHTTP_dial (H:=quiet) fresh_writer request_A (Some 9)) server_A.

Definition server_tunnel_connected : ProxyServer :=
  after (serveRecvBackend_pkt (H:=quiet) "A" (Packet_DialResponse 0 55 ""))
        server_tunnel_dialed.

(** Authentication switched off, and the metadata of a stream of agent
    ["A"] without a token. *)
Definition no_authentication : AgentTokenAuthenticationOptions :=
  mkAuthOptions false "" "" "".

Definition metadata_A : Metadata := mkMetadata ["A"] [].

(** Authentication of the agents of service account
    [kube-system/konnectivity-agent], and an identity service that knows
    the token ["abc"] of that account only. *)
Definition agent_authentication : AgentTokenAuthenticationOptions :=
  mkAuthOptions true "kube-system" "konnectivity-agent"
    "system:konnectivity-server".

Definition sample_TokenReviews (token audience : string)
  : option TokenReviewStatus :=
  if decide (token = "abc")
  then Some (mkStatus ""
               true "system:serviceaccount:kube-system:konnectivity-agent")
  else None.

(** * Handlers that run side by side *)

(** ** The records in the states of the interleaved system *)

(** Every record has the transport of its mode, and the latch of a record
    in the pending-dial table is open. *)
Record records_inv (s : ProxyServer) : Prop := mkRecordsInv {
  rec_transport : ∀ p c, heap s !! p = Some c → transport_ok c;
  rec_pending_open :
    ∀ r p c, pendingDial s !! r = Some p → heap s !! p = Some c →
             connected c = false
}.

(** One of the handlers [hs], in its [DIAL_RSP] case, holds the record
    [p]: [PendingDial.Get] has returned it to the handler. *)
Definition held (hs : list Interleaved.handler) (p : nat) : Prop :=
  ∃ h, h ∈ hs ∧ Interleaved.h_frontend h = p.

(** One of the handlers [hs] has put the record [p] in the registry and
    has not yet closed its latch. *)
Definition closing (hs : list Interleaved.handler) (p : nat) : Prop :=
  ∃ h, h ∈ hs ∧ Interleaved.h_frontend h = p ∧
       Interleaved.h_pc h = Interleaved.Closing.

(** The record [p] is in neither table, its latch is open, and no handler
    holds it. *)
Definition dropped (sys : Interleaved.system) (p : nat) : Prop :=
  abandoned (Interleaved.server sys) p ∧
  ¬ in_registry (Interleaved.server sys) p ∧
  ¬ held (Interleaved.handlers sys) p.


(** ** Packets as they arrive *)

(** A [*client.Packet] as a stream delivers it: the [Type] and the oneof
    [Payload], which can be unset or of another kind than [Type] says.
    The kinds of payload are the constructors of [Packet]; the packet
    [pkt] of the handlers above is the one whose payload is of the kind
    of its type. *)
Record WirePacket : Type := mkWire {
  wire_Type : PacketType;
  wire_Payload : option Packet
}.

Definition wire (pkt : Packet) : WirePacket :=
  mkWire (Type_ pkt) (Some pkt).

(** The payload of [w] is unset or of another kind than its type: the
    getter for the payload of the type returns nil. *)
Definition payload_missing (w : WirePacket) : Prop :=
  ∀ pkt, wire_Payload w = Some pkt → Type_ pkt ≠ wire_Type w.

Section WireHandlers.
Context `{Environment}.

(** One iteration of the loop of [serveRecvFrontend].  The handler
    switches on [pkt.Type] and reads the fields through
    [pkt.GetDialRequest()], [pkt.GetCloseRequest()] and [pkt.GetData()],
    which return nil when the payload is of another kind.  In the
    [DIAL_REQ] case the backend is asked for first, and the payload is
    read only when there is one. *)
Definition serveRecvFrontend_wire_pkt (stream : Stream) (w : WirePacket)
    (v : frontendVars) : M frontendVars :=
  match wire_Type w with
  | DIAL_REQ =>
      match wire_Payload w with
      | Some (Packet_DialRequest protocol address random) =>
          serveRecvFrontend_pkt stream
            (Packet_DialRequest protocol address random) v
      | _ =>
          s ← get;
          '(be, err) ← lift (BackendManager_Backend (manager s) None
                               (Intn (trace s)) (storage s));
          match err with
          | Some _ => mret (mkVars (firstConnID v) be)
          | None => fault NilDereference
          end
      end
  | CLOSE_REQ =>
      match wire_Payload w with
      | Some (Packet_CloseRequest connID) =>
          serveRecvFrontend_pkt stream (Packet_CloseRequest connID) v
      | _ => fault NilDereference
      end
  | DATA =>
      match wire_Payload w with
      | Some (Packet_Data connID data) =>
          serveRecvFrontend_pkt stream (Packet_Data connID data) v
      | _ => fault NilDereference
      end
  | _ => mret v
  end.

Fixpoint serveRecvFrontend_wire_loop (stream : Stream)
    (recvCh : list WirePacket) (v : frontendVars) : M frontendVars :=
  match recvCh with
  | [] => mret v
  | w :: rest =>
      v' ← serveRecvFrontend_wire_pkt stream w v;
      serveRecvFrontend_wire_loop stream rest v'
  end.

Definition serveRecvFrontend_wire (stream : Stream)
    (recvCh : list WirePacket) : M unit :=
  v ← serveRecvFrontend_wire_loop stream recvCh (mkVars 0 None);
  serveRecvFrontend_close v.

(** One iteration of the loop of [serveRecvBackend]: each of the three
    cases reads a field of [pkt.GetDialResponse()], [pkt.GetData()] or
    [pkt.GetCloseResponse()] first, for its log line. *)
Definition serveRecvBackend_wire_pkt (agentID : string) (w : WirePacket)
  : M unit :=
  match wire_Type w with
  | DIAL_RSP =>
      match wire_Payload w with
      | Some (Packet_DialResponse random connID err) =>
          serveRecvBackend_pkt agentID (Packet_DialResponse random connID err)
      | _ => fault NilDereference
      end
  | DATA =>
      match wire_Payload w with
      | Some (Packet_Data connID data) =>
          serveRecvBackend_pkt agentID (Packet_Data connID data)
      | _ => fault NilDereference
      end
  | CLOSE_RSP =>
      match wire_Payload w with
      | Some (Packet_CloseResponse connID) =>
          serveRecvBackend_pkt agentID (Packet_CloseResponse connID)
      | _ => fault NilDereference
      end
  | _ => mret tt
  end.

Fixpoint serveRecvBackend_wire_loop (agentID : string)
    (recvCh : list WirePacket) : M unit :=
  match recvCh with
  | [] => mret tt
  | w :: rest =>
      serveRecvBackend_wire_pkt agentID w;;
      serveRecvBackend_wire_loop agentID rest
  end.

Definition serveRecvBackend_wire (b : Backend) (agentID : string)
    (recvCh : list WirePacket) : M unit :=
  serveRecvBackend_wire_loop agentID recvCh;;
  serveRecvBackend_cleanup agentID b.

(** ** The chunks that a tunnel sends *)

(** The [DATA] packets for the chunks [l] on connection [connID], as
    calls to [b]. *)
Definition data_calls (b : backend) (connID : Z) (l : list bytes)
  : list Event :=
  (λ d, EvBackendSend b (Packet_Data connID d)) <$> l.

(** From the history [t], the first [n] chunks of [reads] are sent and no
    more: every send but the last succeeds, and when chunks are left over
    the last send fails. *)
Definition sent_until_failure (b : backend) (connID : Z)
    (reads : list bytes) (t : list Event) (n : nat) : Prop :=
  n ≤ length reads ∧
  (∀ i d, S i < n → reads !! i = Some d →
          io (t ++ data_calls b connID (take i reads))
             (EvBackendSend b (Packet_Data connID d)) = None) ∧
  (n < length reads →
   0 < n ∧
   ∃ d, reads !! (n - 1) = Some d ∧
        is_Some (io (t ++ data_calls b connID (take (n - 1) reads))
                    (EvBackendSend b (Packet_Data connID d)))).

End WireHandlers.

(** ** Two handlers that answer one nonce *)


(** The handler of a stream of ["A"] and the handler of a stream of
    ["B"], each with a [DIAL_RSP] for nonce 7 without error. *)
Definition handler_A (q : Interleaved.pc) : Interleaved.handler :=
  Interleaved.mkHandler "A" 7 101 "" 0 q.










(** [server_dialed] after the stream of agent ["A"] has been removed from
    the storage. *)
Definition server_A_gone : ProxyServer :=
  set_storage (λ st, match RemoveBackend "A" 7 st with
                     | Done st' => st'
                     | Panic _ => st
                     end) server_dialed.


(** * Theorems *)

(** ** The backend storage *)

Lemma GetBackend_empty agentID s :
  backends s = ∅ → GetBackend agentID s = Done None.
Proof.
  intros He. unfold GetBackend. rewrite He, map_size_empty.
  by rewrite decide_True.
Qed.

Lemma GetBackend_registered agentID s b l :
  backends s !! agentID = Some (b :: l) →
  GetBackend agentID s = Done (Some b).
Proof.
  intros Hl. unfold GetBackend, backends_at.
  rewrite decide_False.
  - by rewrite Hl.
  - intros Hz. apply map_size_empty_inv in Hz. rewrite Hz in Hl.
    by rewrite lookup_empty in Hl.
Qed.

Lemma GetBackend_unregistered agentID s :
  backends s ≠ ∅ → backends s !! agentID = None →
  GetBackend agentID s = Panic IndexOutOfRange.
Proof.
  intros Hne Hl. unfold GetBackend, backends_at.
  rewrite decide_False.
  - by rewrite Hl.
  - intros Hz. by apply map_size_empty_inv in Hz.
Qed.

Lemma RemoveBackend_range_no_match c k : ∀ i arr len found,
  Forall (λ v, conn v ≠ c) (drop i arr) →
  RemoveBackend_range c (seq i k) arr len found = Done (arr, len, found).
Proof.
  induction k as [|k IH]; intros i arr len found Hall; simpl; [done|].
  destruct (arr !! i) as [v|] eqn:Hv; [|done].
  rewrite (drop_S _ _ _ Hv) in Hall. apply Forall_cons in Hall as [Hc Hall].
  rewrite decide_False by done. by apply IH.
Qed.

Lemma conn_later_ne (l : list backend) i v :
  NoDup (conn <$> l) → l !! i = Some v →
  Forall (λ w, conn w ≠ conn v) (drop (S i) l).
Proof.
  intros Hnd Hv. apply Forall_forall. intros w Hw He.
  apply list_elem_of_lookup in Hw as [j Hj]. rewrite lookup_drop in Hj.
  assert ((conn <$> l) !! i = Some (conn v)) as H1
    by (by rewrite list_lookup_fmap, Hv).
  assert ((conn <$> l) !! (S i + j) = Some (conn v)) as H2
    by (by rewrite list_lookup_fmap, Hj; simpl; rewrite He).
  pose proof (NoDup_lookup _ _ _ _ Hnd H1 H2). lia.
Qed.

Lemma RemoveBackend_range_from (l : list backend) c k : ∀ i,
  NoDup (conn <$> l) → i + k = length l →
  (∀ j v, j < i → l !! j = Some v → conn v ≠ c) →
  RemoveBackend_range c (seq i k) l (length l) false =
  match list_find (λ v, conn v = c) l with
  | Some (j, _) =>
      Done (take j l ++ drop (S j) l ++ drop (length l - 1) l,
            length l - 1, true)
  | None => Done (l, length l, false)
  end.
Proof.
  induction k as [|k IH]; intros i Hnd Hik Hbefore; simpl.
  - assert (list_find (λ v, conn v = c) l = None) as ->; [|done].
    apply list_find_None, Forall_forall. intros v Hv.
    apply list_elem_of_lookup in Hv as [j Hj].
    apply (Hbefore j); [|done]. apply lookup_lt_Some in Hj. lia.
  - destruct (l !! i) as [v|] eqn:Hv.
    2:{ apply lookup_ge_None in Hv. lia. }
    destruct (decide (conn v = c)) as [Hc|Hc].
    + assert (list_find (λ v, conn v = c) l = Some (i, v)) as ->.
      { apply list_find_Some. split_and!; [done..|].
        intros j y Hj Hlt. by apply (Hbefore j). }
      unfold remove_at. rewrite decide_True by lia. simpl.
      rewrite (take_ge (drop (i + 1) l)) by (rewrite length_drop; lia).
      replace (i + 1) with (S i) by lia.
      apply RemoveBackend_range_no_match.
      rewrite drop_app_ge by (rewrite length_take; lia).
      rewrite length_take.
      replace (S i - i `min` length l) with 1 by lia.
      pose proof (conn_later_ne l i v Hnd Hv) as Hlater.
      rewrite Hc in Hlater.
      destruct (decide (S i ≤ length l - 1)) as [Hle|Hgt].
      * apply Forall_drop, Forall_app. split; [done|].
        replace (length l - 1) with (S i + (length l - 1 - S i)) by lia.
        rewrite <- drop_drop. by apply Forall_drop.
      * replace (length l - 1) with i by lia.
        rewrite (drop_S _ _ _ Hv), (drop_ge l (S i)) by lia.
        simpl. constructor.
    + apply IH; [done|lia|].
      intros j w Hj Hw. destruct (decide (j = i)) as [->|]; [congruence|].
      apply (Hbefore j); [lia|done].
Qed.

Lemma RemoveBackend_range_spec (l : list backend) c :
  NoDup (conn <$> l) →
  RemoveBackend_range c (seq 0 (length l)) l (length l) false =
  match list_find (λ v, conn v = c) l with
  | Some (j, _) =>
      Done (take j l ++ drop (S j) l ++ drop (length l - 1) l,
            length l - 1, true)
  | None => Done (l, length l, false)
  end.
Proof.
  intros Hnd. apply RemoveBackend_range_from; [done|lia|]. intros; lia.
Qed.

(** Removing index [j] from a list of handles on different streams removes
    exactly the stream of that handle. *)
Lemma conns_without (l : list backend) j v :
  NoDup (conn <$> l) → l !! j = Some v →
  NoDup (conn <$> (take j l ++ drop (S j) l)) ∧
  ∀ c, c ∈ conn <$> (take j l ++ drop (S j) l) ↔
       c ∈ conn <$> l ∧ c ≠ conn v.
Proof.
  intros Hnd Hv.
  pose proof (take_drop_middle l j v Hv) as Heq.
  remember (take j l) as l1 eqn:E1. remember (drop (S j) l) as l2 eqn:E2.
  clear E1 E2 Hv. subst l.
  rewrite !fmap_app in *. rewrite fmap_cons in *.
  apply NoDup_app in Hnd as (Hn1 & Hn2 & Hn3).
  apply NoDup_cons in Hn3 as [Hn3 Hn4].
  split.
  - apply NoDup_app. split_and!; [done| |done].
    intros x Hx Hx'. apply (Hn2 x Hx). by right.
  - intros c. rewrite !elem_of_app, elem_of_cons. split.
    + intros [Hc|Hc]; (split; [tauto|]); intros ->.
      * apply (Hn2 _ Hc). by left.
      * done.
    + intros [[Hc|[Hc|Hc]] Hne]; tauto.
Qed.

Lemma remove_agentID_absent a ids :
  a ∉ ids → remove_agentID a ids = ids.
Proof.
  intros Ha. unfold remove_agentID.
  destruct (list_find (λ x, x = a) ids) as [[i x]|] eqn:Hf; [|done].
  apply list_find_Some in Hf as (Hi & -> & _).
  exfalso. apply Ha. apply list_elem_of_lookup. eauto.
Qed.

Lemma remove_agentID_perm a ids :
  a ∈ ids → ids ≡ₚ a :: remove_agentID a ids.
Proof.
  intros Ha. unfold remove_agentID.
  destruct (list_find (λ x, x = a) ids) as [[i x]|] eqn:Hf.
  2:{ apply list_find_None in Hf. rewrite Forall_forall in Hf.
      by destruct (Hf a Ha). }
  apply list_find_Some in Hf as (Hi & -> & _).
  destruct (last ids) as [z|] eqn:Hlast.
  2:{ apply last_None in Hlast. subst. by rewrite lookup_nil in Hi. }
  apply last_Some in Hlast as [ids' ->].
  rewrite length_app. simpl.
  replace (length ids' + 1 - 1) with (length ids') by lia.
  destruct (decide (i < length ids')) as [Hlt|Hge].
  - rewrite insert_app_l by done.
    rewrite take_app_length' by (by rewrite length_insert).
    rewrite lookup_app_l in Hi by done.
    rewrite <- (take_drop_middle ids' i a Hi) at 1.
    rewrite insert_take_drop by done.
    solve_Permutation.
  - pose proof (lookup_lt_Some _ _ _ Hi) as Hb. rewrite length_app in Hb.
    simpl in Hb. assert (i = length ids') as -> by lia.
    rewrite list_lookup_middle in Hi by done. injection Hi as ->.
    rewrite insert_app_r_alt by lia. rewrite Nat.sub_diag. simpl.
    rewrite take_app_length. by rewrite <- Permutation_cons_append.
Qed.

Lemma storage_inv_new : storage_inv NewDefaultBackendStorage.
Proof.
  split; simpl.
  - constructor.
  - intros a. rewrite lookup_empty. split; [by intros ?%elem_of_nil|].
    by intros [? ?].
  - intros a l. by rewrite lookup_empty.
  - intros a l. by rewrite lookup_empty.
Qed.

Lemma AddBackend_inv a c s :
  storage_inv s → storage_inv (AddBackend a c s).2.
Proof.
  intros [Hnd Hkeys Hne Hconns]. unfold AddBackend.
  destruct (backends s !! a) as [l|] eqn:Hl.
  - destruct (list_find (λ v, conn v = c) l) as [[i v]|] eqn:Hf; simpl.
    + by split.
    + assert (c ∉ conn <$> l) as Hc.
      { apply list_find_None in Hf. rewrite Forall_forall in Hf.
        intros (v & -> & Hv)%list_elem_of_fmap. by apply (Hf v). }
      split; simpl.
      * done.
      * intros a'. rewrite Hkeys. destruct (decide (a = a')) as [<-|Hne'].
        -- rewrite lookup_insert_eq, Hl. split; eauto.
        -- by rewrite lookup_insert_ne.
      * intros a' l'. destruct (decide (a = a')) as [<-|Hne'].
        -- rewrite lookup_insert_eq. intros [= <-]. by destruct l.
        -- rewrite lookup_insert_ne by done. apply Hne.
      * intros a' l'. destruct (decide (a = a')) as [<-|Hne'].
        -- rewrite lookup_insert_eq. intros [= <-].
           rewrite fmap_app. simpl. apply NoDup_app. split_and!.
           ++ by apply (Hconns a).
           ++ intros x Hx ->%list_elem_of_singleton. done.
           ++ apply NoDup_singleton.
        -- rewrite lookup_insert_ne by done. apply Hconns.
  - simpl. assert (a ∉ agentIDs s) as Ha.
    { rewrite Hkeys, Hl. by intros [? ?]. }
    split; simpl.
    + apply NoDup_app. split_and!; [done| |apply NoDup_singleton].
      intros x Hx ->%list_elem_of_singleton. done.
    + intros a'. rewrite elem_of_app, list_elem_of_singleton, Hkeys.
      destruct (decide (a = a')) as [<-|Hne'].
      * rewrite lookup_insert_eq. split; eauto.
      * rewrite lookup_insert_ne by done. split; [|tauto].
        intros [?| ->]; done.
    + intros a' l'. destruct (decide (a = a')) as [<-|Hne'].
      * rewrite lookup_insert_eq. by intros [= <-].
      * rewrite lookup_insert_ne by done. apply Hne.
    + intros a' l'. destruct (decide (a = a')) as [<-|Hne'].
      * rewrite lookup_insert_eq. intros [= <-]. apply NoDup_singleton.
      * rewrite lookup_insert_ne by done. apply Hconns.
Qed.

Lemma AddBackend_tracks a c s g :
  tracks g s → tracks ({[ (a, c) ]} ∪ g) (AddBackend a c s).2.
Proof.
  intros Ht a' c'. rewrite elem_of_union, elem_of_singleton, (Ht a' c').
  unfold AddBackend.
  destruct (backends s !! a) as [l|] eqn:Hl.
  - destruct (list_find (λ v, conn v = c) l) as [[i v]|] eqn:Hf; simpl.
    + split; [|tauto]. intros [[= -> ->]|Hold]; [|done].
      apply list_find_Some in Hf as (Hi & <- & _).
      exists l. split; [done|]. apply list_elem_of_fmap. exists v.
      split; [done|]. apply list_elem_of_lookup. eauto.
    + destruct (decide (a = a')) as [<-|Hne'].
      * rewrite lookup_insert_eq, Hl. split.
        -- intros [[= ->]|(l' & [= <-] & Hc)]; eexists; (split; [done|]);
             rewrite fmap_app, elem_of_app; simpl.
           ++ right. by apply list_elem_of_singleton.
           ++ by left.
        -- intros (l' & [= <-] & Hc).
           rewrite fmap_app, elem_of_app in Hc. simpl in Hc.
           destruct Hc as [Hc| ->%list_elem_of_singleton]; eauto.
      * rewrite lookup_insert_ne by done. split; [|tauto].
        intros [[= -> ->]|Hold]; done.
  - simpl. destruct (decide (a = a')) as [<-|Hne'].
    + rewrite lookup_insert_eq, Hl. split.
      * intros [[= ->]|(l' & [=] & _)]. eexists. split; [done|].
        simpl. by apply list_elem_of_singleton.
      * intros (l' & [= <-] & ->%list_elem_of_singleton). by left.
    + rewrite lookup_insert_ne by done. split; [|tauto].
      intros [[= -> ->]|Hold]; done.
Qed.

Lemma RemoveBackend_inv a c s g :
  storage_inv s → tracks g s →
  ∃ s', RemoveBackend a c s = Done s' ∧ storage_inv s' ∧
        tracks (g ∖ {[ (a, c) ]}) s'.
Proof.
  intros [Hnd Hkeys Hne Hconns] Ht. unfold RemoveBackend.
  destruct (backends s !! a) as [l|] eqn:Hl.
  2:{ exists s. split_and!; [done..|].
      intros a' c'. rewrite elem_of_difference, elem_of_singleton, (Ht a' c').
      split; [tauto|]. intros (l' & Hl' & Hc'). split; [eauto|].
      intros [= -> ->]. congruence. }
  rewrite (RemoveBackend_range_spec l c) by by apply (Hconns a).
  destruct (list_find (λ v, conn v = c) l) as [[j v]|] eqn:Hf; simpl.
  - apply list_find_Some in Hf as (Hj & Hv & _).
    pose proof (lookup_lt_Some _ _ _ Hj) as Hlt.
    rewrite lookup_insert_eq. simpl.
    rewrite app_assoc, take_app_length'
      by (rewrite length_app, length_take, length_drop; lia).
    destruct (conns_without l j v (Hconns a l Hl) Hj) as [Hnd' Hmem].
    rewrite Hv in Hmem.
    destruct (decide (length (take j l ++ drop (S j) l) = 0)) as [Hz|Hnz].
    + eexists. split; [done|]. rewrite delete_insert_eq.
      assert (a ∈ agentIDs s) as Ha by (rewrite Hkeys, Hl; eauto).
      pose proof (remove_agentID_perm a _ Ha) as Hperm.
      remember (remove_agentID a (agentIDs s)) as ids' eqn:E. clear E.
      rewrite Hperm in Hnd. apply NoDup_cons in Hnd as [Hnotin Hnd].
      split; [split; simpl|].
      * done.
      * intros a'. destruct (decide (a = a')) as [<-|Hne'].
        -- rewrite lookup_delete_eq. split; [done|]. by intros [? ?].
        -- rewrite lookup_delete_ne by done. rewrite <- Hkeys, Hperm.
           rewrite elem_of_cons. split; [tauto|]. intros [?|?]; congruence.
      * intros a' l'. rewrite lookup_delete_Some. intros [_ ?]. by eapply Hne.
      * intros a' l'. rewrite lookup_delete_Some. intros [_ ?].
        by eapply Hconns.
      * intros a' c'. simpl.
        rewrite elem_of_difference, elem_of_singleton, (Ht a' c').
        destruct (decide (a = a')) as [<-|Hne'].
        -- rewrite lookup_delete_eq. split; [|by intros (? & [=] & _)].
           intros [(l' & Hl' & Hc') Hneq]. exfalso.
           rewrite Hl in Hl'. injection Hl' as <-.
           assert (c' ∈ conn <$> (take j l ++ drop (S j) l)) as Hin.
           { apply Hmem. split; [done|]. congruence. }
           apply nil_length_inv in Hz. rewrite Hz in Hin.
           by apply elem_of_nil in Hin.
        -- rewrite lookup_delete_ne by done. split; [tauto|].
           intros Hex. split; [done|]. congruence.
    + eexists. split; [done|]. split; [split; simpl|].
      * done.
      * intros a'. rewrite Hkeys. destruct (decide (a = a')) as [<-|Hne'].
        -- rewrite lookup_insert_eq, Hl. split; eauto.
        -- by rewrite lookup_insert_ne.
      * intros a' l'. destruct (decide (a = a')) as [<-|Hne'].
        -- rewrite lookup_insert_eq. intros [= <-] Hnil.
           by rewrite Hnil in Hnz.
        -- rewrite lookup_insert_ne by done. apply Hne.
      * intros a' l'. destruct (decide (a = a')) as [<-|Hne'].
        -- rewrite lookup_insert_eq. by intros [= <-].
        -- rewrite lookup_insert_ne by done. apply Hconns.
      * intros a' c'. simpl.
        rewrite elem_of_difference, elem_of_singleton, (Ht a' c').
        destruct (decide (a = a')) as [<-|Hne'].
        -- rewrite lookup_insert_eq, Hl. split.
           ++ intros [(l' & [= <-] & Hc') Hneq]. eexists. split; [done|].
              apply Hmem. split; [done|]. congruence.
           ++ intros (l' & [= <-] & Hc'). apply Hmem in Hc' as [Hc' Hneq].
              split; [eauto|]. congruence.
        -- rewrite lookup_insert_ne by done. split; [tauto|].
           intros Hex. split; [done|]. congruence.
  - rewrite Hl. simpl. rewrite decide_False.
    2:{ intros Hz. apply nil_length_inv in Hz. by apply (Hne a l). }
    eexists. split; [done|]. split; [by split|].
    intros a' c'. simpl.
    rewrite elem_of_difference, elem_of_singleton, (Ht a' c').
    split; [tauto|]. intros (l' & Hl' & Hc'). split; [eauto|].
    intros [= -> ->]. rewrite Hl in Hl'. injection Hl' as <-.
    apply list_find_None in Hf. rewrite Forall_forall in Hf.
    apply list_elem_of_fmap in Hc' as (v & -> & Hv). by apply (Hf v).
Qed.

Lemma tracks_new : tracks ∅ NewDefaultBackendStorage.
Proof.
  intros a c. simpl. rewrite lookup_empty. split; [set_solver|].
  by intros (? & [=] & _).
Qed.

Lemma run_ops_inv ops : ∀ s g,
  storage_inv s → tracks g s →
  ∃ s', run_ops ops s = Done s' ∧ storage_inv s' ∧
        tracks (registered ops g) s'.
Proof.
  induction ops as [|[a c|a c] ops IH]; intros s g Hinv Ht; simpl.
  - eauto.
  - apply IH; [by apply AddBackend_inv | by apply AddBackend_tracks].
  - destruct (RemoveBackend_inv a c s g Hinv Ht) as (s' & -> & Hinv' & Ht').
    simpl. by apply IH.
Qed.

Lemma tracked_agents g s :
  storage_inv s → tracks g s → dom (backends s) = registered_agents g.
Proof.
  intros [_ _ Hne _] Ht. apply set_eq. intros a.
  unfold registered_agents. rewrite elem_of_dom, elem_of_map. split.
  - intros [l Hl]. destruct l as [|v l]; [by destruct (Hne a [] Hl)|].
    exists (a, conn v). split; [done|]. apply Ht. exists (v :: l).
    split; [done|]. simpl. by left.
  - intros ([a' c] & -> & Hin). apply Ht in Hin as (l & Hl & _). eauto.
Qed.

Lemma agentIDs_length s :
  storage_inv s → length (agentIDs s) = NumBackends s.
Proof.
  intros [Hnd Hkeys _ _]. unfold NumBackends.
  rewrite <- size_dom. unfold size, set_size. simpl.
  apply Permutation_length, NoDup_Permutation; [done|apply NoDup_elements|].
  intros a. by rewrite elem_of_elements, elem_of_dom, Hkeys.
Qed.

(** C5.  After any sequence of [AddBackend] and [RemoveBackend] calls on a
    new storage, no call having faulted, [NumBackends] is the number of
    distinct agents that have a stream registered and not removed, the
    [agentIDs] slice holds exactly the keys of the [backends] map, each
    once, and every key of the map has a non-empty list of handles. *)
Theorem NumBackends_counts_registered_agents (ops : list storageOp) :
  ∃ s, run_ops ops NewDefaultBackendStorage = Done s ∧
       NumBackends s = size (registered_agents (registered ops ∅)) ∧
       length (agentIDs s) = NumBackends s ∧
       NoDup (agentIDs s) ∧
       (∀ a, a ∈ agentIDs s ↔ a ∈ dom (backends s)) ∧
       (∀ a l, backends s !! a = Some l → l ≠ []).
Proof.
  destruct (run_ops_inv ops _ _ storage_inv_new tracks_new)
    as (s & Hrun & Hinv & Ht).
  exists s. split; [done|]. split_and!.
  - unfold NumBackends. rewrite <- size_dom.
    by rewrite (tracked_agents _ _ Hinv Ht).
  - by apply agentIDs_length.
  - by destruct Hinv.
  - intros a. rewrite elem_of_dom. by destruct Hinv.
  - by destruct Hinv.
Qed.

(** C1.  With agent ["A"] registered and no agent ["B"], [GetBackend "B"]
    faults with an index out of range, and so does [Backend] of the
    destination manager for a context that names ["B"]: neither returns. *)
Theorem GetBackend_unregistered_faults :
  backends storage_A !! "B" = None ∧
  GetBackend "B" storage_A = Panic IndexOutOfRange ∧
  DestIPBackendManager_Backend (Some (VString "B")) storage_A
    = Panic IndexOutOfRange.
Proof. vm_compute. done. Qed.

(** What [GetBackend] does return: nothing on an empty storage, and the
    handle at index 0 for a registered agent. *)
Lemma DestIPBackendManager_Backend_empty agentID s :
  backends s = ∅ →
  DestIPBackendManager_Backend (Some (VString agentID)) s
    = Done (None, Some ErrNotFound).
Proof.
  intros He. unfold DestIPBackendManager_Backend.
  by rewrite (GetBackend_empty _ _ He).
Qed.

Lemma GetBackend_inv agentID s :
  storage_inv s → is_Some (backends s !! agentID) →
  ∃ b, GetBackend agentID s = Done (Some b) ∧
       backends_at s agentID !! 0 = Some b.
Proof.
  intros Hinv [l Hl]. destruct l as [|b l].
  - by destruct (inv_nonempty _ Hinv _ _ Hl).
  - exists b. split; [by eapply GetBackend_registered|].
    unfold backends_at. by rewrite Hl.
Qed.

(** ** The send adapter of a frontend record *)

Section Adapter.
Context `{Environment}.

(** C6.  In http-connect mode, on a record with socket [h]: a [DATA]
    packet makes one [Write] of exactly its payload on [h]; a [CLOSE_RSP]
    makes one [Close] of [h]; a [DIAL_RSP] with an error makes one
    [Close] of [h]; a [DIAL_RSP] without error makes no call and returns
    nil; every other packet makes no call and returns the
    unrecognized-type error.  On a record whose mode is neither grpc nor
    http-connect every packet makes no call and returns the
    unrecognized-mode error. *)
Theorem send_http_connect_and_unknown_mode
    (c : ProxyClientConnection) (pkt : Packet) (s : ProxyServer) :
  (∀ h, Mode c = "http-connect" → HTTP c = Some h →
     match pkt with
     | Packet_Data _ data => performs (send c pkt) (EvHTTPWrite h data) s
     | Packet_CloseResponse _ => performs (send c pkt) (EvHTTPClose h) s
     | Packet_DialResponse _ _ err =>
         if decide (err = "") then send c pkt s = Done (None, s)
         else performs (send c pkt) (EvHTTPClose h) s
     | _ => send c pkt s = Done (Some (ErrUnrecognizedType (Type_ pkt)), s)
     end) ∧
  (Mode c ≠ "grpc" → Mode c ≠ "http-connect" →
     send c pkt s = Done (Some (ErrUnrecognizedMode (Mode c)), s)).
Proof.
  split.
  - intros h Hm Hh. unfold performs, send. rewrite Hm, Hh.
    rewrite decide_False by done. rewrite decide_True by done.
    destruct pkt as [? ? ?|? ? err| | |]; try done.
    destruct (decide (err = "")) as [->|Hne].
    + by rewrite decide_False by (by intros ?).
    + by rewrite decide_True.
  - intros Hg Hh. unfold send. by rewrite !decide_False.
Qed.

End Adapter.

(** The theorem at a record in http-connect mode on socket 3 and a
    [DATA] packet, and at a record in an unknown mode. *)
Lemma send_http_connect_and_unknown_mode_witness :
  performs (H:=quiet)
    (send (H:=quiet) (mkPCC "http-connect" None (Some 3) false 0 "" None)
          (Packet_Data 101 [Byte.x68; Byte.x69]))
    (EvHTTPWrite 3 [Byte.x68; Byte.x69]) server_A ∧
  send (H:=quiet) (mkPCC "udp" None None false 0 "" None)
       (Packet_CloseResponse 101) server_A
    = Done (Some (ErrUnrecognizedMode "udp"), server_A).
Proof.
  split.
  - exact (proj1 (send_http_connect_and_unknown_mode (H:=quiet)
                    (mkPCC "http-connect" None (Some 3) false 0 "" None)
                    (Packet_Data 101 [Byte.x68; Byte.x69]) server_A)
                 3 eq_refl eq_refl).
  - apply (proj2 (send_http_connect_and_unknown_mode (H:=quiet)
                    (mkPCC "udp" None None false 0 "" None)
                    (Packet_CloseResponse 101) server_A)); simpl; done.
Defined.

(** ** The frontend stream handler *)

(** Unfolding of the monad and of the primitive operations. *)
Ltac munfold :=
  unfold assign_ids, close_connected, Backend_Send, PendingDial_Add,
    PendingDial_Get, PendingDial_Remove, addFrontend, removeFrontend,
    getFrontend, mbind, M_bind, mret, M_ret, get, modify, fault, lift, call,
    new, deref in *;
  simpl in *.

Section Frontend.
Context `{Environment}.

Lemma serveRecvFrontend_loop_cons stream pkt rest v s :
  serveRecvFrontend_loop stream (pkt :: rest) v s =
  match serveRecvFrontend_pkt stream pkt v s with
  | Done (v', s') => serveRecvFrontend_loop stream rest v' s'
  | Panic p => Panic p
  end.
Proof. done. Qed.

(** C7.  When the backend manager returns an error for a [DIAL_REQ] on a
    gRPC frontend stream (no backend available, in particular), the
    iteration leaves the server state as it was: the pending-dial table
    gets no record and the trace no call, so nothing is sent to a backend
    and no [DIAL_RSP] goes to the frontend; and the loop goes on with the
    packets that follow. *)
Theorem dial_request_dropped_without_backend
    (stream : Stream) (protocol address : string) (random : Z)
    (v : frontendVars) (s : ProxyServer) (be : Backend) (err : error) :
  BackendManager_Backend (manager s) None (Intn (trace s)) (storage s)
    = Done (be, Some err) →
  serveRecvFrontend_pkt stream (Packet_DialRequest protocol address random)
    v s = Done (mkVars (firstConnID v) be, s) ∧
  ∀ rest,
    serveRecvFrontend_loop stream
      (Packet_DialRequest protocol address random :: rest) v s
    = serveRecvFrontend_loop stream rest (mkVars (firstConnID v) be) s.
Proof.
  intros Hsel.
  assert (serveRecvFrontend_pkt stream
            (Packet_DialRequest protocol address random) v s
          = Done (mkVars (firstConnID v) be, s)) as Hpkt.
  { unfold serveRecvFrontend_pkt. munfold. by rewrite Hsel. }
  split; [done|]. intros rest.
  by rewrite serveRecvFrontend_loop_cons, Hpkt.
Qed.

(** The variables after one iteration. *)
Lemma serveRecvFrontend_pkt_firstConnID stream pkt v s v' s' :
  serveRecvFrontend_pkt stream pkt v s = Done (v', s') →
  firstConnID v' =
    match pkt with
    | Packet_Data connID _ =>
        if decide (firstConnID v = 0%Z) then connID else firstConnID v
    | _ => firstConnID v
    end.
Proof.
  unfold serveRecvFrontend_pkt. intros Hrun.
  destruct pkt as [p a r| | | |connID data]; munfold.
  - destruct (BackendManager_Backend _ _ _ _) as [[be [e|]]|]; [| |done].
    + by injection Hrun as <- <-.
    + destruct be; [|done]. by injection Hrun as <- <-.
  - by injection Hrun as <- <-.
  - destruct (cur_backend v); by injection Hrun as <- <-.
  - by injection Hrun as <- <-.
  - destruct (decide (firstConnID v = 0%Z));
      simpl in *; destruct (cur_backend v); by injection Hrun as <- <-.
Qed.

Lemma serveRecvFrontend_pkt_backend stream pkt v s v' s' :
  Type_ pkt ≠ DIAL_REQ →
  serveRecvFrontend_pkt stream pkt v s = Done (v', s') →
  cur_backend v' = cur_backend v.
Proof.
  unfold serveRecvFrontend_pkt. intros Hty Hrun.
  destruct pkt as [p a r| | | |connID data]; munfold.
  - done.
  - by injection Hrun as <- <-.
  - destruct (cur_backend v) eqn:E; injection Hrun as <- <-; by rewrite E.
  - by injection Hrun as <- <-.
  - destruct (decide (firstConnID v = 0%Z));
      simpl in *; destruct (cur_backend v) eqn:E;
      injection Hrun as <- <-; simpl; by rewrite ?E.
Qed.

Lemma first_nonzero_connID_cons pkt rest :
  first_nonzero_connID (pkt :: rest) =
    match pkt with
    | Packet_Data connID _ =>
        if decide (connID = 0%Z) then first_nonzero_connID rest else connID
    | _ => first_nonzero_connID rest
    end.
Proof.
  unfold first_nonzero_connID, data_connIDs.
  destruct pkt as [| | | |connID data]; simpl; try done.
  rewrite filter_cons. destruct (decide (connID = 0%Z)) as [->|Hne].
  - by rewrite decide_False by (by intros ?).
  - by rewrite decide_True.
Qed.

Lemma serveRecvFrontend_loop_firstConnID stream recvCh : ∀ v s v' s',
  serveRecvFrontend_loop stream recvCh v s = Done (v', s') →
  firstConnID v' =
    if decide (firstConnID v = 0%Z) then first_nonzero_connID recvCh
    else firstConnID v.
Proof.
  induction recvCh as [|pkt rest IH]; intros v s v' s' Hrun.
  - simpl in Hrun. munfold. injection Hrun as <- <-.
    by destruct (decide _).
  - rewrite serveRecvFrontend_loop_cons in Hrun.
    destruct (serveRecvFrontend_pkt stream pkt v s) as [[v1 s1]|] eqn:Hpkt;
      [|done].
    apply serveRecvFrontend_pkt_firstConnID in Hpkt.
    rewrite (IH _ _ _ _ Hrun), Hpkt, first_nonzero_connID_cons.
    destruct pkt as [| | | |connID data]; try done.
    repeat case_decide; congruence.
Qed.

Lemma serveRecvFrontend_loop_backend stream recvCh : ∀ v s v' s',
  Forall (λ pkt, Type_ pkt ≠ DIAL_REQ) recvCh →
  serveRecvFrontend_loop stream recvCh v s = Done (v', s') →
  cur_backend v' = cur_backend v.
Proof.
  induction recvCh as [|pkt rest IH]; intros v s v' s' Hall Hrun.
  - simpl in Hrun. munfold. by injection Hrun as <- <-.
  - rewrite serveRecvFrontend_loop_cons in Hrun.
    apply Forall_cons in Hall as [Hty Hall].
    destruct (serveRecvFrontend_pkt stream pkt v s) as [[v1 s1]|] eqn:Hpkt;
      [|done].
    rewrite (IH _ _ _ _ Hall Hrun).
    by eapply serveRecvFrontend_pkt_backend.
Qed.

Lemma serveRecvFrontend_loop_app stream pre post : ∀ v s,
  serveRecvFrontend_loop stream (pre ++ post) v s =
  match serveRecvFrontend_loop stream pre v s with
  | Done (v', s') => serveRecvFrontend_loop stream post v' s'
  | Panic p => Panic p
  end.
Proof.
  induction pre as [|pkt pre IH]; intros v s; [done|].
  rewrite <- app_comm_cons, !serveRecvFrontend_loop_cons.
  destruct (serveRecvFrontend_pkt stream pkt v s) as [[v1 s1]|]; [|done].
  apply IH.
Qed.

(** A [DIAL_REQ] for which the manager returns a backend leaves that
    backend in the handler's variable. *)
Lemma serveRecvFrontend_pkt_dial stream p a r v s v' s' b :
  BackendManager_Backend (manager s) None (Intn (trace s)) (storage s)
    = Done (Some b, None) →
  serveRecvFrontend_pkt stream (Packet_DialRequest p a r) v s
    = Done (v', s') →
  cur_backend v' = Some b.
Proof.
  intros Hsel. unfold serveRecvFrontend_pkt. munfold. rewrite Hsel.
  by intros [= <- <-].
Qed.

(** C8, as amended.  When the packet channel of a gRPC frontend stream
    closes and the handler's backend variable holds a backend, which it
    does when the most recent [DIAL_REQ] of the stream obtained one, the
    handler sends that backend exactly one more packet: a [CLOSE_REQ]
    carrying the first identifier other than 0 observed in the [DATA]
    packets of the stream, or 0 when there was none.  When the variable is
    nil, which it is when the stream had no [DIAL_REQ], nothing is sent. *)
Theorem close_request_at_stream_end
    (stream : Stream) (recvCh : list Packet) (s s1 : ProxyServer)
    (v : frontendVars) :
  serveRecvFrontend_loop stream recvCh (mkVars 0 None) s = Done (v, s1) →
  firstConnID v = first_nonzero_connID recvCh ∧
  match cur_backend v with
  | Some b =>
      serveRecvFrontend stream recvCh s =
        Done (tt, set_trace
                    (λ t, t ++ [EvBackendSend b
                                  (Packet_CloseRequest
                                     (first_nonzero_connID recvCh))]) s1)
  | None => serveRecvFrontend stream recvCh s = Done (tt, s1)
  end ∧
  (Forall (λ pkt, Type_ pkt ≠ DIAL_REQ) recvCh → cur_backend v = None) ∧
  (∀ pre p a r post v0 s0 b,
     recvCh = pre ++ Packet_DialRequest p a r :: post →
     Forall (λ pkt, Type_ pkt ≠ DIAL_REQ) post →
     serveRecvFrontend_loop stream pre (mkVars 0 None) s = Done (v0, s0) →
     BackendManager_Backend (manager s0) None (Intn (trace s0)) (storage s0)
       = Done (Some b, None) →
     cur_backend v = Some b).
Proof.
  intros Hloop.
  pose proof (serveRecvFrontend_loop_firstConnID _ _ _ _ _ _ Hloop) as Hfirst.
  simpl in Hfirst. split_and!.
  - done.
  - unfold serveRecvFrontend, serveRecvFrontend_close. munfold.
    rewrite Hloop. destruct (cur_backend v); by rewrite <- ?Hfirst.
  - intros Hall.
    by rewrite (serveRecvFrontend_loop_backend _ _ _ _ _ _ Hall Hloop).
  - intros pre p a r post v0 s0 b -> Hall Hpre Hsel.
    rewrite serveRecvFrontend_loop_app, Hpre in Hloop.
    rewrite serveRecvFrontend_loop_cons in Hloop.
    destruct (serveRecvFrontend_pkt stream (Packet_DialRequest p a r) v0 s0)
      as [[v1 s2]|] eqn:Hpkt; [|done].
    rewrite (serveRecvFrontend_loop_backend _ _ _ _ _ _ Hall Hloop).
    by eapply serveRecvFrontend_pkt_dial.
Qed.

End Frontend.

(** The theorem on a server to which no agent is connected. *)
Lemma dial_request_dropped_without_backend_witness :
  serveRecvFrontend_pkt (H:=quiet) 1 (Packet_DialRequest "tcp" "10.0.0.1:80" 7)
    (mkVars 0 None) (NewProxyServer DefaultBackendManager "default")
  = Done (mkVars 0 None, NewProxyServer DefaultBackendManager "default").
Proof.
  apply (dial_request_dropped_without_backend (H:=quiet) 1 "tcp"
           "10.0.0.1:80" 7 (mkVars 0 None)
           (NewProxyServer DefaultBackendManager "default") None ErrNotFound).
  reflexivity.
Defined.

(** The stream [stream_0_5] on a server with agent ["A"]: the [CLOSE_REQ]
    carries 5 while the first identifier observed is 0. *)
Lemma close_request_not_first_observed :
  ¬ closes_first_observed (H:=quiet) 1 stream_0_5 server_A.
Proof.
  intros Hstated.
  assert (∃ s1, serveRecvFrontend_loop (H:=quiet) 1 stream_0_5
                  (mkVars 0 None) server_A
                = Done (mkVars 5 (Some backend_A), s1)) as [s1 Hs1]
    by (vm_compute; eauto).
  destruct (Hstated _ s1 backend_A Hs1 eq_refl) as (connID & Hobs & Hclose).
  vm_compute in Hobs. injection Hobs as <-.
  unfold serveRecvFrontend_close in Hclose. munfold.
  injection Hclose as Hclose. apply app_inv_head in Hclose. discriminate.
Qed.

(** The amended statement on the same stream: the handler ends by sending
    [CLOSE_REQ] for connection 5 to the backend of agent ["A"]. *)
Lemma close_request_at_stream_end_witness :
  serveRecvFrontend (H:=quiet) 1 stream_0_5 server_A =
    Done (tt, set_trace
                (λ t, t ++ [EvBackendSend backend_A (Packet_CloseRequest 5)])
                (after (serveRecvFrontend_loop (H:=quiet) 1 stream_0_5
                          (mkVars 0 None)) server_A)).
Proof.
  exact (proj1 (proj2 (close_request_at_stream_end (H:=quiet) 1 stream_0_5
                         server_A
                         (after (serveRecvFrontend_loop (H:=quiet) 1
                                   stream_0_5 (mkVars 0 None)) server_A)
                         (mkVars 5 (Some backend_A)) eq_refl))).
Defined.

(** ** The HTTP CONNECT entry point *)

Section TunnelFacts.
Context `{Environment}.

(** When backend selection fails in [ServeHTTP], the server state is left
    as it was, so there is no pending record and no [DIAL_REQ]; the
    handler has passed 200 and then 500 to [WriteHeader], and on a writer
    that had no header yet the status sent to the client is 200. *)
Lemma ServeHTTP_dial_no_backend w r hijack s e w' s' :
  ServeHTTP_dial w r hijack s = Done ((ExitNoBackend e, w'), s') →
  s' = s ∧
  header_calls w' =
    header_calls w ++ [StatusOK; StatusInternalServerError] ∧
  hijacked w' = true ∧
  (status w = None → hijacked w = false → status w' = Some StatusOK).
Proof.
  unfold ServeHTTP_dial. intros Hrun.
  destruct (decide (TLS r = Some 0)); [done|].
  destruct (decide (Method r ≠ "CONNECT")); [by munfold|].
  destruct (hijackable w); simpl in Hrun; [|by munfold].
  destruct hijack as [c|]; [|by munfold].
  munfold.
  destruct (BackendManager_Backend _ _ _ _) as [[be [e'|]]|]; [| |done].
  - injection Hrun as <- <- <-. split_and!; try done.
    + simpl. by rewrite <- app_assoc.
    + intros Hst Hhj. unfold WriteHeader. simpl. by rewrite Hhj, Hst.
  - destruct be; [|done]. by destruct (io _ _).
Qed.


End TunnelFacts.

(** C9.  A [CONNECT] request on a server without agents: the selection
    fails and the handler calls [http.Error] with status 500, but it has
    written status 200 and hijacked the connection before, so the status
    of the response stays 200. *)
Theorem connect_without_backend_status :
  ServeHTTP_dial (H:=quiet) fresh_writer
    (mkRequest "CONNECT" "10.0.0.1:443" None) (Some 3)
    (NewProxyServer DefaultBackendManager "default")
  = Done ((ExitNoBackend ErrNotFound,
           mkWriter true (Some 200) true [200; 500]),
          NewProxyServer DefaultBackendManager "default").
Proof. vm_compute. reflexivity. Qed.


(** ** The registry and the pending-dial table *)

Lemma lookup_frontend_insert s a cid p a' cid' :
  lookup_frontend
    (set_frontends
       (λ f, <[a := <[cid := p]> (default ∅ (f !! a))]> f) s) a' cid'
  = if decide (a' = a ∧ cid' = cid) then Some p
    else lookup_frontend s a' cid'.
Proof.
  unfold lookup_frontend. simpl.
  destruct (decide (a' = a)) as [->|Hne].
  - rewrite lookup_insert_eq. simpl.
    destruct (decide (cid' = cid)) as [->|Hne].
    + rewrite lookup_insert_eq. by rewrite decide_True.
    + rewrite lookup_insert_ne by done. rewrite decide_False by tauto.
      destruct (frontends s !! a); [done|]. simpl. apply lookup_empty.
  - rewrite lookup_insert_ne by done. by rewrite decide_False by tauto.
Qed.

(** [removeFrontend] removes the entry under the given pair and no other. *)
Lemma lookup_frontend_remove `{Environment} s a cid :
  ∃ s', removeFrontend a cid s = Done (tt, s') ∧
        pendingDial s' = pendingDial s ∧ heap s' = heap s ∧
        trace s' = trace s ∧ storage s' = storage s ∧
        ∀ a' cid',
          lookup_frontend s' a' cid' =
            if decide (a' = a ∧ cid' = cid) then None
            else lookup_frontend s a' cid'.
Proof.
  eexists. split; [done|]. split_and!; try done.
  intros a' cid'. unfold lookup_frontend. simpl.
  destruct (frontends s !! a) as [conns|] eqn:Ha.
  2:{ case_decide as Hd; [|done]. destruct Hd as [-> ->]. by rewrite Ha. }
  destruct (conns !! cid) as [q|] eqn:Hc.
  2:{ case_decide as Hd; [|done]. destruct Hd as [-> ->].
      rewrite Ha. simpl. done. }
  destruct (decide (size (delete cid conns) = 0)) as [Hz|Hnz].
  - apply map_size_empty_inv in Hz.
    destruct (decide (a' = a)) as [->|Hne].
    + rewrite lookup_delete_eq, Ha. simpl.
      case_decide as Hd; [done|].
      assert (cid' ≠ cid) as Hne by tauto.
      rewrite <- (lookup_delete_ne conns cid cid') by done.
      by rewrite Hz, lookup_empty.
    + rewrite lookup_delete_ne by done. by rewrite decide_False by tauto.
  - destruct (decide (a' = a)) as [->|Hne].
    + rewrite lookup_insert_eq, Ha. simpl.
      destruct (decide (cid' = cid)) as [->|Hne].
      * rewrite lookup_delete_eq. by rewrite decide_True.
      * rewrite lookup_delete_ne by done. by rewrite decide_False by tauto.
    + rewrite lookup_insert_ne by done. by rewrite decide_False by tauto.
Qed.

(** ** Preservation of the server invariant *)

Lemma lookup_frontend_new m strategy a cid :
  lookup_frontend (NewProxyServer m strategy) a cid = None.
Proof. unfold lookup_frontend. simpl. by rewrite lookup_empty. Qed.

Lemma tables_inv_new m strategy : tables_inv (NewProxyServer m strategy).
Proof.
  split; simpl.
  - intros r p. by rewrite lookup_empty.
  - intros r1 r2 p. by rewrite lookup_empty.
  - intros a cid p. by rewrite lookup_frontend_new.
  - intros p [r Hr]. simpl in Hr. by rewrite lookup_empty in Hr.
Qed.

Lemma server_inv_new m strategy : server_inv (NewProxyServer m strategy).
Proof.
  split; simpl.
  - apply tables_inv_new.
  - intros r p c. by rewrite lookup_empty.
  - intros a cid p c. by rewrite lookup_frontend_new.
  - intros p c. by rewrite lookup_nil.
Qed.

(** A promotion adds one entry to the registry. *)
Lemma promoted_lookup s s' a cid p :
  frontends s' =
    <[a := <[cid := p]> (default ∅ (frontends s !! a))]> (frontends s) →
  ∀ a' cid',
    lookup_frontend s' a' cid' =
      if decide (a' = a ∧ cid' = cid) then Some p
      else lookup_frontend s a' cid'.
Proof.
  intros Hf a' cid'. unfold lookup_frontend at 1. rewrite Hf.
  pose proof (lookup_frontend_insert s a cid p a' cid') as Hins.
  unfold lookup_frontend at 1 in Hins. simpl in Hins. by rewrite Hins.
Qed.

Lemma effect_tables_inv s s' : effect s s' → tables_inv s → tables_inv s'.
Proof.
  intros Heff [Hpa Hinj Hra Hdis].
  destruct Heff as [Hp Hh Hsub | r c Hp Hh Hc Htc Hf | r Hp Hh Hf
                   | r p a cid c Hr Hc Hopenc Hp Hh Hf].
  - split; rewrite ?Hp, ?Hh; try done.
    + intros a cid p Hl. eapply Hra. by apply Hsub.
    + intros p [r Hr] (a & cid & Hl). rewrite Hp in Hr.
      apply (Hdis p); [by exists r|]. exists a, cid. by apply Hsub.
  - assert (∀ a cid p, lookup_frontend s' a cid = Some p ↔
                        lookup_frontend s a cid = Some p) as Hl
      by (intros; unfold lookup_frontend; by rewrite Hf).
    split; rewrite ?Hp, ?Hh, ?length_app; simpl.
    + intros r' p. rewrite lookup_insert_Some.
      intros [[_ <-]|[_ Hr']]; [lia|]. apply Hpa in Hr'. lia.
    + intros r1 r2 p. rewrite !lookup_insert_Some.
      intros [[<- <-]|[? H1]] [[<- Hq]|[? H2]]; try done.
      * apply Hpa in H2. lia.
      * apply Hpa in H1. lia.
      * by eapply Hinj.
    + intros a cid p Hp'. apply Hl, Hra in Hp'. lia.
    + intros p [r' Hr'] (a & cid & Hp'). apply Hl in Hp'.
      rewrite Hp in Hr'. apply lookup_insert_Some in Hr' as [[_ <-]|[_ Hr']].
      * apply Hra in Hp'. lia.
      * apply (Hdis p); [by exists r'|by exists a, cid].
  - assert (∀ a cid p, lookup_frontend s' a cid = Some p ↔
                        lookup_frontend s a cid = Some p) as Hl
      by (intros; unfold lookup_frontend; by rewrite Hf).
    split; rewrite ?Hp, ?Hh.
    + intros r' p [_ Hr']%lookup_delete_Some. by eapply Hpa.
    + intros r1 r2 p [_ H1]%lookup_delete_Some [_ H2]%lookup_delete_Some.
      by eapply Hinj.
    + intros a cid p Hp'. apply Hl in Hp'. by eapply Hra.
    + intros p [r' Hr'] (a & cid & Hp'). apply Hl in Hp'.
      rewrite Hp in Hr'. apply lookup_delete_Some in Hr' as [_ Hr'].
      apply (Hdis p); [by exists r'|by exists a, cid].
  - pose proof (Hpa _ _ Hr) as Hlt.
    pose proof (promoted_lookup _ _ _ _ _ Hf) as Hl.
    split; rewrite ?Hp, ?Hh, ?length_insert.
    + intros r' q [_ Hr']%lookup_delete_Some. by eapply Hpa.
    + intros r1 r2 q [_ H1]%lookup_delete_Some [_ H2]%lookup_delete_Some.
      by eapply Hinj.
    + intros a' cid' q. rewrite Hl. case_decide; [by intros [= <-]|].
      apply Hra.
    + intros q [r' Hr'] (a' & cid' & Hq). rewrite Hp in Hr'.
      apply lookup_delete_Some in Hr' as [Hne Hr'].
      rewrite Hl in Hq. case_decide.
      * injection Hq as <-. by pose proof (Hinj _ _ _ Hr Hr').
      * apply (Hdis q); [by exists r'|by exists a', cid'].
Qed.

Lemma effect_inv s s' : effect s s' → server_inv s → server_inv s'.
Proof.
  intros Heff [Htab Hopen Hkey Htr].
  pose proof (effect_tables_inv _ _ Heff Htab) as Htab'.
  destruct Htab as [Hpa Hinj Hra Hdis].
  destruct Heff as [Hp Hh Hsub | r c Hp Hh Hc Htc Hf | r Hp Hh Hf
                   | r p a cid c Hr Hc Hopenc Hp Hh Hf].
  - split; rewrite ?Hp, ?Hh; try done.
    intros a cid p c Hl. apply Hkey. by apply Hsub.
  - assert (∀ a cid p, lookup_frontend s' a cid = Some p ↔
                        lookup_frontend s a cid = Some p) as Hl
      by (intros; unfold lookup_frontend; by rewrite Hf).
    split; rewrite ?Hp, ?Hh; [done|..].
    + intros r' p c'. rewrite lookup_insert_Some.
      intros [[_ <-]|[_ Hr']].
      * rewrite lookup_app_r, Nat.sub_diag by done. simpl. by intros [= <-].
      * pose proof (Hpa _ _ Hr'). rewrite lookup_app_l by done. by eapply Hopen.
    + intros a cid p c' Hp'. apply Hl in Hp'.
      pose proof (Hra _ _ _ Hp'). rewrite lookup_app_l by done.
      by apply Hkey.
    + intros p c'. intros Hp'. apply lookup_app_Some in Hp' as [Hp'|[_ Hp']].
      * by eapply Htr.
      * apply list_lookup_singleton_Some in Hp' as [_ <-]. done.
  - assert (∀ a cid p, lookup_frontend s' a cid = Some p ↔
                        lookup_frontend s a cid = Some p) as Hl
      by (intros; unfold lookup_frontend; by rewrite Hf).
    split; rewrite ?Hp, ?Hh; [done|..].
    + intros r' p c [_ Hr']%lookup_delete_Some. by eapply Hopen.
    + intros a cid p c Hp'. apply Hl in Hp'. by apply Hkey.
    + done.
  - pose proof (Hpa _ _ Hr) as Hlt.
    pose proof (promoted_lookup _ _ _ _ _ Hf) as Hl.
    split; rewrite ?Hp, ?Hh; [done|..].
    + intros r' q c' [Hne Hr']%lookup_delete_Some.
      assert (q ≠ p) as Hqp by (intros ->; by pose proof (Hinj _ _ _ Hr Hr')).
      rewrite list_lookup_insert_ne by done. by eapply Hopen.
    + intros a' cid' q c'. rewrite Hl. case_decide as Hd.
      * destruct Hd as [-> ->]. intros [= <-].
        rewrite list_lookup_insert_eq by done. by intros [= <-].
      * intros Hq. assert (q ≠ p) as Hqp.
        { intros ->. apply (Hdis p); [by exists r|by exists a', cid']. }
        rewrite list_lookup_insert_ne by done. by apply Hkey.
    + intros q c'. destruct (decide (q = p)) as [->|Hqp].
      * rewrite list_lookup_insert_eq by done. intros [= <-].
        by apply (Htr p c).
      * rewrite list_lookup_insert_ne by done. apply Htr.
Qed.

Lemma calls_only_refl s : calls_only s s [].
Proof.
  unfold calls_only, set_trace. destruct s. simpl. by rewrite app_nil_r.
Qed.

Lemma calls_only_trans s1 s2 s3 evs1 evs2 :
  calls_only s1 s2 evs1 → calls_only s2 s3 evs2 →
  calls_only s1 s3 (evs1 ++ evs2).
Proof.
  unfold calls_only. intros -> ->. unfold set_trace. simpl.
  by rewrite app_assoc.
Qed.

Lemma calls_only_effect s s' evs : calls_only s s' evs → effect s s'.
Proof. intros ->. by apply eff_registry_shrinks. Qed.

Section StepEffects.
Context `{Environment}.

Lemma send_calls c pkt s e s' :
  send c pkt s = Done (e, s') →
  calls_only s s' (option_list (send_call c pkt)).
Proof.
  unfold send, send_call.
  destruct (decide (Mode c = "grpc")).
  { destruct (Grpc c); munfold; [|done]. by intros [= <- <-]. }
  destruct (decide (Mode c = "http-connect")).
  2:{ munfold. intros [= <- <-]. apply calls_only_refl. }
  destruct pkt as [| ? ? err | | |]; munfold.
  - intros [= <- <-]. apply calls_only_refl.
  - destruct (decide (err ≠ "")).
    + destruct (HTTP c); munfold; [|done]. by intros [= <- <-].
    + munfold. intros [= <- <-]. apply calls_only_refl.
  - intros [= <- <-]. apply calls_only_refl.
  - destruct (HTTP c); munfold; [|done]. by intros [= <- <-].
  - destruct (HTTP c); munfold; [|done]. by intros [= <- <-].
Qed.

Lemma send_returns c pkt s :
  transport_ok c → ∃ e s', send c pkt s = Done (e, s').
Proof.
  unfold send. intros [[Hm [x Hx]]|[Hm [x Hx]]]; rewrite Hm, Hx.
  - rewrite decide_True by done. munfold. eauto.
  - rewrite decide_False by done. rewrite decide_True by done.
    destruct pkt as [| ? ? err | | |]; munfold; eauto.
    destruct (decide (err ≠ "")); munfold; eauto.
Qed.

Lemma Backend_Send_calls b pkt s e s' :
  Backend_Send b pkt s = Done (e, s') →
  calls_only s s' [EvBackendSend b pkt].
Proof. munfold. by intros [= <- <-]. Qed.

Lemma serveRecvFrontend_pkt_effect stream pkt v s v' s' :
  serveRecvFrontend_pkt stream pkt v s = Done (v', s') → effect s s'.
Proof.
  unfold serveRecvFrontend_pkt. intros Hrun.
  destruct pkt as [p a r| | | |connID data]; munfold.
  - destruct (BackendManager_Backend _ _ _ _) as [[be [e|]]|]; [| |done].
    + injection Hrun as <- <-. eapply calls_only_effect, calls_only_refl.
    + destruct be as [b|]; [|done]. injection Hrun as <- <-.
      by eapply (eff_pending_add _ _ r
                   (mkPCC "grpc" (Some stream) None false 0 "" (Some b)));
        [..|left; eauto|].
  - injection Hrun as <- <-. eapply calls_only_effect, calls_only_refl.
  - destruct (cur_backend v); injection Hrun as <- <-.
    + by eapply calls_only_effect.
    + eapply calls_only_effect, calls_only_refl.
  - injection Hrun as <- <-. eapply calls_only_effect, calls_only_refl.
  - destruct (decide (firstConnID v = 0%Z)); simpl in *;
      destruct (cur_backend v); injection Hrun as <- <-;
      first [by eapply calls_only_effect
            | eapply calls_only_effect, calls_only_refl].
Qed.

Lemma serveRecvFrontend_close_effect v s s' :
  serveRecvFrontend_close v s = Done (tt, s') → effect s s'.
Proof.
  unfold serveRecvFrontend_close. munfold.
  destruct (cur_backend v); intros [= <-].
  - by eapply calls_only_effect.
  - eapply calls_only_effect, calls_only_refl.
Qed.

(** The [DIAL_RSP] case on a live record with an open latch: the packet
    is forwarded, the nonce leaves the pending table, and, when the
    response carries no error and the forward succeeded, the record gets
    its identifiers, enters the registry and has its latch closed. *)
Lemma promote_spec agentID random cid err p s c :
  heap s !! p = Some c → connected c = false → transport_ok c →
  ∃ e s1 s',
    send c (Packet_DialResponse random cid err) s = Done (e, s1) ∧
    promote agentID (Packet_DialResponse random cid err) random cid err p s
      = Done (tt, s') ∧
    trace s' = trace s1 ∧ storage s' = storage s ∧
    pendingDial s' = delete random (pendingDial s) ∧
    if bool_decide (err ≠ "") || bool_decide (is_Some e)
    then heap s' = heap s ∧ frontends s' = frontends s
    else heap s' = <[p := set_connected (set_ids cid agentID c)]> (heap s) ∧
         frontends s' =
           <[agentID := <[cid := p]> (default ∅ (frontends s !! agentID))]>
             (frontends s).
Proof.
  intros Hc Hopen Htr.
  destruct (send_returns c (Packet_DialResponse random cid err) s Htr)
    as (e & s1 & Hsend).
  exists e, s1. pose proof (send_calls _ _ _ _ _ Hsend) as Hs1.
  unfold promote. munfold. rewrite Hc, Hsend.
  destruct (bool_decide (err ≠ "") || bool_decide (is_Some e)).
  - eexists. split_and!; try done; by rewrite Hs1.
  - rewrite Hs1. simpl. rewrite Hc. simpl.
    rewrite list_lookup_insert_eq by (by eapply lookup_lt_Some).
    simpl. rewrite Hopen. eexists. split_and!; try done.
    simpl. by rewrite list_insert_insert_eq.
Qed.

Lemma promote_effect agentID pkt random cid err p s s' :
  pendingDial s !! random = Some p →
  promote agentID pkt random cid err p s = Done (tt, s') → effect s s'.
Proof.
  intros Hp. unfold promote. munfold.
  destruct (heap s !! p) as [c|] eqn:Hc; [|done].
  destruct (send c pkt s) as [[e s1]|] eqn:Hsend; [|done].
  apply send_calls in Hsend. rewrite Hsend. simpl.
  destruct (bool_decide (err ≠ "") || bool_decide (is_Some e)).
  - intros [= <-]. by apply (eff_pending_drop _ _ random).
  - simpl. rewrite Hc. simpl.
    rewrite list_lookup_insert_eq by (by eapply lookup_lt_Some).
    simpl. destruct (connected c) eqn:Hopen; [done|].
    intros [= <-]. eapply (eff_promote _ _ random p agentID cid c); try done.
    simpl. by rewrite list_insert_insert_eq.
Qed.

Lemma serveRecvBackend_pkt_effect agentID pkt s s' :
  serveRecvBackend_pkt agentID pkt s = Done (tt, s') → effect s s'.
Proof.
  unfold serveRecvBackend_pkt.
  destruct pkt as [|random cid err| |cid|cid data].
  - munfold. intros [= <-]. eapply calls_only_effect, calls_only_refl.
  - unfold mbind, M_bind, PendingDial_Get.
    destruct (pendingDial s !! random) as [p|] eqn:Hp.
    + by apply promote_effect.
    + munfold. intros [= <-]. eapply calls_only_effect, calls_only_refl.
  - munfold. intros [= <-]. eapply calls_only_effect, calls_only_refl.
  - munfold. destruct (frontends s !! agentID) as [conns|] eqn:Ha.
    2:{ intros [= <-]. eapply calls_only_effect, calls_only_refl. }
    destruct (conns !! cid) as [p|] eqn:Hcid.
    2:{ intros [= <-]. eapply calls_only_effect, calls_only_refl. }
    destruct (heap s !! p) as [c|]; [|done].
    destruct (send c _ s) as [[e s1]|] eqn:Hsend; [|done].
    apply send_calls in Hsend.
    destruct (lookup_frontend_remove s1 agentID cid)
      as (s2 & Hrm & Hp2 & Hh2 & _ & _ & Hl2).
    munfold. intros Hrun. rewrite Hrun in Hrm. injection Hrm as <-.
    rewrite Hsend in *. apply eff_registry_shrinks; [done..|].
    intros a' cid' q. rewrite Hl2. case_decide; [done|].
    by unfold lookup_frontend.
  - munfold. destruct (frontends s !! agentID) as [conns|] eqn:Ha.
    2:{ intros [= <-]. eapply calls_only_effect, calls_only_refl. }
    destruct (conns !! cid) as [p|] eqn:Hcid.
    2:{ intros [= <-]. eapply calls_only_effect, calls_only_refl. }
    destruct (heap s !! p) as [c|]; [|done].
    destruct (send c _ s) as [[e s1]|] eqn:Hsend; [|done].
    apply send_calls in Hsend. intros [= <-].
    by eapply calls_only_effect.
Qed.

(** *** The agent-disconnect cleanup *)

Lemma frontendsForBackendConn_range_spec b l : ∀ ret s,
  (∀ cid p, (cid, p) ∈ l → is_Some (heap s !! p)) →
  frontendsForBackendConn_range b l ret s
    = Done (ret ++ filter (λ p, bound_to s b p = true) l.*2, s).
Proof.
  induction l as [|[cid p] l IH]; intros ret s Halloc; simpl.
  - munfold. by rewrite app_nil_r.
  - destruct (Halloc cid p) as [c Hc]; [by left|].
    assert (bound_to s b p = Backend_eq (pcc_backend c) b) as Hb
      by (unfold bound_to; by rewrite Hc).
    munfold. rewrite Hc. rewrite filter_cons.
    assert (∀ cid p, (cid, p) ∈ l → is_Some (heap s !! p)) as Halloc'
      by (intros; eapply Halloc; by right).
    destruct (Backend_eq (pcc_backend c) b).
    + rewrite decide_True by done. rewrite (IH _ _ Halloc').
      by rewrite <- app_assoc.
    + rewrite decide_False by (by rewrite Hb). by rewrite (IH _ _ Halloc').
Qed.

Lemma close_frontends_spec agentID l : ∀ s,
  (∀ p, p ∈ l → ∃ c, heap s !! p = Some c ∧ transport_ok c) →
  ∃ s', close_frontends agentID l s = Done (tt, s') ∧
        pendingDial s' = pendingDial s ∧ heap s' = heap s ∧
        storage s' = storage s ∧
        trace s' = trace s ++ flat_map (close_call s) l ∧
        ∀ a cid,
          lookup_frontend s' a cid =
            if decide (a = agentID ∧ cid ∈ record_connID s <$> l) then None
            else lookup_frontend s a cid.
Proof.
  induction l as [|p l IH]; intros s Hl; simpl.
  - exists s. munfold. split_and!; try done.
    + by rewrite app_nil_r.
    + intros a cid. rewrite decide_False; [done|].
      intros [_ ?%elem_of_nil]. done.
  - destruct (Hl p) as (c & Hc & Htr); [by left|].
    destruct (lookup_frontend_remove s agentID (connectID c))
      as (s1 & Hrm & Hp1 & Hh1 & Ht1 & Hs1 & Hl1).
    destruct (send_returns c (Packet_CloseResponse (connectID c)) s1 Htr)
      as (e & s2 & Hsend).
    pose proof (send_calls _ _ _ _ _ Hsend) as Hs2.
    assert (heap s2 = heap s ∧ pendingDial s2 = pendingDial s ∧
            storage s2 = storage s ∧
            trace s2 = trace s ++ close_call s p ∧
            ∀ a cid, lookup_frontend s2 a cid = lookup_frontend s1 a cid)
      as (Hh2 & Hp2 & Hst2 & Ht2 & Hl2).
    { unfold calls_only in Hs2. subst s2. simpl. unfold close_call.
      rewrite Hc. simpl. by rewrite Hh1, Hp1, Hs1, Ht1. }
    destruct (IH s2) as (s' & Hrun & Hp' & Hh' & Hst' & Ht' & Hl').
    { intros q Hq. rewrite Hh2. apply Hl. by right. }
    exists s'. unfold mbind, M_bind, deref. rewrite Hc.
    unfold mbind, M_bind in Hrm. rewrite Hrm, Hsend.
    assert (∀ q, close_call s2 q = close_call s q) as Hcc
      by (intros; unfold close_call; by rewrite Hh2).
    assert (∀ q, record_connID s2 q = record_connID s q) as Hrc
      by (intros; unfold record_connID; by rewrite Hh2).
    split_and!.
    + done.
    + by rewrite Hp'.
    + by rewrite Hh'.
    + by rewrite Hst'.
    + rewrite Ht', Ht2, <- app_assoc. f_equal. f_equal.
      apply flat_map_ext. intros q. apply Hcc.
    + intros a cid. rewrite Hl', Hl2, Hl1.
      rewrite (list_fmap_ext (record_connID s2) (record_connID s) l)
        by (intros; apply Hrc).
      assert (record_connID s p = connectID c) as Hrp
        by (unfold record_connID; by rewrite Hc).
      rewrite Hrp. fold (fmap (M:=list) (record_connID s) l).
      repeat case_decide; try done; exfalso;
        repeat match goal with
               | Hx : _ ∧ _ |- _ => destruct Hx
               | Hx : _ ∈ _ :: _ |- _ => apply elem_of_cons in Hx as [?|?]
               | Hx : ¬ (_ ∧ _ ∈ _ :: _) |- _ =>
                   rewrite elem_of_cons in Hx
               end; tauto.
Qed.

Lemma close_frontends_shrinks agentID l : ∀ s s',
  close_frontends agentID l s = Done (tt, s') →
  pendingDial s' = pendingDial s ∧ heap s' = heap s ∧
  ∀ a cid q, lookup_frontend s' a cid = Some q →
             lookup_frontend s a cid = Some q.
Proof.
  induction l as [|p l IH]; intros s s'; simpl.
  - munfold. by intros [= <-].
  - unfold mbind, M_bind, deref.
    destruct (heap s !! p) as [c|]; [|done].
    destruct (lookup_frontend_remove s agentID (connectID c))
      as (s1 & Hrm & Hp1 & Hh1 & _ & _ & Hl1).
    unfold mbind, M_bind in Hrm. rewrite Hrm.
    destruct (send c _ s1) as [[e s2]|] eqn:Hsend; [|done].
    apply send_calls in Hsend. unfold calls_only in Hsend. subst s2.
    intros Hrun. apply IH in Hrun as (Hp' & Hh' & Hl'). simpl in *.
    split_and!; [congruence..|].
    intros a cid q Hq. apply Hl' in Hq.
    unfold lookup_frontend in Hq. simpl in Hq.
    fold (lookup_frontend s1 a cid) in Hq. rewrite Hl1 in Hq.
    by case_decide.
Qed.

Lemma serveRecvBackend_cleanup_effect agentID b s s' :
  serveRecvBackend_cleanup agentID b s = Done (tt, s') → effect s s'.
Proof.
  unfold serveRecvBackend_cleanup, getFrontendsForBackendConn.
  unfold mbind at 1 2, M_bind, get.
  destruct (frontends s !! agentID) as [conns|].
  - unfold mbind, M_bind.
    destruct (frontendsForBackendConn_range b (go_range conns) [] s)
      as [[l s1]|] eqn:Hrange; [|done].
    assert (s1 = s) as ->.
    { clear -Hrange. revert Hrange. generalize (@nil nat).
      induction (go_range conns) as [|[cid p] l' IH]; intros ret; simpl.
      - munfold. by intros [= _ <-].
      - munfold. destruct (heap s !! p) as [c|]; [|done].
        destruct (Backend_eq (pcc_backend c) b); apply IH. }
    unfold mret, M_ret. intros Hrun.
    apply close_frontends_shrinks in Hrun as (? & ? & ?).
    by apply eff_registry_shrinks.
  - unfold mret, M_ret. simpl. munfold. intros [= <-].
    eapply calls_only_effect, calls_only_refl.
Qed.

(** *** The tunnel *)

Lemma ServeHTTP_dial_effect w r hijack x s s' :
  ServeHTTP_dial w r hijack s = Done (x, s') → effect s s'.
Proof.
  unfold ServeHTTP_dial. intros Hrun.
  destruct (decide (TLS r = Some 0)); [done|].
  destruct (decide (Method r ≠ "CONNECT")).
  { munfold. injection Hrun as <- <-.
    eapply calls_only_effect, calls_only_refl. }
  destruct (hijackable w); simpl in Hrun.
  2:{ munfold. injection Hrun as <- <-.
      eapply calls_only_effect, calls_only_refl. }
  destruct hijack as [c|].
  2:{ munfold. injection Hrun as <- <-.
      eapply calls_only_effect, calls_only_refl. }
  munfold.
  destruct (BackendManager_Backend _ _ _ _) as [[be [e'|]]|]; [| |done].
  { injection Hrun as <- <-. eapply calls_only_effect, calls_only_refl. }
  destruct be as [b|]; [|done].
  assert (effect s
            (set_trace (λ t, t ++ [EvBackendSend b
                (Packet_DialRequest "tcp" (Host r)
                   (Int63 (trace s) mod 2 ^ 63)%Z)])
               (set_pendingDial
                  (λ m, <[(Int63 (trace s) mod 2 ^ 63)%Z := length (heap s)]> m)
                  (set_heap
                     (λ h, h ++ [mkPCC "http-connect" None (Some c) false
                                       0 "" (Some b)]) s)))) as Heff.
  { by eapply (eff_pending_add _ _ _
                 (mkPCC "http-connect" None (Some c) false 0 "" (Some b)));
      [..|right; eauto|]. }
  destruct (io _ _); by injection Hrun as <- <-.
Qed.

Lemma tunnel_loop_effect b connID reads : ∀ s s',
  tunnel_loop b connID reads s = Done (tt, s') →
  pendingDial s' = pendingDial s ∧ heap s' = heap s ∧
  frontends s' = frontends s.
Proof.
  induction reads as [|pkt rest IH]; intros s s'; simpl.
  - munfold. by intros [= <-].
  - munfold. destruct (io _ _).
    + by intros [= <-].
    + intros Hrun. by apply IH in Hrun.
Qed.

Lemma ServeHTTP_proxy_effect connection b c reads s s' :
  ServeHTTP_proxy connection b c reads s = Done (tt, s') → effect s s'.
Proof.
  unfold ServeHTTP_proxy. unfold mbind at 1, M_bind, deref.
  destruct (heap s !! connection) as [pcc|]; [|done].
  unfold mbind, M_bind.
  destruct (tunnel_loop b (connectID pcc) reads s) as [[[] s1]|] eqn:Hloop;
    [|done].
  apply tunnel_loop_effect in Hloop as (Hp & Hh & Hf).
  munfold. intros [= <-]. apply eff_registry_shrinks; simpl; try done.
  intros a cid q. unfold lookup_frontend. simpl. by rewrite Hf.
Qed.

(** *** Every transition has one of the four effects *)

Lemma step_effect s s' : step s s' → effect s s'.
Proof.
  destruct 1.
  - by apply eff_registry_shrinks.
  - by apply eff_registry_shrinks.
  - by eapply serveRecvFrontend_pkt_effect.
  - by eapply serveRecvFrontend_close_effect.
  - by eapply serveRecvBackend_pkt_effect.
  - by eapply serveRecvBackend_cleanup_effect.
  - by eapply ServeHTTP_dial_effect.
  - by eapply ServeHTTP_proxy_effect.
Qed.

Lemma reachable_inv s : reachable s → server_inv s.
Proof.
  intros (m & strategy & Hrtc).
  eapply (rtc_ind_r (λ s, server_inv s) (NewProxyServer m strategy));
    [| |exact Hrtc].
  - apply server_inv_new.
  - intros y z _ Hstep IH. eapply effect_inv; [by apply step_effect|done].
Qed.

End StepEffects.

(** ** The backend stream handler *)

Section Backend.
Context `{Environment}.

(** *** Runs that stay within the reachable states *)

Lemma reachable_step s s' : reachable s → step s s' → reachable s'.
Proof.
  intros (m & strategy & Hrtc) Hstep. exists m, strategy.
  by eapply rtc_r.
Qed.

Lemma reachable_new m strategy : reachable (NewProxyServer m strategy).
Proof. by exists m, strategy. Qed.

Lemma reachable_AddBackend agentID stream s :
  reachable s →
  reachable (set_storage (λ st, (AddBackend agentID stream st).2) s).
Proof. intros Hs. eapply reachable_step; [done|]. constructor. Qed.

Lemma reachable_RemoveBackend agentID stream s :
  reachable s →
  reachable (set_storage (λ st, match RemoveBackend agentID stream st with
                                | Done st' => st'
                                | Panic _ => st
                                end) s).
Proof.
  intros Hs. unfold set_storage.
  destruct (RemoveBackend agentID stream (storage s)) as [st'|] eqn:E.
  - eapply reachable_step; [done|].
    by apply (step_RemoveBackend agentID stream s st').
  - by destruct s.
Qed.

Lemma reachable_frontend_pkt stream pkt v s :
  reachable s → reachable (after (serveRecvFrontend_pkt stream pkt v) s).
Proof.
  intros Hs. unfold after, exec.
  destruct (serveRecvFrontend_pkt stream pkt v s) as [[v' s']|] eqn:E;
    [|done].
  eapply reachable_step; [done|]. by eapply step_frontend_pkt.
Qed.

Lemma reachable_backend_pkt agentID pkt s :
  reachable s → reachable (after (serveRecvBackend_pkt agentID pkt) s).
Proof.
  intros Hs. unfold after, exec.
  destruct (serveRecvBackend_pkt agentID pkt s) as [[[] s']|] eqn:E;
    [|done].
  eapply reachable_step; [done|]. by eapply step_backend_pkt.
Qed.

End Backend.

Lemma server_A_reachable : reachable (H:=quiet) server_A.
Proof.
  exact (reachable_AddBackend (H:=quiet) "A" 7
           (NewProxyServer DefaultBackendManager "default")
           (reachable_new _ _)).
Qed.

Lemma server_dialed_reachable : reachable (H:=quiet) server_dialed.
Proof. apply reachable_frontend_pkt, server_A_reachable. Qed.

Lemma dial_and_answer_reachable stream random cid s :
  reachable (H:=quiet) s →
  reachable (H:=quiet) (dial_and_answer stream random cid s).
Proof.
  intros Hs. by apply reachable_backend_pkt, reachable_frontend_pkt.
Qed.

Lemma server_two_handles_reachable : reachable (H:=quiet) server_two_handles.
Proof.
  apply dial_and_answer_reachable.
  apply (reachable_AddBackend (H:=quiet) "A" 8).
  apply (reachable_RemoveBackend (H:=quiet) "A" 7).
  do 2 apply dial_and_answer_reachable.
  apply server_A_reachable.
Qed.

(** ** Interleaved promotions *)

Lemma effect_pending s s' :
  effect s s' →
  length (heap s) ≤ length (heap s') ∧
  ∀ r p, pendingDial s' !! r = Some p →
         pendingDial s !! r = Some p ∨ p = length (heap s).
Proof.
  intros [Hp Hh _ | r c Hp Hh _ _ _ | r Hp Hh _ | r p a cid c _ _ _ Hp Hh _];
    rewrite Hp, Hh, ?length_app, ?length_insert; (split; [simpl; lia|]).
  - auto.
  - intros r' p. rewrite lookup_insert_Some. intros [[_ <-]|[_ ?]]; auto.
  - intros r' p [_ ?]%lookup_delete_Some. auto.
  - intros r' q [_ ?]%lookup_delete_Some. auto.
Qed.

Lemma tables_inv_same s s' :
  pendingDial s' = pendingDial s → frontends s' = frontends s →
  length (heap s') = length (heap s) →
  tables_inv s → tables_inv s'.
Proof.
  intros Hp Hf Hh [Hpa Hinj Hra Hdis].
  assert (∀ a cid, lookup_frontend s' a cid = lookup_frontend s a cid) as Hl
    by (intros; unfold lookup_frontend; by rewrite Hf).
  split; rewrite ?Hp, ?Hh; try done.
  - intros a cid p. rewrite Hl. apply Hra.
  - intros p [r Hr] (a & cid & Hq). rewrite Hp in Hr. rewrite Hl in Hq.
    apply (Hdis p); [by exists r|by exists a, cid].
Qed.

Ltac ssimpl :=
  unfold set_storage, set_frontends, set_pendingDial, set_heap, set_trace,
    in_pending in *;
  simpl in *.

Section InterleavedFacts.
Context `{Environment}.

Import Interleaved.

Lemma elem_of_replaced (h h' x : handler) hs1 hs2 :
  x ∈ hs1 ++ h' :: hs2 → x = h' ∨ x ∈ hs1 ++ h :: hs2.
Proof.
  rewrite !elem_of_app, !elem_of_cons. tauto.
Qed.

Lemma elem_of_removed (h x : handler) hs1 hs2 :
  x ∈ hs1 ++ hs2 → x ∈ hs1 ++ h :: hs2.
Proof.
  rewrite !elem_of_app, !elem_of_cons. tauto.
Qed.

Lemma elem_of_middle (h : handler) hs1 hs2 : h ∈ hs1 ++ h :: hs2.
Proof. rewrite elem_of_app, elem_of_cons. tauto. Qed.

Lemma run_handler_inv s s' hs :
  step s s' → inv (mkSystem s hs) → inv (mkSystem s' hs).
Proof.
  intros Hstep%step_effect [Htab Halloc Hbefore Hafter]. simpl in *.
  destruct (effect_pending _ _ Hstep) as [Hlen Hpend].
  split; simpl.
  - by eapply effect_tables_inv.
  - intros h Hh. apply Halloc in Hh. lia.
  - intros h r Hh Hb Hr. apply Hpend in Hr as [Hr| Hr].
    + by apply Hbefore.
    + apply Halloc in Hh. lia.
  - intros h Hh Hb [r Hr]. apply Hpend in Hr as [Hr| Hr].
    + apply (Hafter h Hh Hb). by exists r.
    + apply Halloc in Hh. lia.
Qed.

Lemma micro_inv sys sys' : micro sys sys' → inv sys → inv sys'.
Proof.
  intros Hmicro [Htab Halloc Hbefore Hafter].
  destruct Hmicro as [s hs agentID random connID err p Hp
                     | s s' hs1 hs2 h c e Hpc Hc Hsend
                     | s s' hs1 hs2 h e Hpc Herr Hrm
                     | s s' hs1 hs2 h Hpc Herr Hrm
                     | s s' hs1 hs2 h Hpc Hrun
                     | s s' hs1 hs2 h Hpc Hrun
                     | s s' hs1 hs2 h Hpc Hrun]; simpl in *.
  - split; simpl; [done|..].
    + intros h [->|Hh]%elem_of_cons; [|by apply Halloc]. simpl.
      by eapply inv_pending_alloc.
    + intros h r [->|Hh]%elem_of_cons Hb Hr; [|by apply Hbefore]. simpl in *.
      by eapply inv_pending_inj.
    + intros h [->|Hh]%elem_of_cons Hb; [|by apply Hafter].
      by destruct Hb.
  - apply send_calls in Hsend. unfold calls_only in Hsend. subst s'.
    pose proof (elem_of_middle h hs1 hs2) as Hin.
    split; simpl.
    + apply (tables_inv_same s); [reflexivity..|done].
    + intros x [->|Hx]%(elem_of_replaced h);
        [by apply (Halloc h)|by apply Halloc].
    + intros x r [->|Hx]%(elem_of_replaced h) Hb Hr; simpl.
      * apply (Hbefore h r Hin); [|done]. unfold before_remove.
        by rewrite Hpc.
      * by apply Hbefore.
    + intros x [->|Hx]%(elem_of_replaced h) Hb; [|by apply Hafter].
      by destruct Hb.
  - munfold. injection Hrm as <-.
    split; simpl.
    + eapply effect_tables_inv; [|done].
      by apply (eff_pending_drop _ _ (h_random h)).
    + intros x Hx%(elem_of_removed h). by apply Halloc.
    + ssimpl.
      intros x r Hx%(elem_of_removed h) Hb [_ Hr]%lookup_delete_Some.
      by apply Hbefore.
    + ssimpl.
      intros x Hx%(elem_of_removed h) Hb [r [_ Hr]%lookup_delete_Some].
      apply (Hafter x Hx Hb). by exists r.
  - munfold. injection Hrm as <-.
    pose proof (elem_of_middle h hs1 hs2) as Hin.
    split; simpl.
    + eapply effect_tables_inv; [|done].
      by apply (eff_pending_drop _ _ (h_random h)).
    + intros x [->|Hx]%(elem_of_replaced h);
        [by apply (Halloc h)|by apply Halloc].
    + ssimpl.
      intros x r [->|Hx]%(elem_of_replaced h) Hb [_ Hr]%lookup_delete_Some.
      * by destruct Hb.
      * by apply Hbefore.
    + ssimpl.
      intros x [->|Hx]%(elem_of_replaced h) Hb [r [Hne Hr]%lookup_delete_Some].
      * simpl in Hr. apply Hne. symmetry. apply (Hbefore h r Hin); [|done].
        unfold before_remove. by rewrite Hpc.
      * apply (Hafter x Hx Hb). by exists r.
  - munfold. destruct (heap s !! h_frontend h) as [c|]; [|done].
    injection Hrun as <-.
    pose proof (elem_of_middle h hs1 hs2) as Hin.
    assert (¬ before_remove h) as Hnb
      by (unfold before_remove; rewrite Hpc; tauto).
    split; simpl.
    + apply (tables_inv_same s); [reflexivity..| |done].
      simpl. by rewrite length_insert.
    + rewrite length_insert.
      intros x [->|Hx]%(elem_of_replaced h);
        [by apply (Halloc h)|by apply Halloc].
    + intros x r [->|Hx]%(elem_of_replaced h) Hb Hr.
      * by destruct Hb.
      * by apply Hbefore.
    + intros x [->|Hx]%(elem_of_replaced h) Hb; [|by apply Hafter].
      by apply (Hafter h).
  - munfold. injection Hrun as <-.
    pose proof (elem_of_middle h hs1 hs2) as Hin.
    assert (¬ before_remove h) as Hnb
      by (unfold before_remove; rewrite Hpc; tauto).
    destruct Htab as [Hpa Hinj Hra Hdis].
    split; simpl.
    + split; simpl; try done.
      * intros a cid q. rewrite lookup_frontend_insert.
        case_decide; [|by apply Hra]. intros [= <-]. by apply Halloc.
      * intros q Hq (a & cid & Hl). rewrite lookup_frontend_insert in Hl.
        case_decide.
        -- injection Hl as <-. by apply (Hafter h).
        -- apply (Hdis q); [done|by exists a, cid].
    + intros x [->|Hx]%(elem_of_replaced h);
        [by apply (Halloc h)|by apply Halloc].
    + intros x r [->|Hx]%(elem_of_replaced h) Hb Hr.
      * by destruct Hb.
      * by apply Hbefore.
    + intros x [->|Hx]%(elem_of_replaced h) Hb; [|by apply Hafter].
      by apply (Hafter h).
  - munfold. destruct (heap s !! h_frontend h) as [c|]; [|done].
    destruct (connected c); [done|]. injection Hrun as <-.
    split; simpl.
    + apply (tables_inv_same s); [reflexivity..| |done].
      simpl. by rewrite length_insert.
    + rewrite length_insert.
      intros x Hx%(elem_of_removed h). by apply Halloc.
    + intros x r Hx%(elem_of_removed h) Hb Hr. by apply Hbefore.
    + intros x Hx%(elem_of_removed h) Hb. by apply Hafter.
Qed.

Lemma reachable_inv_interleaved sys : reachable_system sys → inv sys.
Proof.
  intros (m & strategy & Hrtc).
  eapply (rtc_ind_r (λ sys, inv sys)
            (mkSystem (NewProxyServer m strategy) [])); [| |exact Hrtc].
  - split; simpl.
    + apply tables_inv_new.
    + by intros h ?%elem_of_nil.
    + by intros h r ?%elem_of_nil.
    + by intros h ?%elem_of_nil.
  - intros y z _ [s s' hs Hstep|sys1 sys2 Hmicro] IH.
    + by eapply run_handler_inv.
    + by eapply micro_inv.
Qed.

(** The states reachable by whole handler invocations are reachable. *)
Lemma reachable_handlers s :
  reachable s → reachable_system (mkSystem s []).
Proof.
  intros (m & strategy & Hrtc). exists m, strategy.
  eapply (rtc_ind_r
            (λ s, rtc run (mkSystem (NewProxyServer m strategy) [])
                          (mkSystem s []))
            (NewProxyServer m strategy)); [| |exact Hrtc].
  - done.
  - intros y z _ Hstep IH. eapply rtc_r; [done|]. by apply run_handler.
Qed.


(** C3.  In every state that the handlers reach, also when the
    operations of the [DIAL_RSP] case of several handlers are interleaved
    with each other and with all other handlers, no record is at once in
    the pending-dial table and in the frontend registry; and a handler
    that is about to insert its record into the registry has removed it
    from the pending-dial table: the record is under no nonce. *)
Theorem no_record_pending_and_registered (sys : system) :
  reachable_system sys →
  (∀ p, in_pending (server sys) p → in_registry (server sys) p → False) ∧
  (∀ h, h ∈ handlers sys → h_pc h = Adding →
        ¬ in_pending (server sys) (h_frontend h)).
Proof.
  intros [Htab _ _ Hafter]%reachable_inv_interleaved. split.
  - by apply inv_disjoint.
  - intros h Hh Hpc. apply Hafter; [done|].
    unfold before_remove. rewrite Hpc. tauto.
Qed.

End InterleavedFacts.

(** C3 on the state in which agent ["A"] has answered the dial with nonce
    7: the record is in the registry and in the pending-dial table no
    more. *)
Lemma no_record_pending_and_registered_witness :
  in_registry (dial_and_answer 1 7 101 server_A) 0 ∧
  ¬ in_pending (dial_and_answer 1 7 101 server_A) 0.
Proof.
  assert (in_registry (dial_and_answer 1 7 101 server_A) 0) as Hreg
    by (exists "A", 101%Z; vm_compute; reflexivity).
  split; [done|]. intros Hpend.
  apply (proj1 (no_record_pending_and_registered (H:=quiet)
                  (Interleaved.mkSystem (dial_and_answer 1 7 101 server_A) [])
                  (reachable_handlers (H:=quiet) _
                     (dial_and_answer_reachable 1 7 101 server_A
                        server_A_reachable)))
               0 Hpend Hreg).
Defined.


(** * Further properties of the code *)

(** ** Splitting strings *)

Lemma Split_cons sep s : ∃ x xs, Split sep s = x :: xs.
Proof.
  destruct s as [|a rest]; simpl; [eauto|].
  destruct (Ascii.eqb a sep); [eauto|].
  destruct (Split sep rest); eauto.
Qed.

Lemma Split_free sep x :
  free_of sep x = true → Split sep x = [x].
Proof.
  induction x as [|a x IH]; simpl; [done|].
  intros [Ha Hx]%andb_true_iff. apply negb_true_iff in Ha.
  by rewrite Ha, (IH Hx).
Qed.

Lemma Split_app sep x y :
  free_of sep x = true →
  Split sep (x +:+ String sep y) = x :: Split sep y.
Proof.
  induction x as [|a x IH]; simpl.
  - intros _. by rewrite Ascii.eqb_refl.
  - intros [Ha Hx]%andb_true_iff. apply negb_true_iff in Ha.
    by rewrite Ha, (IH Hx).
Qed.

Lemma Join_cons sep x y ys :
  Join sep (x :: y :: ys) = x +:+ String sep (Join sep (y :: ys)).
Proof. done. Qed.

(** Joining the parts of a split gives the string back, and no part
    contains the separator. *)
Lemma Join_Split sep s :
  Join sep (Split sep s) = s ∧
  Forall (λ x, free_of sep x = true) (Split sep s).
Proof.
  induction s as [|a rest [IHj IHf]]; simpl.
  - split; [done|]. by constructor.
  - destruct (Ascii.eqb a sep) eqn:Ha.
    + apply Ascii.eqb_eq in Ha as ->.
      destruct (Split_cons sep rest) as (x & xs & Hs). rewrite Hs in *.
      rewrite Join_cons, IHj. split; [done|]. by constructor.
    + destruct (Split_cons sep rest) as (x & xs & Hs). rewrite Hs in *.
      apply Forall_cons in IHf as [Hx Hxs]. split.
      * destruct xs as [|y ys]; simpl in *; [by rewrite IHj|].
        by rewrite <- IHj.
      * constructor; [|done]. simpl. by rewrite Ha, Hx.
Qed.

(** Splitting the join of separator-free parts gives the parts back. *)
Lemma Split_Join sep l :
  l ≠ [] → Forall (λ x, free_of sep x = true) l →
  Split sep (Join sep l) = l.
Proof.
  induction l as [|x l IH]; [done|]. intros _ [Hx Hl]%Forall_cons.
  destruct l as [|y ys].
  - simpl. by apply Split_free.
  - rewrite Join_cons, Split_app by done. by rewrite IH.
Qed.

(** [strings.Split(host, ":")[0]] is the first part of the split. *)
Lemma before_colon_Split host :
  head (Split ":" host) = Some (before_colon host).
Proof.
  induction host as [|a rest IH]; simpl; [done|].
  destruct (Ascii.eqb a ":"); [done|].
  destruct (Split ":" rest) as [|x xs]; [done|].
  simpl in *. by injection IH as ->.
Qed.

(** The part of a host that destination routing takes for the agent
    identifier contains no colon and is the host up to its first colon,
    or the whole host when it has none. *)
Lemma before_colon_spec host :
  free_of ":" (before_colon host) = true ∧
  (host = before_colon host ∨
   ∃ rest, host = before_colon host +:+ String ":" rest).
Proof.
  induction host as [|a rest [IHf IHs]]; simpl; [by split; [|left]|].
  destruct (Ascii.eqb a ":") eqn:Ha.
  - apply Ascii.eqb_eq in Ha as ->. split; [done|]. right. by exists rest.
  - split; [simpl; by rewrite Ha, IHf|].
    destruct IHs as [IHs|[rest' IHs]].
    + left. by rewrite <- IHs.
    + right. exists rest'. rewrite IHs at 1. reflexivity.
Qed.

(** ** Agent authentication *)

Lemma HasPrefix_app s pre :
  HasPrefix s pre = true ↔ ∃ t, s = pre +:+ t.
Proof.
  unfold HasPrefix. revert s. induction pre as [|a pre IH]; intros s.
  - split; [intros _; exists s; reflexivity|intros _; by destruct s].
  - destruct s as [|b s].
    + split; [intros [=]|intros [t [=]]].
    + change (String.prefix (String a pre) (String b s))
        with (if ascii_dec a b then String.prefix pre s else false).
      destruct (ascii_dec a b) as [->|Hne].
      * rewrite IH. split; intros [t Ht]; exists t.
        -- rewrite Ht. reflexivity.
        -- change (String b s = String b (pre +:+ t)) in Ht. by injection Ht.
      * split; [done|]. intros [t Ht].
        change (String b s = String a (pre +:+ t)) in Ht. by injection Ht.
Qed.

Lemma TrimPrefix_app pre t : TrimPrefix (pre +:+ t) pre = t.
Proof.
  unfold TrimPrefix.
  assert (HasPrefix (pre +:+ t) pre = true) as ->
    by (apply HasPrefix_app; eauto).
  induction pre as [|a pre IH]; [by destruct t|exact IH].
Qed.

Section AuthenticationFacts.
Variable options : AgentTokenAuthenticationOptions.
Variable TokenReviews_Create : string → string → option TokenReviewStatus.

(** X1.  A token is accepted exactly when the identity service answers the
    review for the configured audience, without an error and with
    [Authenticated] set, and the user name is
    [system:serviceaccount:NAMESPACE:ACCOUNT] for the configured namespace
    and account, neither of which contains a colon. *)
Theorem validateAuthToken_accepts (token : string) :
  validateAuthToken options TokenReviews_Create token = None ↔
  ∃ r, TokenReviews_Create token (AuthenticationAudience options) = Some r ∧
       Status_Error r = "" ∧ Status_Authenticated r = true ∧
       Status_Username r =
         Join ":" ["system"; "serviceaccount"; AgentNamespace options;
                   AgentServiceAccount options] ∧
       free_of ":" (AgentNamespace options) = true ∧
       free_of ":" (AgentServiceAccount options) = true.
Proof.
  unfold validateAuthToken.
  destruct (TokenReviews_Create token _) as [r|]; [|split; [done|]].
  2:{ by intros (r & [=] & _). }
  split.
  - intros Hok. exists r. split; [done|].
    destruct (decide (Status_Error r ≠ "")) as [|He]; [done|].
    destruct (Status_Authenticated r); [|done]. simpl in Hok.
    destruct (Join_Split ":" (Status_Username r)) as [Hj Hf].
    destruct (Split ":" (Status_Username r))
      as [|p0 [|p1 [|ns [|sa [|]]]]]; try done.
    destruct (decide (p0 ≠ "system" ∨ p1 ≠ "serviceaccount")) as [|Hp];
      [done|].
    destruct (decide (AgentNamespace options ≠ ns)) as [|Hns]; [done|].
    destruct (decide (AgentServiceAccount options ≠ sa)) as [|Hsa]; [done|].
    apply dec_stable in He, Hns, Hsa.
    assert (p0 = "system" ∧ p1 = "serviceaccount") as [-> ->].
    { split; apply dec_stable; intros ?; apply Hp; auto. }
    subst ns sa.
    apply Forall_cons in Hf as [_ [_ [Hns [Hsa _]%Forall_cons]%Forall_cons]
                                  %Forall_cons].
    by split_and!.
  - intros (r' & [= <-] & He & Ha & Hu & Hns & Hsa).
    rewrite He, Ha, Hu.
    rewrite Split_Join; [|done|by repeat constructor].
    repeat case_decide; try done. tauto.
Qed.

Variable SchemePrefix : string.

(** X2.  A stream is authenticated exactly when its metadata carries one
    authentication value, that value is the scheme prefix followed by a
    token, and the token is accepted. *)
Theorem authenticateAgentViaToken_accepts (ctx : option Metadata) :
  authenticateAgentViaToken options TokenReviews_Create SchemePrefix ctx
    = None ↔
  ∃ md token,
    ctx = Some md ∧
    md_AuthenticationToken md = [SchemePrefix +:+ token] ∧
    validateAuthToken options TokenReviews_Create token = None.
Proof.
  unfold authenticateAgentViaToken. split.
  - destruct ctx as [md|]; [|done].
    destruct (md_AuthenticationToken md) as [|v [|]] eqn:Hmd; try done.
    destruct (HasPrefix v SchemePrefix) eqn:Hpre; [|done]. simpl.
    apply HasPrefix_app in Hpre as [token ->].
    rewrite TrimPrefix_app.
    destruct (validateAuthToken _ _ token) eqn:Hv; [done|].
    intros _. by exists md, token.
  - intros (md & token & -> & -> & Hv).
    assert (HasPrefix (SchemePrefix +:+ token) SchemePrefix = true) as ->
      by (apply HasPrefix_app; eauto).
    simpl. by rewrite TrimPrefix_app, Hv.
Qed.

End AuthenticationFacts.

(** ** Properties that the handlers keep *)

Lemma preserves_ret {A} P (x : A) : preserves P (mret x).
Proof. intros s y s' HP [= _ <-]. done. Qed.

Lemma preserves_bind {A B} P (m : M A) (k : A → M B) :
  preserves P m → (∀ x, preserves P (k x)) → preserves P (m ≫= k).
Proof.
  intros Hm Hk s y s' HP. unfold mbind, M_bind.
  destruct (m s) as [[x s1]|] eqn:E; [|done].
  apply (Hk x). by eapply Hm.
Qed.

Lemma preserves_get P : preserves P get.
Proof. intros s y s' HP [= _ <-]. done. Qed.

Lemma preserves_fault {A} P p : preserves P (fault (A:=A) p).
Proof. intros s y s' HP [=]. Qed.

Lemma preserves_lift {A} P (o : outcome A) : preserves P (lift o).
Proof. intros s y s' HP. unfold lift. destruct o; by intros [= _ <-]. Qed.

Lemma preserves_modify P f :
  (∀ s, P s → P (f s)) → preserves P (modify f).
Proof. intros Hf s [] s' HP [= <-]. by apply Hf. Qed.

Section Preservation.
Context `{Environment}.
Variable P : ProxyServer → Prop.
Hypothesis HP : stable P.

Lemma preserves_call ev : preserves P (call ev).
Proof. intros s y s' Hs [= _ <-]. by apply stable_trace. Qed.

Lemma preserves_Backend_Send b pkt : preserves P (Backend_Send b pkt).
Proof. apply preserves_call. Qed.

Lemma preserves_send c pkt : preserves P (send c pkt).
Proof.
  intros s y s' Hs Hrun. apply send_calls in Hrun.
  unfold calls_only in Hrun. subst s'. by apply stable_trace.
Qed.

Lemma preserves_deref p : preserves P (deref p).
Proof.
  intros s y s' Hs. unfold deref. destruct (heap s !! p); by intros [= _ <-].
Qed.

Lemma preserves_new c : preserves P (new c).
Proof. intros s y s' Hs [= _ <-]. by apply stable_heap. Qed.

Lemma preserves_PendingDial_Add r p : preserves P (PendingDial_Add r p).
Proof. apply preserves_modify. intros. by apply stable_pendingDial. Qed.

Lemma preserves_PendingDial_Remove r : preserves P (PendingDial_Remove r).
Proof. apply preserves_modify. intros. by apply stable_pendingDial. Qed.

Lemma preserves_PendingDial_Get r : preserves P (PendingDial_Get r).
Proof. by intros s y s' Hs [= _ <-]. Qed.

Lemma preserves_getFrontend a cid : preserves P (getFrontend a cid).
Proof.
  intros s y s' Hs. unfold getFrontend.
  destruct (frontends s !! a) as [conns|]; [|by intros [= _ <-]].
  destruct (conns !! cid); by intros [= _ <-].
Qed.

Lemma preserves_assign_ids p cid a : preserves P (assign_ids p cid a).
Proof.
  apply preserves_bind; [apply preserves_deref|]. intros c.
  apply preserves_modify. intros. by apply stable_heap.
Qed.

Lemma preserves_close_connected p : preserves P (close_connected p).
Proof.
  apply preserves_bind; [apply preserves_deref|]. intros c.
  destruct (connected c); [apply preserves_fault|].
  apply preserves_modify. intros. by apply stable_heap.
Qed.

Lemma preserves_serveRecvFrontend_pkt stream pkt v :
  preserves P (serveRecvFrontend_pkt stream pkt v).
Proof.
  unfold serveRecvFrontend_pkt. destruct pkt.
  - apply preserves_bind; [apply preserves_get|]. intros s.
    apply preserves_bind; [apply preserves_lift|]. intros [be err].
    destruct err; [apply preserves_ret|].
    apply preserves_bind; [apply preserves_new|]. intros p.
    apply preserves_bind; [apply preserves_PendingDial_Add|]. intros _.
    destruct be; [|apply preserves_fault].
    apply preserves_bind; [apply preserves_Backend_Send|]. intros _.
    apply preserves_ret.
  - apply preserves_ret.
  - destruct (cur_backend v); [|apply preserves_ret].
    apply preserves_bind; [apply preserves_Backend_Send|]. intros _.
    apply preserves_ret.
  - apply preserves_ret.
  - simpl. destruct (cur_backend _); [|apply preserves_ret].
    apply preserves_bind; [apply preserves_Backend_Send|]. intros _.
    apply preserves_ret.
Qed.

Lemma preserves_serveRecvFrontend_close v :
  preserves P (serveRecvFrontend_close v).
Proof.
  unfold serveRecvFrontend_close. destruct (cur_backend v);
    [|apply preserves_ret].
  apply preserves_bind; [apply preserves_Backend_Send|]. intros _.
  apply preserves_ret.
Qed.

Lemma preserves_promote a pkt r cid err p :
  preserves P (promote a pkt r cid err p).
Proof.
  unfold promote.
  apply preserves_bind; [apply preserves_deref|]. intros c.
  apply preserves_bind; [apply preserves_send|]. intros e.
  apply preserves_bind; [apply preserves_PendingDial_Remove|]. intros _.
  destruct (_ || _); [apply preserves_ret|].
  apply preserves_bind; [apply preserves_assign_ids|]. intros _.
  apply preserves_bind; [by apply stable_addFrontend|]. intros _.
  apply preserves_close_connected.
Qed.

Lemma preserves_serveRecvBackend_pkt a pkt :
  preserves P (serveRecvBackend_pkt a pkt).
Proof.
  unfold serveRecvBackend_pkt. destruct pkt.
  - apply preserves_ret.
  - apply preserves_bind; [apply preserves_PendingDial_Get|]. intros [p|].
    + apply preserves_promote.
    + apply preserves_ret.
  - apply preserves_ret.
  - apply preserves_bind; [apply preserves_getFrontend|].
    intros [[p|] [e|]]; try apply preserves_ret.
    apply preserves_bind; [apply preserves_deref|]. intros c.
    apply preserves_bind; [apply preserves_send|]. intros _.
    by apply stable_removeFrontend.
  - apply preserves_bind; [apply preserves_getFrontend|].
    intros [[p|] [e|]]; try apply preserves_ret.
    apply preserves_bind; [apply preserves_deref|]. intros c.
    apply preserves_bind; [apply preserves_send|]. intros _.
    apply preserves_ret.
Qed.

Lemma preserves_serveRecvBackend_loop a recvCh :
  preserves P (serveRecvBackend_loop a recvCh).
Proof.
  induction recvCh as [|pkt rest IH]; simpl; [apply preserves_ret|].
  apply preserves_bind; [apply preserves_serveRecvBackend_pkt|]. by intros _.
Qed.

Lemma preserves_close_frontends a l : preserves P (close_frontends a l).
Proof.
  induction l as [|p l IH]; simpl; [apply preserves_ret|].
  apply preserves_bind; [apply preserves_deref|]. intros c.
  apply preserves_bind; [by apply stable_removeFrontend|]. intros _.
  apply preserves_bind; [apply preserves_send|]. by intros _.
Qed.

Lemma preserves_frontendsForBackendConn_range b l : ∀ ret,
  preserves P (frontendsForBackendConn_range b l ret).
Proof.
  induction l as [|[cid p] l IH]; intros ret; simpl; [apply preserves_ret|].
  apply preserves_bind; [apply preserves_deref|]. intros c.
  destruct (Backend_eq _ _); apply IH.
Qed.

Lemma preserves_serveRecvBackend_cleanup a b :
  preserves P (serveRecvBackend_cleanup a b).
Proof.
  unfold serveRecvBackend_cleanup, getFrontendsForBackendConn.
  apply preserves_bind.
  - apply preserves_bind; [apply preserves_get|]. intros s.
    destruct (frontends s !! a); [|apply preserves_ret].
    apply preserves_bind; [apply preserves_frontendsForBackendConn_range|].
    intros l. apply preserves_ret.
  - intros [l e]. apply preserves_close_frontends.
Qed.

Lemma preserves_ServeHTTP_dial w r hijack :
  preserves P (ServeHTTP_dial w r hijack).
Proof.
  unfold ServeHTTP_dial.
  destruct (decide _); [apply preserves_fault|].
  destruct (decide _); [apply preserves_ret|].
  destruct (negb _); [apply preserves_ret|].
  destruct hijack as [c|]; [|apply preserves_ret].
  apply preserves_bind; [apply preserves_get|]. intros s.
  apply preserves_bind; [apply preserves_lift|]. intros [be err].
  destruct err; [apply preserves_ret|].
  apply preserves_bind; [apply preserves_new|]. intros p.
  apply preserves_bind; [apply preserves_PendingDial_Add|]. intros _.
  destruct be; [|apply preserves_fault].
  apply preserves_bind; [apply preserves_Backend_Send|]. intros [e|];
    apply preserves_ret.
Qed.

Lemma preserves_tunnel_loop b cid reads :
  preserves P (tunnel_loop b cid reads).
Proof.
  induction reads as [|pkt rest IH]; simpl; [apply preserves_ret|].
  apply preserves_bind; [apply preserves_Backend_Send|]. intros [e|];
    [apply preserves_ret|done].
Qed.

Lemma preserves_ServeHTTP_proxy connection b c reads :
  preserves P (ServeHTTP_proxy connection b c reads).
Proof.
  unfold ServeHTTP_proxy.
  apply preserves_bind; [apply preserves_deref|]. intros pcc.
  apply preserves_bind; [apply preserves_tunnel_loop|]. intros _.
  apply preserves_bind; [apply preserves_call|]. intros _.
  apply preserves_ret.
Qed.

(** A stable property that registering and deregistering a stream keep
    holds in every reachable state, if it holds in the initial one. *)
Lemma stable_step s s' :
  (∀ a c s, P s → P (set_storage (λ st, (AddBackend a c st).2) s)) →
  (∀ a c s st', P s → RemoveBackend a c (storage s) = Done st' →
                P (set_storage (λ _, st') s)) →
  step s s' → P s → P s'.
Proof.
  intros Hadd Hrm Hstep Hs. destruct Hstep.
  - by apply Hadd.
  - by eapply Hrm.
  - by eapply preserves_serveRecvFrontend_pkt.
  - by eapply preserves_serveRecvFrontend_close.
  - by eapply preserves_serveRecvBackend_pkt.
  - by eapply preserves_serveRecvBackend_cleanup.
  - by eapply preserves_ServeHTTP_dial.
  - by eapply preserves_ServeHTTP_proxy.
Qed.

End Preservation.

(** ** Further invariants of the reachable states *)

Lemma stable_storage_ok : stable storage_ok.
Proof.
  split; try done.
  - intros a cid p s [] s' Hs [= <-]. done.
  - intros a cid s [] s' Hs [= <-]. done.
Qed.

Lemma stable_registry_nonempty : stable registry_nonempty.
Proof.
  split; try done.
  - intros a cid p s [] s' Hs [= <-]. intros a' conns. simpl.
    destruct (decide (a = a')) as [<-|Hne].
    + rewrite lookup_insert_eq. intros [= <-] He.
      apply (f_equal (λ m, m !! cid)) in He.
      by rewrite lookup_insert_eq, lookup_empty in He.
    + rewrite lookup_insert_ne by done. apply Hs.
  - intros a cid s [] s' Hs [= <-]. intros a' conns. simpl.
    destruct (frontends s !! a) as [conns0|] eqn:Ha; [|apply Hs].
    destruct (conns0 !! cid) as [q|]; [|apply Hs].
    destruct (decide (size (delete cid conns0) = 0)) as [Hz|Hnz].
    + intros [_ ?]%lookup_delete_Some. by eapply Hs.
    + destruct (decide (a = a')) as [<-|Hne].
      * rewrite lookup_insert_eq. intros [= <-] He. apply Hnz.
        by rewrite He, map_size_empty.
      * rewrite lookup_insert_ne by done. apply Hs.
Qed.

Lemma effect_abandoned s s' p :
  effect s s' → abandoned s p → abandoned s' p.
Proof.
  intros Heff [Hnp (c & Hc & Hopen)].
  destruct Heff as [Hp Hh Hsub | r c0 Hp Hh Hc0 Htc Hf | r Hp Hh Hf
                   | r q a cid c0 Hr Hc0 Hopenc Hp Hh Hf].
  - split; [|exists c; by rewrite Hh].
    intros [r Hr]. rewrite Hp in Hr. apply Hnp. by exists r.
  - pose proof (lookup_lt_Some _ _ _ Hc) as Hlt. split.
    + intros [r' Hr']. rewrite Hp in Hr'.
      apply lookup_insert_Some in Hr' as [[_ Heq]|[_ Hr']]; [lia|].
      apply Hnp. by exists r'.
    + exists c. rewrite Hh. by rewrite lookup_app_l.
  - split; [|exists c; by rewrite Hh].
    intros [r' Hr']. rewrite Hp in Hr'.
    apply lookup_delete_Some in Hr' as [_ Hr']. apply Hnp. by exists r'.
  - assert (p ≠ q) as Hpq by (intros ->; apply Hnp; by exists r).
    split.
    + intros [r' Hr']. rewrite Hp in Hr'.
      apply lookup_delete_Some in Hr' as [_ Hr']. apply Hnp. by exists r'.
    + exists c. rewrite Hh. by rewrite list_lookup_insert_ne.
Qed.

Lemma effect_unregistered s s' p :
  effect s s' → ¬ in_pending s p → ¬ in_registry s p → ¬ in_registry s' p.
Proof.
  intros Heff Hnp Hnr (a' & cid' & Hl). apply Hnr.
  destruct Heff as [Hp Hh Hsub | r c0 Hp Hh Hc0 Htc Hf | r Hp Hh Hf
                   | r q a cid c0 Hr Hc0 Hopenc Hp Hh Hf].
  - exists a', cid'. by apply Hsub.
  - exists a', cid'. unfold lookup_frontend in *. by rewrite <- Hf.
  - exists a', cid'. unfold lookup_frontend in *. by rewrite <- Hf.
  - rewrite (promoted_lookup _ _ _ _ _ Hf) in Hl. case_decide.
    + injection Hl as <-. destruct Hnp. by exists r.
    + by exists a', cid'.
Qed.

(** ** The states that interleaved handlers reach *)

Lemma transport_ok_set c cid a :
  transport_ok c → transport_ok (set_connected (set_ids cid a c)).
Proof. done. Qed.

Lemma records_inv_new m strategy : records_inv (NewProxyServer m strategy).
Proof.
  split; simpl.
  - intros p c. by rewrite lookup_nil.
  - intros r p c. by rewrite lookup_empty.
Qed.

Lemma effect_records_inv s s' :
  effect s s' → tables_inv s → records_inv s → records_inv s'.
Proof.
  intros Heff Htab [Htr Hopen].
  destruct Heff as [Hp Hh Hsub | r c0 Hp Hh Hc0 Htc Hf | r Hp Hh Hf
                   | r q a cid c0 Hr Hc0 Hopenc Hp Hh Hf].
  - split; rewrite ?Hp, Hh; done.
  - split; rewrite ?Hp, Hh.
    + intros p c [?|[_ Hc]]%lookup_app_Some; [by eapply Htr|].
      apply list_lookup_singleton_Some in Hc as [_ <-]. done.
    + intros r' p c [[_ <-]|[_ Hr']]%lookup_insert_Some.
      * rewrite lookup_app_r, Nat.sub_diag by lia. by intros [= <-].
      * pose proof (inv_pending_alloc _ Htab _ _ Hr') as Hlt.
        rewrite lookup_app_l by done. by eapply Hopen.
  - split; rewrite ?Hp, Hh; [done|].
    intros r' p c [_ Hr']%lookup_delete_Some. by eapply Hopen.
  - split; rewrite ?Hp, Hh.
    + intros p c [(-> & <- & _)|[_ Hc]]%list_lookup_insert_Some.
      * apply transport_ok_set. by eapply Htr.
      * by eapply Htr.
    + intros r' p c [Hne Hr']%lookup_delete_Some.
      assert (p ≠ q) as Hpq.
      { intros ->. apply Hne. by eapply (inv_pending_inj _ Htab). }
      rewrite list_lookup_insert_ne by done. by eapply Hopen.
Qed.

Section InterleavedStates.
Context `{Environment}.

Import Interleaved.

Lemma held_replaced h h' hs1 hs2 p :
  h_frontend h' = h_frontend h →
  held (hs1 ++ h' :: hs2) p → held (hs1 ++ h :: hs2) p.
Proof.
  intros Heq (x & Hx & Hp).
  apply (elem_of_replaced h) in Hx as [->|Hx].
  - exists h. split; [apply elem_of_middle|congruence].
  - by exists x.
Qed.

Lemma held_removed h hs1 hs2 p :
  held (hs1 ++ hs2) p → held (hs1 ++ h :: hs2) p.
Proof.
  intros (x & Hx & Hp). exists x. split; [by apply elem_of_removed|done].
Qed.

Lemma closing_cons h hs p : closing hs p → closing (h :: hs) p.
Proof. intros (x & Hx & Hp). exists x. split; [by right|done]. Qed.

Lemma closing_replaced h h' hs1 hs2 p :
  h_pc h ≠ Closing →
  closing (hs1 ++ h :: hs2) p → closing (hs1 ++ h' :: hs2) p.
Proof.
  intros Hpc (x & Hx & Hp & Hc). exists x. split; [|done].
  revert Hx. rewrite !elem_of_app, !elem_of_cons.
  intros [?|[->|?]]; [tauto|congruence|tauto].
Qed.

Lemma closing_removed h hs1 hs2 p :
  h_pc h ≠ Closing ∨ h_frontend h ≠ p →
  closing (hs1 ++ h :: hs2) p → closing (hs1 ++ hs2) p.
Proof.
  intros Hh (x & Hx & Hp & Hc). exists x. split; [|done].
  revert Hx. rewrite !elem_of_app, !elem_of_cons.
  intros [?|[->|?]]; [tauto| |tauto]. destruct Hh; congruence.
Qed.

Lemma closing_here h hs1 hs2 :
  closing (hs1 ++ at_pc Closing h :: hs2) (h_frontend h).
Proof. exists (at_pc Closing h). split; [apply elem_of_middle|done]. Qed.

(** *** The records *)

Lemma micro_records_inv sys sys' :
  micro sys sys' → inv sys → records_inv (server sys) →
  records_inv (server sys').
Proof.
  intros Hmicro [Htab Halloc Hbefore Hafter] [Htr Hopen].
  destruct Hmicro as [s hs agentID random connID err p Hp
                     | s s' hs1 hs2 h c e Hpc Hc Hsend
                     | s s' hs1 hs2 h e Hpc Herr Hrm
                     | s s' hs1 hs2 h Hpc Herr Hrm
                     | s s' hs1 hs2 h Hpc Hrun
                     | s s' hs1 hs2 h Hpc Hrun
                     | s s' hs1 hs2 h Hpc Hrun]; simpl in *.
  - by split.
  - apply send_calls in Hsend. unfold calls_only in Hsend. subst s'.
    by split.
  - munfold. injection Hrm as <-. split; simpl; [done|].
    intros r p c [_ Hr]%lookup_delete_Some. by eapply Hopen.
  - munfold. injection Hrm as <-. split; simpl; [done|].
    intros r p c [_ Hr]%lookup_delete_Some. by eapply Hopen.
  - munfold. destruct (heap s !! h_frontend h) as [c0|] eqn:Hc0; [|done].
    injection Hrun as <-. split; simpl.
    + intros p c [(<- & <- & _)|[_ Hc]]%list_lookup_insert_Some.
      * by apply (Htr _ _ Hc0).
      * by eapply Htr.
    + intros r p c Hr [(<- & <- & _)|[_ Hc]]%list_lookup_insert_Some.
      * simpl. by eapply Hopen.
      * by eapply Hopen.
  - munfold. injection Hrun as <-. by split.
  - munfold. destruct (heap s !! h_frontend h) as [c0|] eqn:Hc0; [|done].
    destruct (connected c0) eqn:Hconn; [done|]. injection Hrun as <-.
    assert (¬ in_pending s (h_frontend h)) as Hnp.
    { apply (Hafter h); [apply elem_of_middle|].
      unfold before_remove. rewrite Hpc. tauto. }
    split; simpl.
    + intros p c [(<- & <- & _)|[_ Hc]]%list_lookup_insert_Some.
      * by apply (Htr _ _ Hc0).
      * by eapply Htr.
    + intros r p c Hr [(<- & <- & _)|[_ Hc]]%list_lookup_insert_Some.
      * destruct Hnp. by exists r.
      * by eapply Hopen.
Qed.

Lemma reachable_system_inv sys :
  reachable_system sys → inv sys ∧ records_inv (server sys).
Proof.
  intros (m & strategy & Hrtc).
  eapply (rtc_ind_r (λ sys, inv sys ∧ records_inv (server sys))
            (mkSystem (NewProxyServer m strategy) [])); [| |exact Hrtc].
  - split; [|apply records_inv_new].
    apply reachable_inv_interleaved. by exists m, strategy.
  - intros y z _ Hrun [Hinv Hrec]. split.
    + destruct Hrun as [s s' hs Hstep|sys1 sys2 Hmicro].
      * by eapply run_handler_inv.
      * by eapply micro_inv.
    + destruct Hrun as [s s' hs Hstep|sys1 sys2 Hmicro]; simpl.
      * eapply effect_records_inv; [by apply step_effect| |done].
        by destruct Hinv.
      * by eapply micro_records_inv.
Qed.

Lemma reachable_system_step s s' hs :
  reachable_system (mkSystem s hs) → step s s' →
  reachable_system (mkSystem s' hs).
Proof.
  intros (m & strategy & Hrtc) Hstep. exists m, strategy.
  eapply rtc_r; [done|]. by apply run_handler.
Qed.

(** A record of the registry is allocated and has its transport, and so
    has a record of the pending-dial table, whose latch is open. *)
Lemma reachable_system_registered sys a cid p :
  reachable_system sys → lookup_frontend (server sys) a cid = Some p →
  ∃ c, heap (server sys) !! p = Some c ∧ transport_ok c.
Proof.
  intros [[Htab _ _ _] [Htr _]]%reachable_system_inv Hl.
  pose proof (inv_registry_alloc _ Htab _ _ _ Hl) as Hlt.
  apply lookup_lt_is_Some in Hlt as [c Hc]. eauto.
Qed.

Lemma reachable_system_pending sys r p :
  reachable_system sys → pendingDial (server sys) !! r = Some p →
  ∃ c, heap (server sys) !! p = Some c ∧ transport_ok c ∧
       connected c = false.
Proof.
  intros [[Htab _ _ _] [Htr Hopen]]%reachable_system_inv Hr.
  pose proof (inv_pending_alloc _ Htab _ _ Hr) as Hlt.
  apply lookup_lt_is_Some in Hlt as [c Hc].
  exists c. split_and!; eauto.
Qed.

(** *** A record that has been dropped stays dropped *)

Lemma run_dropped sys sys' p : run sys sys' → dropped sys p → dropped sys' p.
Proof.
  intros Hrun (Hab & Hnr & Hnh).
  destruct Hrun as [s s' hs Hstep|sys1 sys2 Hmicro]; simpl in *.
  { apply step_effect in Hstep. split_and!; simpl; [| |done].
    - by eapply effect_abandoned.
    - eapply effect_unregistered; [done| |done]. by destruct Hab. }
  destruct Hab as [Hnp (c & Hc & Hlatch)].
  destruct Hmicro as [s hs agentID random connID err q Hq
                     | s s' hs1 hs2 h c0 e Hpc Hc0 Hsend
                     | s s' hs1 hs2 h e Hpc Herr Hrm
                     | s s' hs1 hs2 h Hpc Herr Hrm
                     | s s' hs1 hs2 h Hpc Hrun
                     | s s' hs1 hs2 h Hpc Hrun
                     | s s' hs1 hs2 h Hpc Hrun]; simpl in *.
  - split_and!; simpl; [split; eauto|done|].
    intros (x & [->|Hx]%elem_of_cons & Hp); [|apply Hnh; by exists x].
    simpl in Hp. subst q. apply Hnp. by exists random.
  - apply send_calls in Hsend. unfold calls_only in Hsend. subst s'.
    split_and!; simpl; [split; eauto|done|].
    intros Hh. apply Hnh. eapply held_replaced; [|exact Hh]. done.
  - munfold. injection Hrm as <-. split_and!; simpl.
    + split; [|eauto]. intros [r Hr]. simpl in Hr.
      apply lookup_delete_Some in Hr as [_ Hr]. apply Hnp. by exists r.
    + done.
    + intros Hh. apply Hnh. by eapply held_removed.
  - munfold. injection Hrm as <-. split_and!; simpl.
    + split; [|eauto]. intros [r Hr]. simpl in Hr.
      apply lookup_delete_Some in Hr as [_ Hr]. apply Hnp. by exists r.
    + done.
    + intros Hh. apply Hnh. eapply held_replaced; [|exact Hh]. done.
  - munfold. destruct (heap s !! h_frontend h) as [c1|] eqn:Hc1; [|done].
    injection Hrun as <-.
    assert (h_frontend h ≠ p) as Hne.
    { intros Heq. apply Hnh. exists h. split; [apply elem_of_middle|done]. }
    split_and!; simpl.
    + split; [done|]. exists c. simpl. by rewrite list_lookup_insert_ne.
    + done.
    + intros Hh. apply Hnh. eapply held_replaced; [|exact Hh]. done.
  - munfold. injection Hrun as <-.
    assert (h_frontend h ≠ p) as Hne.
    { intros Heq. apply Hnh. exists h. split; [apply elem_of_middle|done]. }
    split_and!; simpl.
    + split; eauto.
    + intros (a & cid & Hl). rewrite lookup_frontend_insert in Hl.
      case_decide; [congruence|]. apply Hnr. by exists a, cid.
    + intros Hh. apply Hnh. eapply held_replaced; [|exact Hh]. done.
  - munfold. destruct (heap s !! h_frontend h) as [c1|] eqn:Hc1; [|done].
    destruct (connected c1); [done|]. injection Hrun as <-.
    assert (h_frontend h ≠ p) as Hne.
    { intros Heq. apply Hnh. exists h. split; [apply elem_of_middle|done]. }
    split_and!; simpl.
    + split; [done|]. exists c. simpl. by rewrite list_lookup_insert_ne.
    + done.
    + intros Hh. apply Hnh. by eapply held_removed.
Qed.

Lemma rtc_run_dropped sys sys' p :
  rtc run sys sys' → dropped sys p → dropped sys' p.
Proof.
  induction 1 as [|sys1 sys2 sys3 Hrun _ IH]; [done|].
  intros Hd. apply IH. by eapply run_dropped.
Qed.


(** *** The latch of a registered record *)

Lemma run_registered_closing sys sys' :
  run sys sys' → inv sys →
  (∀ a cid p c, lookup_frontend (server sys) a cid = Some p →
                heap (server sys) !! p = Some c →
                connected c = true ∨ closing (handlers sys) p) →
  ∀ a cid p c, lookup_frontend (server sys') a cid = Some p →
               heap (server sys') !! p = Some c →
               connected c = true ∨ closing (handlers sys') p.
Proof.
  intros Hrun [Htab Halloc Hbefore Hafter] IH.
  destruct Hrun as [s s' hs Hstep|sys1 sys2 Hmicro]; simpl in *.
  { apply step_effect in Hstep.
    destruct Hstep as [Hp Hh Hsub | r c0 Hp Hh Hc0 Htc Hf | r Hp Hh Hf
                      | r q a0 cid0 c0 Hr Hc0 Hopenc Hp Hh Hf];
      intros a cid p c Hl Hc.
    - rewrite Hh in Hc. eapply IH; [|done]. by apply Hsub.
    - unfold lookup_frontend in Hl. rewrite Hf in Hl.
      pose proof (inv_registry_alloc _ Htab _ _ _ Hl) as Hlt.
      rewrite Hh, lookup_app_l in Hc by done. by eapply IH.
    - unfold lookup_frontend in Hl. rewrite Hf in Hl. rewrite Hh in Hc.
      by eapply IH.
    - rewrite Hh in Hc. rewrite (promoted_lookup _ _ _ _ _ Hf) in Hl.
      apply list_lookup_insert_Some in Hc as [(<- & <- & _)|[Hne Hc]].
      + by left.
      + case_decide; [congruence|]. by eapply IH. }
  destruct Hmicro as [s hs agentID random connID err q Hq
                     | s s' hs1 hs2 h c0 e Hpc Hc0 Hsend
                     | s s' hs1 hs2 h e Hpc Herr Hrm
                     | s s' hs1 hs2 h Hpc Herr Hrm
                     | s s' hs1 hs2 h Hpc Hrun
                     | s s' hs1 hs2 h Hpc Hrun
                     | s s' hs1 hs2 h Hpc Hrun]; simpl in *;
    intros a cid p c Hl Hc.
  - destruct (IH _ _ _ _ Hl Hc); [by left|right]. by apply closing_cons.
  - apply send_calls in Hsend. unfold calls_only in Hsend. subst s'.
    destruct (IH _ _ _ _ Hl Hc) as [?|Hcl]; [by left|right].
    eapply closing_replaced; [|exact Hcl]. by rewrite Hpc.
  - munfold. injection Hrm as <-.
    destruct (IH _ _ _ _ Hl Hc) as [?|Hcl]; [by left|right].
    eapply closing_removed; [|exact Hcl]. left. by rewrite Hpc.
  - munfold. injection Hrm as <-.
    destruct (IH _ _ _ _ Hl Hc) as [?|Hcl]; [by left|right].
    eapply closing_replaced; [|exact Hcl]. by rewrite Hpc.
  - munfold. destruct (heap s !! h_frontend h) as [c1|] eqn:Hc1; [|done].
    injection Hrun as <-. simpl in Hc.
    assert (∃ c', heap s !! p = Some c' ∧ connected c' = connected c)
      as (c' & Hc' & Heq).
    { apply list_lookup_insert_Some in Hc as [(<- & <- & _)|[_ Hc]];
        eauto. }
    destruct (IH _ _ _ _ Hl Hc') as [?|Hcl]; [left; congruence|right].
    eapply closing_replaced; [|exact Hcl]. by rewrite Hpc.
  - munfold. injection Hrun as <-. simpl in Hc.
    rewrite lookup_frontend_insert in Hl. case_decide.
    + injection Hl as <-. right. apply closing_here.
    + destruct (IH _ _ _ _ Hl Hc) as [?|Hcl]; [by left|right].
      eapply closing_replaced; [|exact Hcl]. by rewrite Hpc.
  - munfold. destruct (heap s !! h_frontend h) as [c1|] eqn:Hc1; [|done].
    destruct (connected c1); [done|]. injection Hrun as <-. simpl in Hc.
    apply list_lookup_insert_Some in Hc as [(<- & <- & _)|[Hne Hc]].
    + by left.
    + destruct (IH _ _ _ _ Hl Hc) as [?|Hcl]; [by left|right].
      eapply closing_removed; [|exact Hcl]. by right.
Qed.

End InterleavedStates.

(** ** The [DIAL_RSP] case and the cleanup among other handlers *)

Section ConcurrentBackend.
Context `{Environment}.

Import Interleaved.



End ConcurrentBackend.

(** *** Two handlers that answer one nonce *)









Section ReachableFacts.
Context `{Environment}.

Lemma reachable_ind (P : ProxyServer → Prop) :
  (∀ m strategy, P (NewProxyServer m strategy)) →
  (∀ s s', reachable s → step s s' → P s → P s') →
  ∀ s, reachable s → P s.
Proof.
  intros Hnew Hstep s (m & strategy & Hrtc).
  eapply (rtc_ind_r (λ s, reachable s ∧ P s) (NewProxyServer m strategy));
    [| |exact Hrtc].
  - split; [apply reachable_new|apply Hnew].
  - intros y z _ Hyz [Hy HPy]. split; [by eapply reachable_step|].
    by eapply Hstep.
Qed.

(** In every reachable state the backend storage is well formed. *)
Lemma reachable_storage_ok s : reachable s → storage_ok s.
Proof.
  apply reachable_ind.
  - intros m strategy. split; [apply storage_inv_new|].
    exists ∅. apply tracks_new.
  - intros s0 s' _ Hstep Hs. eapply (stable_step _ stable_storage_ok);
      [| |done|done].
    + intros a c s1 [Hinv [g Hg]]. split; simpl.
      * by apply AddBackend_inv.
      * eexists. by apply AddBackend_tracks.
    + intros a c s1 st' [Hinv [g Hg]] Hrm.
      destruct (RemoveBackend_inv a c _ g Hinv Hg) as (st & Hst & ? & ?).
      rewrite Hrm in Hst. injection Hst as <-. split; simpl; eauto.
Qed.

(** X3.  The registry never keeps an agent with an empty map of connections:
    [removeFrontend] deletes the agent's entry with its last connection. *)
Theorem reachable_registry_nonempty (s : ProxyServer) :
  reachable s → registry_nonempty s.
Proof.
  apply reachable_ind.
  - intros m strategy a conns. simpl. by rewrite lookup_empty.
  - intros s0 s' _ Hstep Hs.
    by eapply (stable_step _ stable_registry_nonempty).
Qed.

(** X4.  In every state that the handlers reach, also with the operations
    of the [DIAL_RSP] case of several handlers interleaved, a record of
    the registry has its latch closed, or a handler stands between the
    [addFrontend] and the [close] of its [DIAL_RSP] case for this record:
    the handler registers the record first and closes the latch
    afterwards. *)
Theorem reachable_registered_connected (sys : Interleaved.system) :
  Interleaved.reachable_system sys →
  ∀ a cid p c,
    lookup_frontend (Interleaved.server sys) a cid = Some p →
    heap (Interleaved.server sys) !! p = Some c →
    connected c = true ∨ closing (Interleaved.handlers sys) p.
Proof.
  intros (m & strategy & Hrtc).
  eapply (rtc_ind_r
            (λ sys, Interleaved.reachable_system sys ∧
                    ∀ a cid p c,
                      lookup_frontend (Interleaved.server sys) a cid = Some p →
                      heap (Interleaved.server sys) !! p = Some c →
                      connected c = true ∨
                      closing (Interleaved.handlers sys) p)
            (Interleaved.mkSystem (NewProxyServer m strategy) []));
    [| |exact Hrtc].
  - split; [by exists m, strategy|].
    intros a cid p c. simpl. by rewrite lookup_frontend_new.
  - intros y z _ Hrun [Hy IH]. split.
    + destruct Hy as (m' & strategy' & Hy). exists m', strategy'.
      by eapply rtc_r.
    + eapply run_registered_closing; [done| |done].
      by apply reachable_inv_interleaved.
Qed.

(** X5.  A dial that the agent answers with an error is never established
    later, when no other handler has found the nonce of the dial: the
    handler of the answer drops the record, and whatever the server and
    the handlers do afterwards, in any interleaving, the record is in
    neither table and its latch stays open.  (A handler that had found
    the nonce before could go on to register the record.) *)
Theorem failed_dial_never_connected
    (agentID : string) (random cid : Z) (err : string) (p : nat)
    (s : ProxyServer) (hs : list Interleaved.handler) :
  Interleaved.reachable_system (Interleaved.mkSystem s hs) →
  pendingDial s !! random = Some p → err ≠ "" → ¬ held hs p →
  ∃ s1,
    serveRecvBackend_pkt agentID (Packet_DialResponse random cid err) s
      = Done (tt, s1) ∧
    ∀ sys2, rtc Interleaved.run (Interleaved.mkSystem s1 hs) sys2 →
            ¬ in_pending (Interleaved.server sys2) p ∧
            ¬ in_registry (Interleaved.server sys2) p ∧
            ∃ c, heap (Interleaved.server sys2) !! p = Some c ∧
                 connected c = false.
Proof.
  intros Hreach Hp Herr Hnh.
  destruct (reachable_system_pending _ _ _ Hreach Hp)
    as (c & Hc & Htr & Hopen).
  apply reachable_system_inv in Hreach as [[Htab _ _ _] _].
  simpl in *.
  destruct (promote_spec agentID random cid err p s c Hc Hopen Htr)
    as (e & s0 & s1 & _ & Hrun & _ & _ & Hp1 & Hcase).
  rewrite (bool_decide_eq_true_2 _ Herr) in Hcase. simpl in Hcase.
  destruct Hcase as [Hh1 Hf1].
  exists s1. split.
  { unfold serveRecvBackend_pkt, mbind, M_bind, PendingDial_Get.
    by rewrite Hp. }
  assert (dropped (Interleaved.mkSystem s1 hs) p) as Hd.
  { split_and!; simpl; [split| |done].
    - intros [r Hr]. rewrite Hp1 in Hr.
      apply lookup_delete_Some in Hr as [Hne Hr].
      by pose proof (inv_pending_inj _ Htab _ _ _ Hp Hr).
    - exists c. by rewrite Hh1.
    - intros (a & cid' & Hl).
      apply (inv_disjoint _ Htab p); [by exists random|].
      exists a, cid'. unfold lookup_frontend in *. by rewrite <- Hf1. }
  intros sys2 Hrtc.
  destruct (rtc_run_dropped _ _ _ Hrtc Hd) as ([? ?] & ? & _). done.
Qed.

(** *** The handlers do not fault *)

Lemma GetRandomBackend_picks (draw : nat) (st : DefaultBackendStorage) :
  storage_inv st →
  (backends st = ∅ ∧ GetRandomBackend draw st = Done None) ∨
  ∃ a b l, a ∈ agentIDs st ∧ backends st !! a = Some (b :: l) ∧
           GetRandomBackend draw st = Done (Some b).
Proof.
  intros Hinv. unfold GetRandomBackend.
  destruct (decide (size (backends st) = 0)) as [Hz|Hnz].
  { left. split; [|done]. by apply map_size_empty_inv. }
  right. pose proof (agentIDs_length _ Hinv) as Hlen.
  unfold NumBackends in Hlen.
  rewrite decide_False by lia.
  assert (draw `mod` length (agentIDs st) < length (agentIDs st)) as Hlt
    by (apply Nat.mod_upper_bound; lia).
  apply lookup_lt_is_Some in Hlt as [a Ha]. rewrite Ha.
  assert (a ∈ agentIDs st) as Hin by (apply list_elem_of_lookup; eauto).
  pose proof Hin as [l Hl]%(inv_keys _ Hinv).
  destruct l as [|b l]; [by destruct (inv_nonempty _ Hinv _ _ Hl)|].
  exists a, b, l. unfold backends_at. rewrite Hl. by split_and!.
Qed.

(** X6.  On a well-formed storage [GetRandomBackend] does not fault, whatever
    the draw: it returns nil when no agent is registered, and otherwise
    the first handle of a registered agent. *)
Theorem GetRandomBackend_registered
    (draw : nat) (st : DefaultBackendStorage) :
  storage_inv st →
  (backends st = ∅ ∧ GetRandomBackend draw st = Done None) ∨
  ∃ a b l, a ∈ agentIDs st ∧ backends st !! a = Some (b :: l) ∧
           GetRandomBackend draw st = Done (Some b).
Proof. apply GetRandomBackend_picks. Qed.

(** The selection made for a gRPC frontend returns in every reachable
    state, and it yields a backend exactly when it yields no error. *)
Lemma BackendManager_Backend_returns s draw :
  storage_ok s →
  ∃ be err, BackendManager_Backend (manager s) None draw (storage s)
              = Done (be, err) ∧
            (err = None → is_Some be) ∧ (is_Some err → be = None).
Proof.
  intros [Hinv _]. unfold BackendManager_Backend.
  destruct (manager s); simpl.
  - unfold DefaultBackendManager_Backend.
    destruct (GetRandomBackend_picks draw _ Hinv)
      as [[_ ->]|(a & b & l & _ & _ & ->)]; simpl.
    + eexists _, _. split; [done|]. split; [done|]. done.
    + eexists _, _. split; [done|]. split; [eauto|]. by intros [? ?].
  - eexists _, _. split; [done|]. split; [done|]. done.
Qed.

Lemma micro_stable (P : ProxyServer → Prop) sys sys' :
  stable P → Interleaved.micro sys sys' →
  P (Interleaved.server sys) → P (Interleaved.server sys').
Proof.
  intros HP Hmicro HPs. destruct Hmicro; simpl in *.
  - done.
  - eapply (preserves_send P HP); [exact HPs|eassumption].
  - eapply (preserves_PendingDial_Remove P HP); [exact HPs|eassumption].
  - eapply (preserves_PendingDial_Remove P HP); [exact HPs|eassumption].
  - eapply (preserves_assign_ids P HP); [exact HPs|eassumption].
  - eapply (stable_addFrontend P HP); [exact HPs|eassumption].
  - eapply (preserves_close_connected P HP); [exact HPs|eassumption].
Qed.

(** In every state that interleaved handlers reach the backend storage is
    well formed: each of its operations runs under its lock. *)
Lemma reachable_system_storage_ok sys :
  Interleaved.reachable_system sys → storage_ok (Interleaved.server sys).
Proof.
  intros (m & strategy & Hrtc).
  eapply (rtc_ind_r (λ sys, storage_ok (Interleaved.server sys))
            (Interleaved.mkSystem (NewProxyServer m strategy) []));
    [| |exact Hrtc].
  - apply reachable_storage_ok, reachable_new.
  - intros y z _ [s s' hs Hstep|sys1 sys2 Hmicro] IH; simpl in *.
    + eapply (stable_step _ stable_storage_ok); [| |done|done].
      * intros a c s1 [Hinv [g Hg]]. split; simpl.
        -- by apply AddBackend_inv.
        -- eexists. by apply AddBackend_tracks.
      * intros a c s1 st' [Hinv [g Hg]] Hrm.
        destruct (RemoveBackend_inv a c _ g Hinv Hg) as (st & Hst & ? & ?).
        rewrite Hrm in Hst. injection Hst as <-. split; simpl; eauto.
    + by eapply (micro_stable _ _ _ stable_storage_ok).
Qed.

Lemma serveRecvFrontend_pkt_returns stream pkt v s :
  storage_ok s → ∃ v' s', serveRecvFrontend_pkt stream pkt v s = Done (v', s').
Proof.
  intros Hok. unfold serveRecvFrontend_pkt.
  destruct pkt; munfold; eauto.
  - destruct (BackendManager_Backend_returns s (Intn (trace s)) Hok)
      as (be & err & -> & Hbe & _).
    destruct err; [eauto|]. destruct (Hbe eq_refl) as [b ->]. eauto.
  - destruct (cur_backend v); eauto.
  - destruct (decide _); simpl; destruct (cur_backend v); eauto.
Qed.

Lemma serveRecvFrontend_wire_pkt_wire stream pkt v :
  serveRecvFrontend_wire_pkt stream (wire pkt) v
  = serveRecvFrontend_pkt stream pkt v.
Proof. by destruct pkt. Qed.

Lemma serveRecvFrontend_wire_loop_returns stream pkts : ∀ v s hs,
  Interleaved.reachable_system (Interleaved.mkSystem s hs) →
  ∃ v' s',
    serveRecvFrontend_wire_loop stream (wire <$> pkts) v s = Done (v', s') ∧
    serveRecvFrontend_loop stream pkts v s = Done (v', s') ∧
    Interleaved.reachable_system (Interleaved.mkSystem s' hs).
Proof.
  induction pkts as [|pkt rest IH]; intros v s hs Hreach.
  - simpl. munfold. eauto.
  - rewrite serveRecvFrontend_loop_cons, fmap_cons. simpl.
    unfold mbind, M_bind. rewrite serveRecvFrontend_wire_pkt_wire.
    destruct (serveRecvFrontend_pkt_returns stream pkt v s
                (reachable_system_storage_ok _ Hreach))
      as (v1 & s1 & Hpkt).
    rewrite Hpkt. apply IH. eapply reachable_system_step; [done|].
    by eapply step_frontend_pkt.
Qed.

Lemma serveRecvFrontend_wire_loop_app stream pre post : ∀ v s,
  serveRecvFrontend_wire_loop stream (pre ++ post) v s
  = match serveRecvFrontend_wire_loop stream pre v s with
    | Done (v', s') => serveRecvFrontend_wire_loop stream post v' s'
    | Panic e => Panic e
    end.
Proof.
  induction pre as [|x l IH]; intros v s; simpl.
  - by munfold.
  - unfold mbind, M_bind.
    destruct (serveRecvFrontend_wire_pkt stream x v s) as [[v' s']|];
      [|done]. apply IH.
Qed.

(** X7.  From every state that the handlers reach, the gRPC frontend
    handler handles without a fault every stream of packets that carry
    the payload of their type, and leaves a state of that kind; its
    effect is the one of [serveRecvFrontend] on these packets.  The same
    stream followed by a [DATA] or [CLOSE_REQ] packet whose payload is
    unset or of another kind makes the handler dereference nil. *)
Theorem serveRecvFrontend_returns
    (stream : Stream) (pkts : list Packet) (w : WirePacket)
    (rest : list WirePacket) (s : ProxyServer)
    (hs : list Interleaved.handler) :
  Interleaved.reachable_system (Interleaved.mkSystem s hs) →
  (∃ s', serveRecvFrontend_wire stream (wire <$> pkts) s = Done (tt, s') ∧
         serveRecvFrontend stream pkts s = Done (tt, s') ∧
         Interleaved.reachable_system (Interleaved.mkSystem s' hs)) ∧
  (wire_Type w = DATA ∨ wire_Type w = CLOSE_REQ → payload_missing w →
   serveRecvFrontend_wire stream ((wire <$> pkts) ++ w :: rest) s
   = Panic NilDereference).
Proof.
  intros Hreach.
  destruct (serveRecvFrontend_wire_loop_returns stream pkts (mkVars 0 None)
              s hs Hreach) as (v & s1 & Hwire & Hloop & Hs1).
  split.
  - unfold serveRecvFrontend_wire, serveRecvFrontend, mbind, M_bind.
    rewrite Hwire, Hloop.
    unfold serveRecvFrontend_close. destruct (cur_backend v) as [b|] eqn:Hb.
    + munfold. eexists. split_and!; [done..|].
      eapply reachable_system_step; [exact Hs1|].
      apply (step_frontend_close v). unfold serveRecvFrontend_close.
      rewrite Hb. by munfold.
    + munfold. eauto.
  - intros Hty Hmiss.
    unfold serveRecvFrontend_wire, mbind, M_bind.
    rewrite serveRecvFrontend_wire_loop_app, Hwire. simpl.
    unfold mbind, M_bind.
    assert (serveRecvFrontend_wire_pkt stream w v s1 = Panic NilDereference)
      as ->; [|done].
    unfold serveRecvFrontend_wire_pkt, payload_missing in *.
    destruct w as [ty [pkt|]]; simpl in *.
    + specialize (Hmiss pkt eq_refl).
      destruct Hty as [-> | ->]; by destruct pkt.
    + by destruct Hty as [-> | ->].
Qed.

Lemma serveRecvBackend_pkt_returns agentID pkt s :
  reachable s → ∃ s', serveRecvBackend_pkt agentID pkt s = Done (tt, s').
Proof.
  intros Hreach.
  pose proof (reachable_inv _ Hreach) as [Htab Hopen _ Htr].
  unfold serveRecvBackend_pkt.
  assert (∀ conns cid p, frontends s !! agentID = Some conns →
                         conns !! cid = Some p →
                         ∃ c, heap s !! p = Some c ∧ transport_ok c) as Hreg.
  { intros conns cid p Ha Hcid.
    assert (lookup_frontend s agentID cid = Some p) as Hl
      by (unfold lookup_frontend; by rewrite Ha).
    pose proof (inv_registry_alloc _ Htab agentID cid p Hl) as Hlt.
    apply lookup_lt_is_Some in Hlt as [c Hc]. eauto. }
  destruct pkt as [|random cid err| |cid|cid data].
  - munfold. eauto.
  - unfold mbind, M_bind, PendingDial_Get.
    destruct (pendingDial s !! random) as [p|] eqn:Hp; [|munfold; eauto].
    pose proof (inv_pending_alloc _ Htab _ _ Hp) as Hlt.
    apply lookup_lt_is_Some in Hlt as [c Hc].
    destruct (promote_spec agentID random cid err p s c Hc
                (Hopen _ _ _ Hp Hc) (Htr _ _ Hc))
      as (e & s0 & s1 & _ & Hrun & _). eauto.
  - munfold. eauto.
  - munfold. destruct (frontends s !! agentID) as [conns|] eqn:Ha; [|eauto].
    destruct (conns !! cid) as [p|] eqn:Hcid; [|eauto].
    destruct (Hreg conns cid p eq_refl Hcid) as (c & Hc & Hok).
    rewrite Hc.
    destruct (send_returns c (Packet_CloseResponse cid) s Hok)
      as (e & s1 & ->). eauto.
  - munfold. destruct (frontends s !! agentID) as [conns|] eqn:Ha; [|eauto].
    destruct (conns !! cid) as [p|] eqn:Hcid; [|eauto].
    destruct (Hreg conns cid p eq_refl Hcid) as (c & Hc & Hok).
    rewrite Hc.
    destruct (send_returns c (Packet_Data cid data) s Hok)
      as (e & s1 & ->). eauto.
Qed.

Lemma serveRecvBackend_loop_returns agentID recvCh : ∀ s,
  reachable s →
  ∃ s', serveRecvBackend_loop agentID recvCh s = Done (tt, s') ∧
        reachable s'.
Proof.
  induction recvCh as [|pkt rest IH]; intros s Hreach; simpl.
  - munfold. eauto.
  - unfold mbind, M_bind.
    destruct (serveRecvBackend_pkt_returns agentID pkt s Hreach)
      as (s1 & Hpkt).
    rewrite Hpkt. apply IH. eapply reachable_step; [done|].
    by eapply step_backend_pkt.
Qed.

Lemma serveRecvBackend_cleanup_returns agentID b s :
  reachable s →
  ∃ s', serveRecvBackend_cleanup agentID b s = Done (tt, s') ∧
        reachable s'.
Proof.
  intros Hreach.
  pose proof (reachable_inv _ Hreach) as [Htab _ _ Htr].
  assert (∃ s', serveRecvBackend_cleanup agentID b s = Done (tt, s'))
    as [s' Hrun].
  { unfold serveRecvBackend_cleanup, getFrontendsForBackendConn.
    unfold mbind at 1 2, M_bind, get.
    destruct (frontends s !! agentID) as [conns|] eqn:Ha.
    2:{ unfold mret, M_ret. simpl. unfold mret, M_ret. eauto. }
    assert (∀ cid p, (cid, p) ∈ go_range conns →
                     ∃ c, heap s !! p = Some c ∧ transport_ok c) as Hreg.
    { intros cid p Hin. rewrite go_range_perm in Hin.
      apply elem_of_map_to_list in Hin.
      assert (lookup_frontend s agentID cid = Some p) as Hl
        by (unfold lookup_frontend; by rewrite Ha).
      pose proof (inv_registry_alloc _ Htab _ _ _ Hl) as Hlt.
      apply lookup_lt_is_Some in Hlt as [c Hc]. eauto. }
    unfold mbind, M_bind. rewrite frontendsForBackendConn_range_spec.
    2:{ intros cid p Hin. destruct (Hreg cid p Hin) as (c & -> & _). eauto. }
    unfold mret, M_ret. simpl.
    destruct (close_frontends_spec agentID
                (filter (λ p, bound_to s b p = true) (go_range conns).*2) s)
      as (s' & Hrun & _); [|eauto].
    intros p [_ ([cid q] & -> & Hin)%list_elem_of_fmap]%list_elem_of_filter.
    by eapply Hreg. }
  exists s'. split; [done|]. eapply reachable_step; [done|].
  by eapply step_backend_cleanup.
Qed.

Lemma serveRecvBackend_pkt_returns_sys agentID pkt sys :
  Interleaved.reachable_system sys →
  ∃ s', serveRecvBackend_pkt agentID pkt (Interleaved.server sys)
        = Done (tt, s').
Proof.
  intros Hreach. set (s := Interleaved.server sys).
  unfold serveRecvBackend_pkt.
  assert (∀ conns cid p, frontends s !! agentID = Some conns →
                         conns !! cid = Some p →
                         ∃ c, heap s !! p = Some c ∧ transport_ok c) as Hreg.
  { intros conns cid p Ha Hcid.
    apply (reachable_system_registered sys agentID cid); [done|].
    unfold lookup_frontend. fold s. by rewrite Ha. }
  destruct pkt as [|random cid err| |cid|cid data].
  - munfold. eauto.
  - unfold mbind, M_bind, PendingDial_Get.
    destruct (pendingDial s !! random) as [p|] eqn:Hp; [|munfold; eauto].
    destruct (reachable_system_pending _ _ _ Hreach Hp)
      as (c & Hc & Htr & Hopen).
    destruct (promote_spec agentID random cid err p s c Hc Hopen Htr)
      as (e & s0 & s1 & _ & Hrun & _). eauto.
  - munfold. eauto.
  - munfold. destruct (frontends s !! agentID) as [conns|] eqn:Ha; [|eauto].
    destruct (conns !! cid) as [p|] eqn:Hcid; [|eauto].
    destruct (Hreg conns cid p eq_refl Hcid) as (c & Hc & Hok).
    rewrite Hc.
    destruct (send_returns c (Packet_CloseResponse cid) s Hok)
      as (e & s1 & ->). eauto.
  - munfold. destruct (frontends s !! agentID) as [conns|] eqn:Ha; [|eauto].
    destruct (conns !! cid) as [p|] eqn:Hcid; [|eauto].
    destruct (Hreg conns cid p eq_refl Hcid) as (c & Hc & Hok).
    rewrite Hc.
    destruct (send_returns c (Packet_Data cid data) s Hok)
      as (e & s1 & ->). eauto.
Qed.

Lemma serveRecvBackend_wire_pkt_wire agentID pkt :
  serveRecvBackend_wire_pkt agentID (wire pkt)
  = serveRecvBackend_pkt agentID pkt.
Proof. by destruct pkt. Qed.

Lemma serveRecvBackend_wire_loop_returns agentID pkts : ∀ s hs,
  Interleaved.reachable_system (Interleaved.mkSystem s hs) →
  ∃ s',
    serveRecvBackend_wire_loop agentID (wire <$> pkts) s = Done (tt, s') ∧
    serveRecvBackend_loop agentID pkts s = Done (tt, s') ∧
    Interleaved.reachable_system (Interleaved.mkSystem s' hs).
Proof.
  induction pkts as [|pkt rest IH]; intros s hs Hreach; simpl.
  - munfold. eauto.
  - unfold mbind, M_bind. rewrite serveRecvBackend_wire_pkt_wire.
    destruct (serveRecvBackend_pkt_returns_sys agentID pkt _ Hreach)
      as (s1 & Hpkt).
    simpl in Hpkt. rewrite Hpkt. apply IH.
    eapply reachable_system_step; [done|]. by eapply step_backend_pkt.
Qed.

Lemma serveRecvBackend_wire_loop_app agentID pre post : ∀ s,
  serveRecvBackend_wire_loop agentID (pre ++ post) s
  = match serveRecvBackend_wire_loop agentID pre s with
    | Done (_, s') => serveRecvBackend_wire_loop agentID post s'
    | Panic e => Panic e
    end.
Proof.
  induction pre as [|x l IH]; intros s; simpl.
  - by munfold.
  - unfold mbind, M_bind.
    destruct (serveRecvBackend_wire_pkt agentID x s) as [[[] s']|];
      [|done]. apply IH.
Qed.

Lemma serveRecvBackend_cleanup_returns_sys agentID b s hs :
  Interleaved.reachable_system (Interleaved.mkSystem s hs) →
  ∃ s', serveRecvBackend_cleanup agentID b s = Done (tt, s') ∧
        Interleaved.reachable_system (Interleaved.mkSystem s' hs).
Proof.
  intros Hreach.
  assert (∃ s', serveRecvBackend_cleanup agentID b s = Done (tt, s'))
    as [s' Hrun].
  { unfold serveRecvBackend_cleanup, getFrontendsForBackendConn.
    unfold mbind at 1 2, M_bind, get.
    destruct (frontends s !! agentID) as [conns|] eqn:Ha.
    2:{ unfold mret, M_ret. simpl. unfold mret, M_ret. eauto. }
    assert (∀ cid p, (cid, p) ∈ go_range conns →
                     ∃ c, heap s !! p = Some c ∧ transport_ok c) as Hreg.
    { intros cid p Hin. rewrite go_range_perm in Hin.
      apply elem_of_map_to_list in Hin.
      apply (reachable_system_registered _ agentID cid p Hreach).
      unfold lookup_frontend. simpl. by rewrite Ha. }
    unfold mbind, M_bind. rewrite frontendsForBackendConn_range_spec.
    2:{ intros cid p Hin. destruct (Hreg cid p Hin) as (c & -> & _). eauto. }
    unfold mret, M_ret. simpl.
    destruct (close_frontends_spec agentID
                (filter (λ p, bound_to s b p = true) (go_range conns).*2) s)
      as (s' & Hrun & _); [|eauto].
    intros p [_ ([cid q] & -> & Hin)%list_elem_of_fmap]%list_elem_of_filter.
    by eapply Hreg. }
  exists s'. split; [done|]. eapply reachable_system_step; [done|].
  by eapply step_backend_cleanup.
Qed.

(** X8.  From every state that the handlers reach, also with other
    handlers in the middle of their [DIAL_RSP] case, a backend handler
    whose operations are not interleaved with those of another handler
    handles without a fault every stream of packets that carry the
    payload of their type, runs its cleanup and returns, leaving a state
    of that kind.  The same stream followed by a [DIAL_RSP], [DATA] or
    [CLOSE_RSP] packet whose payload is unset or of another kind makes
    the handler dereference nil.  (With the operations of two handlers
    interleaved, the second [close] of one latch faults.) *)
Theorem serveRecvBackend_returns
    (b : Backend) (agentID : string) (pkts : list Packet) (w : WirePacket)
    (rest : list WirePacket) (s : ProxyServer)
    (hs : list Interleaved.handler) :
  Interleaved.reachable_system (Interleaved.mkSystem s hs) →
  (∃ s', serveRecvBackend_wire b agentID (wire <$> pkts) s = Done (tt, s') ∧
         serveRecvBackend b agentID pkts s = Done (tt, s') ∧
         Interleaved.reachable_system (Interleaved.mkSystem s' hs)) ∧
  (wire_Type w = DIAL_RSP ∨ wire_Type w = DATA ∨ wire_Type w = CLOSE_RSP →
   payload_missing w →
   serveRecvBackend_wire b agentID ((wire <$> pkts) ++ w :: rest) s
   = Panic NilDereference).
Proof.
  intros Hreach.
  destruct (serveRecvBackend_wire_loop_returns agentID pkts s hs Hreach)
    as (s1 & Hwire & Hloop & Hs1).
  split.
  - unfold serveRecvBackend_wire, serveRecvBackend, mbind, M_bind.
    rewrite Hwire, Hloop.
    destruct (serveRecvBackend_cleanup_returns_sys agentID b s1 hs Hs1)
      as (s' & Hrun & Hs'). eauto.
  - intros Hty Hmiss.
    unfold serveRecvBackend_wire, mbind, M_bind.
    rewrite serveRecvBackend_wire_loop_app, Hwire. simpl.
    unfold mbind, M_bind.
    assert (serveRecvBackend_wire_pkt agentID w s1 = Panic NilDereference)
      as ->; [|done].
    unfold serveRecvBackend_wire_pkt, payload_missing in *.
    destruct w as [ty [pkt|]]; simpl in *.
    + specialize (Hmiss pkt eq_refl).
      destruct Hty as [-> | [-> | ->]]; by destruct pkt.
    + by destruct Hty as [-> | [-> | ->]].
Qed.

End ReachableFacts.

(** ** What a gRPC frontend stream makes the server do *)

Section FrontendStreams.
Context `{Environment}.

Lemma serveRecvFrontend_loop_forwards stream rest : ∀ v s b,
  cur_backend v = Some b →
  Forall (λ pkt, Type_ pkt ≠ DIAL_REQ) rest →
  ∃ v' s',
    serveRecvFrontend_loop stream rest v s = Done (v', s') ∧
    cur_backend v' = Some b ∧
    calls_only s s'
      (EvBackendSend b <$> filter (λ pkt, forwarded pkt = true) rest).
Proof.
  induction rest as [|pkt rest IH]; intros v s b Hb Hall.
  - simpl. munfold. eexists _, _. split_and!; [done..|].
    apply calls_only_refl.
  - apply Forall_cons in Hall as [Hty Hall].
    rewrite serveRecvFrontend_loop_cons.
    assert (∃ v1 s1,
              serveRecvFrontend_pkt stream pkt v s = Done (v1, s1) ∧
              cur_backend v1 = Some b ∧
              calls_only s s1
                (if forwarded pkt then [EvBackendSend b pkt] else []))
      as (v1 & s1 & -> & Hb1 & Hs1).
    { unfold serveRecvFrontend_pkt.
      destruct pkt as [| | | |cid data]; munfold; try done.
      - eexists _, _. split_and!; [done..|]. apply calls_only_refl.
      - rewrite Hb. by eexists _, _.
      - eexists _, _. split_and!; [done..|]. apply calls_only_refl.
      - destruct (decide _); simpl; rewrite Hb; by eexists _, _. }
    destruct (IH v1 s1 b Hb1 Hall) as (v' & s' & -> & Hb' & Hs').
    eexists _, _. split_and!; [done..|].
    rewrite filter_cons. pose proof (calls_only_trans _ _ _ _ _ Hs1 Hs') as Ht.
    destruct (forwarded pkt); case_decide; try done.
Qed.

Lemma serveRecvFrontend_loop_drops stream rest : ∀ v s,
  cur_backend v = None →
  Forall (λ pkt, Type_ pkt ≠ DIAL_REQ) rest →
  ∃ v', serveRecvFrontend_loop stream rest v s = Done (v', s) ∧
        cur_backend v' = None.
Proof.
  induction rest as [|pkt rest IH]; intros v s Hb Hall.
  - simpl. munfold. eauto.
  - apply Forall_cons in Hall as [Hty Hall].
    rewrite serveRecvFrontend_loop_cons.
    assert (∃ v1, serveRecvFrontend_pkt stream pkt v s = Done (v1, s) ∧
                  cur_backend v1 = None) as (v1 & -> & Hb1).
    { unfold serveRecvFrontend_pkt.
      destruct pkt as [| | | |cid data]; munfold; try done; eauto.
      - rewrite Hb. eauto.
      - destruct (decide _); simpl; rewrite Hb; eauto. }
    by apply IH.
Qed.

(** X9.  A frontend that never dials makes the server do nothing: a stream
    without a [DIAL_REQ] leaves the whole server state as it was, so no
    packet of it reaches any backend and no [CLOSE_REQ] is sent at its
    end. *)
Theorem stream_without_dial_does_nothing
    (stream : Stream) (recvCh : list Packet) (s : ProxyServer) :
  Forall (λ pkt, Type_ pkt ≠ DIAL_REQ) recvCh →
  serveRecvFrontend stream recvCh s = Done (tt, s).
Proof.
  intros Hall. unfold serveRecvFrontend, mbind, M_bind.
  destruct (serveRecvFrontend_loop_drops stream recvCh (mkVars 0 None) s
              eq_refl Hall) as (v & -> & Hb).
  unfold serveRecvFrontend_close. rewrite Hb. by munfold.
Qed.

(** X10.  A stream that dials once: when the manager yields the backend [b]
    for the [DIAL_REQ], the handler adds one record to the pending-dial
    table under the nonce of the request, and the calls it makes are, in
    order, the [DIAL_REQ] itself, every [DATA] and [CLOSE_REQ] packet of
    the stream, unchanged, and one [CLOSE_REQ] at the end of the stream,
    all to [b]; that a send fails stops nothing. *)
Theorem single_dial_stream_forwarded
    (stream : Stream) (protocol address : string) (random : Z)
    (rest : list Packet) (b : backend) (s : ProxyServer) :
  BackendManager_Backend (manager s) None (Intn (trace s)) (storage s)
    = Done (Some b, None) →
  Forall (λ pkt, Type_ pkt ≠ DIAL_REQ) rest →
  ∃ s',
    serveRecvFrontend stream
      (Packet_DialRequest protocol address random :: rest) s = Done (tt, s') ∧
    trace s' =
      trace s ++
      (EvBackendSend b <$>
         Packet_DialRequest protocol address random
           :: filter (λ pkt, forwarded pkt = true) rest
           ++ [Packet_CloseRequest (first_nonzero_connID rest)]) ∧
    pendingDial s' = <[random := length (heap s)]> (pendingDial s) ∧
    heap s' = heap s ++ [grpc_record stream b] ∧
    frontends s' = frontends s ∧ storage s' = storage s.
Proof.
  intros Hsel Hall. unfold serveRecvFrontend, mbind, M_bind.
  rewrite serveRecvFrontend_loop_cons.
  assert (∃ s1,
            serveRecvFrontend_pkt stream
              (Packet_DialRequest protocol address random) (mkVars 0 None) s
            = Done (mkVars 0 (Some b), s1) ∧
            trace s1 =
              trace s ++
              [EvBackendSend b (Packet_DialRequest protocol address random)] ∧
            pendingDial s1 = <[random := length (heap s)]> (pendingDial s) ∧
            heap s1 = heap s ++ [grpc_record stream b] ∧
            frontends s1 = frontends s ∧ storage s1 = storage s)
    as (s1 & -> & Ht1 & Hp1 & Hh1 & Hf1 & Hst1).
  { unfold serveRecvFrontend_pkt. munfold. rewrite Hsel.
    eexists. by split_and!. }
  destruct (serveRecvFrontend_loop_forwards stream rest (mkVars 0 (Some b))
              s1 b eq_refl Hall) as (v' & s2 & Hloop & Hb' & Hs2).
  rewrite Hloop.
  pose proof (serveRecvFrontend_loop_firstConnID _ _ _ _ _ _ Hloop) as Hfirst.
  simpl in Hfirst. unfold calls_only in Hs2. subst s2.
  unfold serveRecvFrontend_close. rewrite Hb'. munfold.
  eexists. split; [done|]. simpl.
  rewrite Ht1, Hp1, Hh1, Hf1, Hst1, Hfirst. split_and!; try done.
  change (list_fmap Packet Event (EvBackendSend b) ?l)
    with (EvBackendSend b <$> l).
  rewrite fmap_app. simpl. by rewrite <- !app_assoc.
Qed.

(** Both managers return no backend together with an error. *)
Lemma BackendManager_Backend_error m ctx draw st be err :
  BackendManager_Backend m ctx draw st = Done (be, Some err) → be = None.
Proof.
  destruct m; simpl.
  - unfold DefaultBackendManager_Backend.
    destruct (GetRandomBackend draw st) as [[b|]|]; simpl; congruence.
  - unfold DestIPBackendManager_Backend.
    destruct ctx as [[agentID|]|]; simpl; try congruence.
    destruct (GetBackend agentID st) as [[b|]|]; simpl; congruence.
Qed.

(** X11.  A [DIAL_REQ] for which the manager returns an error clears the
    backend of the handler, whatever the handler holds: also when it
    holds the backend that an earlier [DIAL_REQ] of the stream obtained
    (the agent can have disconnected since).  The iteration leaves the
    server state as it is; the packets after it, up to the next
    [DIAL_REQ], are dropped in whatever state the server is when they
    arrive; and when the stream ends there no [CLOSE_REQ] is sent. *)
Theorem failed_dial_clears_backend
    (stream : Stream) (protocol address : string) (random : Z)
    (rest : list Packet) (v : frontendVars) (s : ProxyServer)
    (be : Backend) (err : error) :
  BackendManager_Backend (manager s) None (Intn (trace s)) (storage s)
    = Done (be, Some err) →
  Forall (λ pkt, Type_ pkt ≠ DIAL_REQ) rest →
  ∃ v1,
    serveRecvFrontend_pkt stream (Packet_DialRequest protocol address random)
      v s = Done (v1, s) ∧
    cur_backend v1 = None ∧
    ∀ s2, ∃ v2,
      serveRecvFrontend_loop stream rest v1 s2 = Done (v2, s2) ∧
      serveRecvFrontend_close v2 s2 = Done (tt, s2).
Proof.
  intros Hsel Hall.
  pose proof (BackendManager_Backend_error _ _ _ _ _ _ Hsel) as ->.
  exists (mkVars (firstConnID v) None). split_and!; [|done|].
  { unfold serveRecvFrontend_pkt. munfold. by rewrite Hsel. }
  intros s2.
  destruct (serveRecvFrontend_loop_drops stream rest
              (mkVars (firstConnID v) None) s2 eq_refl Hall)
    as (v2 & Hloop & Hb).
  exists v2. split; [done|].
  unfold serveRecvFrontend_close. rewrite Hb. by munfold.
Qed.

End FrontendStreams.

(** ** Packets of an agent for an established connection *)

Section BackendPackets.
Context `{Environment}.

Lemma registered_record s agentID cid p :
  reachable s → lookup_frontend s agentID cid = Some p →
  ∃ c, heap s !! p = Some c ∧ transport_ok c.
Proof.
  intros Hreach Hl.
  pose proof (reachable_inv _ Hreach) as [Htab _ _ Htr].
  pose proof (inv_registry_alloc _ Htab _ _ _ Hl) as Hlt.
  apply lookup_lt_is_Some in Hlt as [c Hc]. eauto.
Qed.

Lemma getFrontend_lookup agentID cid s :
  ∃ err, getFrontend agentID cid s
         = Done ((lookup_frontend s agentID cid, err), s) ∧
         (err = None ↔ is_Some (lookup_frontend s agentID cid)).
Proof.
  unfold getFrontend, lookup_frontend.
  destruct (frontends s !! agentID) as [conns|]; simpl.
  - destruct (conns !! cid); eexists; (split; [done|]);
      split; try done; by intros [? ?].
  - eexists; split; [done|]. split; [done|]. by intros [? ?].
Qed.

(** X12.  A [DATA] packet of agent [agentID] goes to the frontend registered
    under [(agentID, ConnectID)] and to no other: the handler makes the
    one call that delivers the packet to that record (a send on its gRPC
    stream, or a write of the bytes to its socket) and changes nothing
    else; when no frontend is registered under the pair the packet is
    dropped. The handler goes on whether or not the delivery fails. *)
Theorem data_goes_to_registered_frontend
    (agentID : string) (cid : Z) (data : bytes) (s : ProxyServer) :
  reachable s →
  ∃ s',
    serveRecvBackend_pkt agentID (Packet_Data cid data) s = Done (tt, s') ∧
    calls_only s s'
      match lookup_frontend s agentID cid with
      | Some p => delivery s p (Packet_Data cid data)
      | None => []
      end.
Proof.
  intros Hreach. unfold serveRecvBackend_pkt, mbind at 1, M_bind.
  destruct (getFrontend_lookup agentID cid s) as (err & -> & Herr).
  destruct (lookup_frontend s agentID cid) as [p|] eqn:Hl.
  2:{ exists s. split; [|apply calls_only_refl].
      by destruct err; munfold. }
  assert (err = None) as -> by (apply Herr; eauto).
  destruct (registered_record _ _ _ _ Hreach Hl) as (c & Hc & Hok).
  destruct (send_returns c (Packet_Data cid data) s Hok) as (e & s1 & Hsend).
  exists s1. split.
  - munfold. by rewrite Hc, Hsend.
  - unfold delivery. rewrite Hc. simpl. by eapply send_calls.
Qed.

(** X13.  A [CLOSE_RSP] of agent [agentID] is delivered to the frontend
    registered under [(agentID, ConnectID)], and that entry, and no other,
    is then removed from the registry; the pending-dial table, the records
    and the storage are left alone. When no frontend is registered under
    the pair, nothing happens. *)
Theorem close_response_removes_frontend
    (agentID : string) (cid : Z) (s : ProxyServer) :
  reachable s →
  ∃ s',
    serveRecvBackend_pkt agentID (Packet_CloseResponse cid) s
      = Done (tt, s') ∧
    trace s' =
      trace s ++
      match lookup_frontend s agentID cid with
      | Some p => delivery s p (Packet_CloseResponse cid)
      | None => []
      end ∧
    pendingDial s' = pendingDial s ∧ heap s' = heap s ∧
    storage s' = storage s ∧
    ∀ a' cid',
      lookup_frontend s' a' cid' =
        if decide (a' = agentID ∧ cid' = cid) then None
        else lookup_frontend s a' cid'.
Proof.
  intros Hreach. unfold serveRecvBackend_pkt, mbind at 1, M_bind.
  destruct (getFrontend_lookup agentID cid s) as (err & -> & Herr).
  destruct (lookup_frontend s agentID cid) as [p|] eqn:Hl.
  2:{ exists s. split; [by destruct err; munfold|].
      split; [by rewrite app_nil_r|]. split_and!; try done.
      intros a' cid'. case_decide as Hd; [|done].
      by destruct Hd as [-> ->]. }
  assert (err = None) as -> by (apply Herr; eauto).
  destruct (registered_record _ _ _ _ Hreach Hl) as (c & Hc & Hok).
  destruct (send_returns c (Packet_CloseResponse cid) s Hok)
    as (e & s1 & Hsend).
  pose proof (send_calls _ _ _ _ _ Hsend) as Hs1.
  destruct (lookup_frontend_remove s1 agentID cid)
    as (s' & Hrm & Hp & Hh & Ht & Hst & Hlook).
  exists s'. split.
  { unfold mbind, M_bind, deref. by rewrite Hc, Hsend. }
  unfold calls_only in Hs1. subst s1. simpl in *.
  unfold delivery. rewrite Hc. simpl. split_and!; try done.
Qed.

(** X14.  Once the agent has closed a connection, its later [DATA] packets for
    that connection are dropped: after a [CLOSE_RSP] for [(agentID,
    ConnectID)], a [DATA] packet for the same pair makes no call and
    changes nothing. *)
Theorem data_after_close_response_dropped
    (agentID : string) (cid : Z) (data : bytes) (s s1 : ProxyServer) :
  serveRecvBackend_pkt agentID (Packet_CloseResponse cid) s = Done (tt, s1) →
  serveRecvBackend_pkt agentID (Packet_Data cid data) s1 = Done (tt, s1).
Proof.
  intros Hrun.
  assert (lookup_frontend s1 agentID cid = None) as Hnone.
  { revert Hrun. unfold serveRecvBackend_pkt, mbind at 1, M_bind.
    destruct (getFrontend_lookup agentID cid s) as (err & -> & Herr).
    destruct (lookup_frontend s agentID cid) as [p|] eqn:Hl.
    2:{ destruct err; munfold; by intros [= <-]. }
    assert (err = None) as -> by (apply Herr; eauto).
    unfold mbind, M_bind, deref.
    destruct (heap s !! p) as [c|]; [|done].
    destruct (send c _ s) as [[e s0]|]; [|done].
    destruct (lookup_frontend_remove s0 agentID cid)
      as (s' & Hrm & _ & _ & _ & _ & Hlook).
    rewrite Hrm. intros [= <-]. rewrite Hlook. by rewrite decide_True. }
  unfold serveRecvBackend_pkt, mbind at 1, M_bind.
  destruct (getFrontend_lookup agentID cid s1) as (err & -> & Herr).
  rewrite Hnone. by destruct err; munfold.
Qed.

End BackendPackets.

(** ** The HTTP CONNECT tunnel *)

Lemma before_colon_app a port :
  free_of ":" a = true → before_colon (a +:+ String ":" port) = a.
Proof.
  induction a as [|x a IH]; simpl; [done|].
  destruct (Ascii.eqb x ":") eqn:Hx; [done|]. simpl.
  intros Hfree. by rewrite IH.
Qed.

Section TunnelRuns.
Context `{Environment}.

(** What [ServeHTTP] has done when it reaches the receive on the latch. *)
Lemma ServeHTTP_dial_await w r hijack random connection b c w' s s' :
  ServeHTTP_dial w r hijack s
    = Done ((AwaitConnected random connection b c, w'), s') →
  hijack = Some c ∧ Method r = "CONNECT" ∧
  random = (Int63 (trace s) mod 2 ^ 63)%Z ∧ connection = length (heap s) ∧
  w' = set_hijacked (WriteHeader StatusOK w) ∧
  s' = set_trace
         (λ t, t ++ [EvBackendSend b (Packet_DialRequest "tcp" (Host r) random)])
         (set_pendingDial (λ m, <[random := connection]> m)
            (set_heap (λ h, h ++ [tunnel_record c b]) s)).
Proof.
  unfold ServeHTTP_dial.
  destruct (decide (TLS r = Some 0)); [done|].
  destruct (decide (Method r ≠ "CONNECT")) as [|Hm]; [by munfold|].
  apply dec_stable in Hm.
  destruct (hijackable w); simpl; [|by munfold].
  destruct hijack as [c0|]; [|by munfold].
  munfold.
  destruct (BackendManager_Backend _ _ _ _) as [[be [e|]]|]; simpl; try done.
  destruct be as [b0|]; [|done].
  destruct (io _ _); [done|].
  intros [= <- <- <- <- <- <-]. by split_and!.
Qed.

(** X15.  With the destination strategy and the destination manager, a CONNECT
    request for [host:port] is dialled through the agent whose ID is
    [host]: the [DIAL_REQ], which carries the whole [Host] of the request
    as its address, is sent to the first handle of that agent, and the new
    record waits in the pending-dial table under the nonce of the request. *)
Theorem destination_routing_dials_host_agent
    (w : ResponseWriter) (r : Request) (c : Conn) (s : ProxyServer)
    (host port : string) (b : backend) (l : list backend) :
  proxyStrategy s = "destIP" → manager s = DestIPBackendManager →
  Method r = "CONNECT" → TLS r ≠ Some 0 → hijackable w = true →
  Host r = host +:+ String ":" port → free_of ":" host = true →
  backends (storage s) !! host = Some (b :: l) →
  ∃ x w' s',
    ServeHTTP_dial w r (Some c) s = Done ((x, w'), s') ∧
    trace s' =
      trace s ++
      [EvBackendSend b
         (Packet_DialRequest "tcp" (Host r) (Int63 (trace s) mod 2 ^ 63)%Z)] ∧
    heap s' = heap s ++ [tunnel_record c b] ∧
    pendingDial s' =
      <[(Int63 (trace s) mod 2 ^ 63)%Z := length (heap s)]> (pendingDial s) ∧
    match x with
    | AwaitConnected random connection b' c' =>
        random = (Int63 (trace s) mod 2 ^ 63)%Z ∧
        connection = length (heap s) ∧ b' = b ∧ c' = c
    | ExitDialFailed _ => True
    | _ => False
    end.
Proof.
  intros Hstrat Hman Hm Htls Hhj Hhost Hfree Hb.
  unfold ServeHTTP_dial.
  rewrite decide_False by done.
  rewrite decide_False by (by intros ?).
  rewrite Hhj. simpl. munfold.
  rewrite decide_True by done. rewrite Hman. simpl.
  unfold DestIPBackendManager_Backend.
  rewrite Hhost, before_colon_app by done.
  assert (GetBackend host (storage s) = Done (Some b)) as ->.
  { unfold GetBackend, backends_at. rewrite Hb. simpl.
    rewrite decide_False; [done|].
    intros Hz%map_size_empty_inv. by rewrite Hz, lookup_empty in Hb. }
  simpl. destruct (io _ _); eexists _, _, _; by split_and!.
Qed.

Lemma app_snoc_assoc {A} (t : list A) x l : (t ++ [x]) ++ l = t ++ x :: l.
Proof. by rewrite <- app_assoc. Qed.

Lemma tunnel_loop_sends b cid reads : ∀ s,
  ∃ n s',
    tunnel_loop b cid reads s = Done (tt, s') ∧
    calls_only s s' (data_calls b cid (take n reads)) ∧
    sent_until_failure b cid reads (trace s) n.
Proof.
  induction reads as [|d rest IH]; intros s; simpl.
  - exists 0, s. munfold. split_and!; [done|apply calls_only_refl|].
    split_and!; simpl; [lia|intros; lia|intros; lia].
  - munfold. destruct (io (trace s) _) as [e|] eqn:Hio.
    + exists 1, (set_trace (λ t, t ++ [EvBackendSend b (Packet_Data cid d)]) s).
      split_and!; [done|by destruct rest|].
      split_and!; simpl; [lia|intros; lia|].
      intros _. split; [lia|]. exists d. split; [done|].
      unfold data_calls. simpl. rewrite app_nil_r, Hio. eauto.
    + destruct (IH (set_trace
                      (λ t, t ++ [EvBackendSend b (Packet_Data cid d)]) s))
        as (n & s' & Hrun & Hcalls & Hn & Hsucc & Hfail).
      exists (S n), s'. split_and!; [done| |].
      * simpl. eapply (calls_only_trans _ _ _ [_]); [|done]. done.
      * split_and!; simpl.
        -- lia.
        -- intros [|i] d' Hi Hd'; simpl in *.
           ++ injection Hd' as <-. unfold data_calls. simpl.
              by rewrite app_nil_r.
           ++ unfold data_calls in *. simpl.
              rewrite <- (app_snoc_assoc (trace s)). apply Hsucc; [lia|done].
        -- intros Hlt. destruct Hfail as (Hpos & d' & Hd' & He); [lia|].
           split; [lia|]. exists d'. rewrite Nat.sub_0_r.
           destruct n as [|n]; [lia|]. simpl in *.
           rewrite Nat.sub_0_r in Hd', He. split; [done|].
           unfold data_calls in *. simpl.
           by rewrite <- (app_snoc_assoc (trace s)).
Qed.

Lemma tunnel_forwards_chunks_aux connection b c reads pcc s :
  heap s !! connection = Some pcc →
  ∃ n s',
    ServeHTTP_proxy connection b c reads s = Done (tt, s') ∧
    calls_only s s'
      (data_calls b (connectID pcc) (take n reads) ++ [EvHTTPClose c]) ∧
    sent_until_failure b (connectID pcc) reads (trace s) n.
Proof.
  intros Hpcc. unfold ServeHTTP_proxy, mbind at 1, M_bind, deref.
  rewrite Hpcc.
  destruct (tunnel_loop_sends b (connectID pcc) reads s)
    as (n & s1 & Hrun & Hcalls & Hn).
  exists n. eexists. unfold mbind, M_bind. rewrite Hrun. munfold.
  split_and!; [done| |done].
  eapply calls_only_trans; [done|]. done.
Qed.

(** X16.  The second part of [ServeHTTP]: a prefix of the chunks read from
    the socket is sent to the backend of the dial as [DATA] packets, in
    order and with the [connectID] that the record has when the loop
    starts, and then the socket is closed, once and last.  The prefix
    ends with the first chunk whose send fails: every send before the
    last one has succeeded, and when chunks are left unsent the last send
    has failed; so when no send fails every chunk is sent. *)
Theorem tunnel_forwards_chunks
    (connection : nat) (b : backend) (c : Conn) (reads : list bytes)
    (pcc : ProxyClientConnection) (s : ProxyServer) :
  heap s !! connection = Some pcc →
  ∃ n s',
    ServeHTTP_proxy connection b c reads s = Done (tt, s') ∧
    calls_only s s'
      (data_calls b (connectID pcc) (take n reads) ++ [EvHTTPClose c]) ∧
    sent_until_failure b (connectID pcc) reads (trace s) n.
Proof.
  intros Hpcc. by apply tunnel_forwards_chunks_aux.
Qed.

(** X17.  A tunnel from end to end. After [ServeHTTP] has sent its [DIAL_REQ]
    and waits, a [DIAL_RSP] of agent [agentID] with the nonce of the
    request and no error sends nothing to the client, registers the record
    of the tunnel under [(agentID, ConnectID)] with its latch closed, and
    takes the nonce out of the pending-dial table; the tunnel then sends
    the chunks it reads, up to the first one whose send fails, to the
    backend it dialled, as [DATA] packets with the [ConnectID] that the
    agent chose, and closes the socket. *)
Theorem tunnel_established_uses_agent_connID
    (w w' : ResponseWriter) (r : Request) (hijack : option Conn)
    (random cid : Z) (connection : nat) (b : backend) (c : Conn)
    (agentID : string) (reads : list bytes) (s s1 : ProxyServer) :
  ServeHTTP_dial w r hijack s
    = Done ((AwaitConnected random connection b c, w'), s1) →
  ∃ s2 n s3,
    serveRecvBackend_pkt agentID (Packet_DialResponse random cid "") s1
      = Done (tt, s2) ∧
    trace s2 = trace s1 ∧
    pendingDial s2 = delete random (pendingDial s) ∧
    lookup_frontend s2 agentID cid = Some connection ∧
    heap s2 !! connection
      = Some (set_connected (set_ids cid agentID (tunnel_record c b))) ∧
    ServeHTTP_proxy connection b c reads s2 = Done (tt, s3) ∧
    calls_only s2 s3
      (data_calls b cid (take n reads) ++ [EvHTTPClose c]) ∧
    sent_until_failure b cid reads (trace s2) n.
Proof.
  intros Hdial.
  apply ServeHTTP_dial_await in Hdial as (_ & _ & _ & -> & _ & ->).
  set (s1 := set_trace _ _).
  assert (heap s1 !! length (heap s) = Some (tunnel_record c b)) as Hc.
  { simpl. by rewrite lookup_app_r, Nat.sub_diag by lia. }
  assert (pendingDial s1 !! random = Some (length (heap s))) as Hp
    by (simpl; apply lookup_insert_eq).
  destruct (promote_spec agentID random cid "" (length (heap s)) s1
              (tunnel_record c b) Hc eq_refl)
    as (e & s0 & s2 & Hsend & Hrun & Ht & _ & Hpd & Hcase).
  { right. split; [done|]. by eexists. }
  assert (e = None ∧ s0 = s1) as [-> ->].
  { revert Hsend. unfold send. simpl. repeat case_decide; try done.
    munfold. by intros [= <- <-]. }
  rewrite bool_decide_eq_false_2 in Hcase by (by intros ?).
  simpl in Hcase. destruct Hcase as [Hh Hf].
  assert (heap s2 !! length (heap s)
          = Some (set_connected (set_ids cid agentID (tunnel_record c b))))
    as Hc2.
  { rewrite Hh. apply list_lookup_insert_eq. by eapply lookup_lt_Some. }
  destruct (tunnel_forwards_chunks_aux (length (heap s)) b c reads _ s2 Hc2)
    as (n & s3 & Hproxy & Hcalls & Hn).
  exists s2, n, s3. split_and!; try done.
  - unfold serveRecvBackend_pkt, mbind at 1, M_bind, PendingDial_Get.
    by rewrite Hp.
  - rewrite Hpd. simpl. by rewrite delete_insert_eq.
  - unfold lookup_frontend. rewrite Hf, lookup_insert_eq. simpl.
    apply lookup_insert_eq.
Qed.

End TunnelRuns.

(** ** The backend storage: handles of one agent, in order *)

Lemma filter_all {A} (P : A → Prop) `{∀ x, Decision (P x)} (l : list A) :
  Forall P l → filter P l = l.
Proof.
  induction 1 as [|x l Hx _ IH]; [done|].
  rewrite filter_cons, decide_True by done. by rewrite IH.
Qed.

Lemma filter_other_conns (l : list backend) j v :
  NoDup (conn <$> l) → l !! j = Some v →
  filter (λ x, conn x ≠ conn v) l = take j l ++ drop (S j) l.
Proof.
  intros Hnd Hj.
  destruct (conns_without l j v Hnd Hj) as [_ Hmem].
  assert (Forall (λ x, conn x ≠ conn v) (take j l ++ drop (S j) l)) as Hall.
  { apply Forall_forall. intros x Hx.
    assert (conn x ∈ conn <$> (take j l ++ drop (S j) l)) as Hin
      by (apply list_elem_of_fmap; eauto).
    by apply Hmem in Hin as [_ ?]. }
  rewrite <- (take_drop_middle l j v Hj) at 1.
  rewrite filter_app, filter_cons, decide_False by (by intros ?).
  rewrite <- filter_app. by apply filter_all.
Qed.

(** X18.  [RemoveBackend] takes the handle of the stream out of the list of
    its agent and keeps the other handles of the agent in the order in
    which they were registered; the handles of the other agents are left
    alone. Removing a stream that is not registered changes nothing. *)
Theorem RemoveBackend_keeps_order
    (agentID : string) (c : Stream) (s : DefaultBackendStorage) :
  storage_inv s →
  ∃ s',
    RemoveBackend agentID c s = Done s' ∧
    ∀ a, backends_at s' a =
           if decide (a = agentID)
           then filter (λ v, conn v ≠ c) (backends_at s agentID)
           else backends_at s a.
Proof.
  intros [Hnd Hkeys Hne Hconns]. unfold RemoveBackend, backends_at.
  destruct (backends s !! agentID) as [l|] eqn:Hl.
  2:{ exists s. split; [done|]. intros a. case_decide as Ha; [|done].
      subst a. by rewrite Hl. }
  rewrite (RemoveBackend_range_spec l c) by by apply (Hconns agentID).
  destruct (list_find (λ v, conn v = c) l) as [[j v]|] eqn:Hf; simpl.
  - apply list_find_Some in Hf as (Hj & Hv & _).
    pose proof (lookup_lt_Some _ _ _ Hj) as Hlt.
    rewrite lookup_insert_eq. simpl.
    rewrite app_assoc, take_app_length'
      by (rewrite length_app, length_take, length_drop; lia).
    rewrite <- Hv.
    rewrite (filter_other_conns l j v) by (done || by apply (Hconns agentID)).
    destruct (decide (length (take j l ++ drop (S j) l) = 0)) as [Hz|Hnz].
    + eexists. split; [done|]. simpl. intros a.
      rewrite delete_insert_eq.
      destruct (decide (a = agentID)) as [->|Ha].
      * rewrite lookup_delete_eq. simpl. by apply nil_length_inv in Hz.
      * by rewrite lookup_delete_ne.
    + eexists. split; [done|]. simpl. intros a.
      destruct (decide (a = agentID)) as [->|Ha].
      * by rewrite lookup_insert_eq.
      * by rewrite lookup_insert_ne.
  - rewrite Hl. simpl. rewrite decide_False.
    2:{ intros Hz. apply nil_length_inv in Hz. by apply (Hne agentID l). }
    eexists. split; [done|]. simpl. intros a.
    destruct (decide (a = agentID)) as [->|Ha]; [|done].
    rewrite Hl. simpl. symmetry. apply filter_all.
    apply list_find_None in Hf. done.
Qed.

(** X19.  Registering a stream never changes which handle of a registered
    agent is preferred: [GetBackend] for an agent that already has a
    handle returns the same handle after any [AddBackend], so the second
    stream of an agent gets traffic only when the first has been removed. *)
Theorem AddBackend_keeps_first
    (agentID a : string) (c : Stream) (s : DefaultBackendStorage) :
  storage_inv s → is_Some (backends s !! a) →
  GetBackend a (AddBackend agentID c s).2 = GetBackend a s.
Proof.
  intros Hinv [l Hl].
  pose proof (AddBackend_inv agentID c s Hinv) as Hinv'.
  destruct l as [|b l]; [by destruct (inv_nonempty _ Hinv _ _ Hl)|].
  rewrite (GetBackend_registered a s b l Hl).
  assert (∃ l', backends (AddBackend agentID c s).2 !! a = Some (b :: l'))
    as [l' Hl'].
  { unfold AddBackend.
    destruct (decide (a = agentID)) as [->|Ha].
    - rewrite Hl. destruct (list_find _ _) as [[i v]|]; simpl.
      + eauto.
      + rewrite lookup_insert_eq. simpl. eauto.
    - destruct (backends s !! agentID) as [l0|].
      + destruct (list_find _ _) as [[i v]|]; simpl; [eauto|].
        rewrite lookup_insert_ne by done. eauto.
      + simpl. rewrite lookup_insert_ne by done. eauto. }
  by rewrite (GetBackend_registered a _ b l' Hl').
Qed.

(** X20.  Registering a stream that is registered already is answered with the
    handle that exists: the maps of the storage stay as they are, and no
    second handle for the stream is created. *)
Theorem AddBackend_registered_again
    (agentID : string) (c : Stream) (s : DefaultBackendStorage)
    (l : list backend) :
  backends s !! agentID = Some l → c ∈ conn <$> l →
  ∃ b, (AddBackend agentID c s).1 = b ∧ b ∈ l ∧ conn b = c ∧
       backends (AddBackend agentID c s).2 = backends s ∧
       agentIDs (AddBackend agentID c s).2 = agentIDs s.
Proof.
  intros Hl Hc. unfold AddBackend. rewrite Hl.
  destruct (list_find (λ v, conn v = c) l) as [[i v]|] eqn:Hf; simpl.
  - apply list_find_Some in Hf as (Hi & Hv & _).
    exists v. split_and!; try done. apply list_elem_of_lookup. eauto.
  - apply list_find_None in Hf. rewrite Forall_forall in Hf.
    apply list_elem_of_fmap in Hc as (v & -> & Hv). by destruct (Hf v).
Qed.

(** X21.  Registering a stream that is not registered and removing it again
    restores the map of handles and the list of agent IDs, for a new agent
    as for a further stream of a known one. *)
Theorem AddBackend_RemoveBackend_restores
    (agentID : string) (c : Stream) (s : DefaultBackendStorage) :
  storage_inv s →
  (∀ l, backends s !! agentID = Some l → c ∉ conn <$> l) →
  ∃ s',
    RemoveBackend agentID c (AddBackend agentID c s).2 = Done s' ∧
    backends s' = backends s ∧ agentIDs s' = agentIDs s.
Proof.
  intros Hinv Hnew.
  pose proof Hinv as [Hnd Hkeys Hne Hconns].
  unfold RemoveBackend, AddBackend.
  destruct (backends s !! agentID) as [l|] eqn:Hl.
  - assert (list_find (λ v, conn v = c) l = None) as ->.
    { apply list_find_None, Forall_forall. intros v Hv Hcv.
      apply (Hnew l eq_refl). apply list_elem_of_fmap. eauto. }
    simpl. rewrite lookup_insert_eq.
    rewrite RemoveBackend_range_spec.
    2:{ rewrite fmap_app. simpl. apply NoDup_app. split_and!.
        - by apply (Hconns agentID).
        - intros x Hx ->%list_elem_of_singleton. by apply (Hnew l).
        - apply NoDup_singleton. }
    assert (list_find (λ v, conn v = c) (l ++ [newBackend c (next_addr s)])
            = Some (length l, newBackend c (next_addr s))) as ->.
    { apply list_find_Some. split_and!.
      - by rewrite lookup_app_r, Nat.sub_diag by lia.
      - done.
      - intros j y Hy Hlt Hcy. rewrite lookup_app_l in Hy by done.
        apply (Hnew l eq_refl). apply list_elem_of_fmap. exists y.
        split; [done|]. apply list_elem_of_lookup. eauto. }
    simpl. rewrite lookup_insert_eq. simpl.
    rewrite length_app. simpl.
    replace (length l + 1 - 1) with (length l) by lia.
    rewrite !take_app_length.
    rewrite decide_False.
    2:{ intros Hz. apply nil_length_inv in Hz. by apply (Hne agentID l). }
    eexists. split; [done|]. simpl. split; [|done].
    rewrite insert_insert_eq. by apply insert_id.
  - simpl. rewrite lookup_insert_eq. simpl.
    rewrite decide_True by done. simpl.
    rewrite lookup_insert_eq. simpl.
    eexists. split; [done|]. simpl. split.
    + rewrite !delete_insert_eq. by apply delete_id.
    + assert (agentID ∉ agentIDs s) as Hnotin.
      { rewrite Hkeys, Hl. by intros [? ?]. }
      unfold remove_agentID.
      assert (list_find (λ x, x = agentID) (agentIDs s ++ [agentID])
              = Some (length (agentIDs s), agentID)) as ->.
      { apply list_find_Some. split_and!.
        - by rewrite lookup_app_r, Nat.sub_diag by lia.
        - done.
        - intros j y Hy Hlt ->. rewrite lookup_app_l in Hy by done.
          apply Hnotin, list_elem_of_lookup. eauto. }
      rewrite last_snoc, length_app. simpl.
      replace (length (agentIDs s) + 1 - 1) with (length (agentIDs s))
        by lia.
      rewrite insert_app_r_alt, Nat.sub_diag by lia. simpl.
      by rewrite take_app_length.
Qed.

(** ** An agent stream from registration to deregistration *)

Lemma stable_storage_eq st : stable (λ s, storage s = st).
Proof.
  split; try done.
  - intros a cid p s [] s' Hs [= <-]. done.
  - intros a cid s [] s' Hs [= <-]. done.
Qed.

Lemma tracks_ext g1 g2 st :
  (∀ x, x ∈ g1 ↔ x ∈ g2) → tracks g1 st → tracks g2 st.
Proof. intros Heq Ht a c. rewrite <- Heq. apply Ht. Qed.

Section ConnectFacts.
Context `{Environment}.
Variable options : AgentTokenAuthenticationOptions.
Variable TokenReviews_Create : string → string → option TokenReviewStatus.
Variable SchemePrefix : string.

Lemma Connect_deferred_returns agentID stream g s :
  reachable s → tracks g (storage s) →
  ∃ s', Connect_deferred agentID stream s = Done (tt, s') ∧
        reachable s' ∧ tracks (g ∖ {[ (agentID, stream) ]}) (storage s') ∧
        trace s' = trace s ∧ pendingDial s' = pendingDial s ∧
        frontends s' = frontends s ∧ heap s' = heap s.
Proof.
  intros Hreach Hg.
  destruct (reachable_storage_ok _ Hreach) as [Hinv _].
  destruct (RemoveBackend_inv agentID stream _ g Hinv Hg)
    as (st & Hst & _ & Hg').
  exists (set_storage (λ _, st) s). split_and!; try done.
  - unfold Connect_deferred. munfold. by rewrite Hst.
  - eapply reachable_step; [done|]. by eapply step_RemoveBackend.
Qed.

Lemma serveRecvBackend_loop_storage agentID recvCh s s' :
  serveRecvBackend_loop agentID recvCh s = Done (tt, s') →
  storage s' = storage s.
Proof.
  intros Hrun.
  by eapply (preserves_serveRecvBackend_loop _
               (stable_storage_eq (storage s))).
Qed.

Lemma serveRecvBackend_cleanup_storage agentID b s s' :
  serveRecvBackend_cleanup agentID b s = Done (tt, s') →
  storage s' = storage s.
Proof.
  intros Hrun.
  by eapply (preserves_serveRecvBackend_cleanup _
               (stable_storage_eq (storage s))).
Qed.

(** X22.  [Connect] does not fault and never leaves its stream registered:
    whether the metadata is wrong, the header cannot be sent, the agent is
    not authenticated, or the stream is served until it ends, when
    [Connect] returns the storage has no handle for the stream. With wrong
    metadata the server state is not touched at all. *)
Theorem Connect_leaves_stream_deregistered
    (ctx : option Metadata) (stream : Stream) (sendHeader : option error)
    (recvCh buffered : list Packet) (g : gset (string * Stream))
    (s : ProxyServer) :
  reachable s → tracks g (storage s) →
  ∃ r s',
    Connect options TokenReviews_Create SchemePrefix ctx stream sendHeader
      recvCh buffered s = Done (r, s') ∧
    reachable s' ∧
    match stream_agentID ctx with
    | (_, Some e) => r = Some e ∧ s' = s
    | (agentID, None) => tracks (g ∖ {[ (agentID, stream) ]}) (storage s')
    end.
Proof.
  intros Hreach Hg. unfold Connect.
  destruct (stream_agentID ctx) as [agentID [e|]].
  { exists (Some e), s. by split_and!. }
  unfold mbind at 1 2, M_bind, get, modify.
  set (s1 := set_storage (λ st, (AddBackend agentID stream st).2) s).
  assert (reachable s1) as Hreach1 by by apply reachable_AddBackend.
  assert (tracks ({[ (agentID, stream) ]} ∪ g) (storage s1)) as Hg1
    by by apply AddBackend_tracks.
  assert (∀ s2, reachable s2 → storage s2 = storage s1 →
            ∃ s', Connect_deferred agentID stream s2 = Done (tt, s') ∧
                  reachable s' ∧
                  tracks (g ∖ {[ (agentID, stream) ]}) (storage s') ∧
                  trace s' = trace s2 ∧ pendingDial s' = pendingDial s2 ∧
                  frontends s' = frontends s2 ∧ heap s' = heap s2)
    as Hdefer.
  { intros s2 Hreach2 Hst. rewrite <- Hst in Hg1.
    destruct (Connect_deferred_returns agentID stream _ s2 Hreach2 Hg1)
      as (s' & Hrun & Hr & Ht & Hrest).
    exists s'. split_and!; try done; [|tauto..].
    eapply tracks_ext; [|done]. intros x.
    rewrite !elem_of_difference, elem_of_union. tauto. }
  destruct sendHeader as [e|].
  { destruct (Hdefer s1 Hreach1 eq_refl) as (s' & Hrun & Hr & Ht & _).
    unfold mbind, M_bind. rewrite Hrun. by eexists _, _. }
  destruct (if Enabled options then _ else _) as [e|].
  { destruct (Hdefer s1 Hreach1 eq_refl) as (s' & Hrun & Hr & Ht & _).
    unfold mbind, M_bind. rewrite Hrun. by eexists _, _. }
  destruct (serveRecvBackend_loop_returns agentID recvCh s1 Hreach1)
    as (s2 & Hloop & Hreach2).
  destruct (Hdefer s2 Hreach2 (serveRecvBackend_loop_storage _ _ _ _ Hloop))
    as (s3 & Hrm & Hreach3 & Ht3 & _).
  destruct (serveRecvBackend_loop_returns agentID buffered s3 Hreach3)
    as (s4 & Hloop4 & Hreach4).
  destruct (serveRecvBackend_cleanup_returns agentID
              (Some (AddBackend agentID stream (storage s)).1) s4 Hreach4)
    as (s5 & Hclean & Hreach5).
  exists None, s5. unfold mbind, M_bind.
  rewrite Hloop, Hrm, Hloop4, Hclean. split_and!; try done.
  rewrite (serveRecvBackend_cleanup_storage _ _ _ _ Hclean).
  by rewrite (serveRecvBackend_loop_storage _ _ _ _ Hloop4).
Qed.


End ConnectFacts.

(** ** A nonce used twice *)

Section NonceReuse.
Context `{Environment}.

(** X24.  The pending-dial table keeps one record per nonce.  A
    [DIAL_REQ] whose nonce is the one of a dial that is still pending
    puts its own record in the place of the earlier one.  When no handler
    has found the nonce before, the earlier record is from then on in
    neither table, and its latch stays open whatever the server and the
    handlers do afterwards, in any interleaving: an answer of an agent
    can establish the later dial only.  (A handler that had found the
    nonce before could go on to register the earlier record.) *)
Theorem reused_nonce_orphans_pending_dial
    (stream : Stream) (protocol address : string) (random : Z) (p : nat)
    (b : backend) (v : frontendVars) (s : ProxyServer)
    (hs : list Interleaved.handler) :
  Interleaved.reachable_system (Interleaved.mkSystem s hs) →
  pendingDial s !! random = Some p → ¬ held hs p →
  BackendManager_Backend (manager s) None (Intn (trace s)) (storage s)
    = Done (Some b, None) →
  ∃ v' s1,
    serveRecvFrontend_pkt stream (Packet_DialRequest protocol address random)
      v s = Done (v', s1) ∧
    pendingDial s1 !! random = Some (length (heap s)) ∧
    p ≠ length (heap s) ∧
    ∀ sys2, rtc Interleaved.run (Interleaved.mkSystem s1 hs) sys2 →
            ¬ in_pending (Interleaved.server sys2) p ∧
            ¬ in_registry (Interleaved.server sys2) p ∧
            ∃ c, heap (Interleaved.server sys2) !! p = Some c ∧
                 connected c = false.
Proof.
  intros Hreach Hp Hnh Hsel.
  destruct (reachable_system_pending _ _ _ Hreach Hp)
    as (c & Hc & _ & Hopen).
  apply reachable_system_inv in Hreach as [[Htab _ _ _] _].
  simpl in *.
  pose proof (inv_pending_alloc _ Htab _ _ Hp) as Hlt.
  eexists _, _. split.
  { unfold serveRecvFrontend_pkt. munfold. by rewrite Hsel. }
  simpl. split; [apply lookup_insert_eq|]. split; [lia|].
  match goal with
  | |- ∀ sys2, rtc _ (Interleaved.mkSystem ?x _) sys2 → _ => set (s1 := x)
  end.
  assert (dropped (Interleaved.mkSystem s1 hs) p) as Hd.
  { split_and!; simpl; [split| |done].
    - intros [r Hr]. simpl in Hr.
      destruct (decide (r = random)) as [->|Hne].
      + rewrite lookup_insert_eq in Hr. injection Hr as Hr. lia.
      + rewrite lookup_insert_ne in Hr by done.
        by pose proof (inv_pending_inj _ Htab _ _ _ Hp Hr).
    - exists c. simpl. split; [by rewrite lookup_app_l|done].
    - intros (a & cid & Hl).
      apply (inv_disjoint _ Htab p); [by exists random|]. by exists a, cid. }
  intros sys2 Hrtc.
  destruct (rtc_run_dropped _ _ _ Hrtc Hd) as ([? ?] & ? & _). done.
Qed.

End NonceReuse.

(** ** The properties on sample runs *)

Lemma storage_A_inv : storage_inv storage_A.
Proof. apply AddBackend_inv, storage_inv_new. Qed.

Lemma server_101_reachable : reachable (H:=quiet) server_101.
Proof. apply dial_and_answer_reachable, server_A_reachable. Qed.

Lemma no_dial_in_sample :
  Forall (λ pkt, Type_ pkt ≠ DIAL_REQ) [Packet_Data 5 []; Packet_CloseRequest 5].
Proof. by repeat constructor. Qed.

(** In [server_two_handles] no agent of the registry has an empty map. *)
Lemma reachable_registry_nonempty_witness :
  registry_nonempty server_two_handles.
Proof.
  exact (reachable_registry_nonempty (H:=quiet) server_two_handles
           server_two_handles_reachable).
Defined.

(** In [server_two_handles], where no handler is in its [DIAL_RSP] case,
    every registered record has a closed latch. *)
Lemma reachable_registered_connected_witness :
  registered_connected server_two_handles.
Proof.
  intros a cid p c Hl Hc.
  destruct (reachable_registered_connected (H:=quiet)
              (Interleaved.mkSystem server_two_handles [])
              (reachable_handlers (H:=quiet) _ server_two_handles_reachable)
              a cid p c Hl Hc) as [Hx|(h & Hh & _)]; [exact Hx|].
  exact (False_ind _ (proj1 (elem_of_nil h) Hh)).
Defined.

(** Agent ["A"] answers the dial of [server_dialed] with an error, no
    handler being in its [DIAL_RSP] case. *)
Lemma failed_dial_never_connected_witness :
  ∃ s1,
    serveRecvBackend_pkt (H:=quiet) "A"
      (Packet_DialResponse 7 101 "unreachable") server_dialed
      = Done (tt, s1) ∧
    ∀ sys2, rtc (Interleaved.run (H:=quiet)) (Interleaved.mkSystem s1 []) sys2 →
            ¬ in_pending (Interleaved.server sys2) 0 ∧
            ¬ in_registry (Interleaved.server sys2) 0 ∧
            ∃ c, heap (Interleaved.server sys2) !! 0 = Some c ∧
                 connected c = false.
Proof.
  apply (failed_dial_never_connected (H:=quiet) "A" 7 101 "unreachable" 0
           server_dialed []
           (reachable_handlers (H:=quiet) _ server_dialed_reachable)).
  - vm_compute. reflexivity.
  - done.
  - intros (h & Hh & _). by apply elem_of_nil in Hh.
Defined.

(** A draw on [storage_A]. *)
Lemma GetRandomBackend_registered_witness :
  (backends storage_A = ∅ ∧ GetRandomBackend 5 storage_A = Done None) ∨
  ∃ a b l, a ∈ agentIDs storage_A ∧
           backends storage_A !! a = Some (b :: l) ∧
           GetRandomBackend 5 storage_A = Done (Some b).
Proof. exact (GetRandomBackend_registered 5 storage_A storage_A_inv). Defined.

(** The stream [stream_0_5] on [server_A], and the same stream followed
    by a [DATA] packet without payload. *)
Lemma serveRecvFrontend_returns_witness :
  (∃ s', serveRecvFrontend_wire (H:=quiet) 1 (wire <$> stream_0_5) server_A
           = Done (tt, s') ∧
         serveRecvFrontend (H:=quiet) 1 stream_0_5 server_A = Done (tt, s') ∧
         Interleaved.reachable_system (H:=quiet)
           (Interleaved.mkSystem s' [])) ∧
  serveRecvFrontend_wire (H:=quiet) 1
    ((wire <$> stream_0_5) ++ [mkWire DATA None]) server_A
  = Panic NilDereference.
Proof.
  destruct (serveRecvFrontend_returns (H:=quiet) 1 stream_0_5
              (mkWire DATA None) [] server_A []
              (reachable_handlers (H:=quiet) _ server_A_reachable))
    as [Hok Hfault].
  split; [exact Hok|]. apply Hfault; [by left|]. by intros pkt [=].
Defined.

(** The stream of agent ["A"] answers the dial of [server_dialed], sends
    data, closes the connection and ends; and the same stream followed by
    a [DIAL_RSP] packet that carries a [Data] payload. *)
Lemma serveRecvBackend_returns_witness :
  (∃ s', serveRecvBackend_wire (H:=quiet) (Some backend_A) "A"
           (wire <$> [Packet_DialResponse 7 101 ""; Packet_Data 101 [];
                      Packet_CloseResponse 101]) server_dialed
           = Done (tt, s') ∧
         serveRecvBackend (H:=quiet) (Some backend_A) "A"
           [Packet_DialResponse 7 101 ""; Packet_Data 101 [];
            Packet_CloseResponse 101] server_dialed = Done (tt, s') ∧
         Interleaved.reachable_system (H:=quiet)
           (Interleaved.mkSystem s' [])) ∧
  serveRecvBackend_wire (H:=quiet) (Some backend_A) "A"
    ((wire <$> [Packet_DialResponse 7 101 ""; Packet_Data 101 [];
                Packet_CloseResponse 101])
       ++ [mkWire DIAL_RSP (Some (Packet_Data 101 []))]) server_dialed
  = Panic NilDereference.
Proof.
  destruct (serveRecvBackend_returns (H:=quiet) (Some backend_A) "A"
              [Packet_DialResponse 7 101 ""; Packet_Data 101 [];
               Packet_CloseResponse 101]
              (mkWire DIAL_RSP (Some (Packet_Data 101 []))) []
              server_dialed []
              (reachable_handlers (H:=quiet) _ server_dialed_reachable))
    as [Hok Hfault].
  split; [exact Hok|]. apply Hfault; [by left|].
  intros pkt [= <-]. discriminate.
Defined.

(** A stream with data and a close request only, on [server_A]. *)
Lemma stream_without_dial_does_nothing_witness :
  serveRecvFrontend (H:=quiet) 1 [Packet_Data 5 []; Packet_CloseRequest 5]
    server_A = Done (tt, server_A).
Proof.
  exact (stream_without_dial_does_nothing (H:=quiet) 1 _ server_A
           no_dial_in_sample).
Defined.

(** A dial, data and a close request on [server_A]: four packets reach
    [backend_A]. *)
Lemma single_dial_stream_forwarded_witness :
  ∃ s',
    serveRecvFrontend (H:=quiet) 1
      [Packet_DialRequest "tcp" "10.0.0.1:80" 7; Packet_Data 5 [];
       Packet_CloseRequest 5] server_A = Done (tt, s') ∧
    trace s' =
      [EvBackendSend backend_A (Packet_DialRequest "tcp" "10.0.0.1:80" 7);
       EvBackendSend backend_A (Packet_Data 5 []);
       EvBackendSend backend_A (Packet_CloseRequest 5);
       EvBackendSend backend_A (Packet_CloseRequest 5)].
Proof.
  destruct (single_dial_stream_forwarded (H:=quiet) 1 "tcp" "10.0.0.1:80" 7
              [Packet_Data 5 []; Packet_CloseRequest 5] backend_A server_A)
    as (s' & Hrun & Ht & _).
  - vm_compute. reflexivity.
  - exact no_dial_in_sample.
  - exists s'. split; [done|]. rewrite Ht. vm_compute. reflexivity.
Defined.

(** The handler holds [backend_A] from its first dial; agent ["A"] has
    disconnected since, and the second dial finds no backend. *)
Lemma failed_dial_clears_backend_witness :
  ∃ v1,
    serveRecvFrontend_pkt (H:=quiet) 1
      (Packet_DialRequest "tcp" "10.0.0.1:80" 8)
      (mkVars 0 (Some backend_A)) server_A_gone = Done (v1, server_A_gone) ∧
    cur_backend v1 = None ∧
    ∀ s2, ∃ v2,
      serveRecvFrontend_loop (H:=quiet) 1
        [Packet_Data 5 []; Packet_CloseRequest 5] v1 s2 = Done (v2, s2) ∧
      serveRecvFrontend_close (H:=quiet) v2 s2 = Done (tt, s2).
Proof.
  apply (failed_dial_clears_backend (H:=quiet) 1 "tcp" "10.0.0.1:80" 8
           [Packet_Data 5 []; Packet_CloseRequest 5]
           (mkVars 0 (Some backend_A)) server_A_gone None ErrNotFound).
  - vm_compute. reflexivity.
  - exact no_dial_in_sample.
Defined.

(** Data of agent ["A"] for connection 101 goes to the gRPC stream 1. *)
Lemma data_goes_to_registered_frontend_witness :
  ∃ s',
    serveRecvBackend_pkt (H:=quiet) "A" (Packet_Data 101 []) server_101
      = Done (tt, s') ∧
    calls_only server_101 s' [EvGrpcSend 1 (Packet_Data 101 [])].
Proof.
  destruct (data_goes_to_registered_frontend (H:=quiet) "A" 101 []
              server_101 server_101_reachable) as (s' & Hrun & Hcalls).
  exists s'. split; [done|].
  assert (lookup_frontend server_101 "A" 101 = Some 0) as Hl
    by (vm_compute; reflexivity).
  rewrite Hl in Hcalls.
  assert (delivery server_101 0 (Packet_Data 101 [])
          = [EvGrpcSend 1 (Packet_Data 101 [])]) as Hd
    by (vm_compute; reflexivity).
  by rewrite Hd in Hcalls.
Defined.

(** Agent ["A"] closes connection 101 of [server_101]. *)
Lemma close_response_removes_frontend_witness :
  lookup_frontend server_101_closed "A" 101 = None.
Proof.
  destruct (close_response_removes_frontend (H:=quiet) "A" 101 server_101
              server_101_reachable) as (s' & Hrun & _ & _ & _ & _ & Hl).
  assert (server_101_closed = s') as ->
    by (unfold server_101_closed, after, exec; by rewrite Hrun).
  rewrite Hl. by rewrite decide_True.
Defined.

(** Data for connection 101 after agent ["A"] has closed it. *)
Lemma data_after_close_response_dropped_witness :
  serveRecvBackend_pkt (H:=quiet) "A" (Packet_Data 101 []) server_101_closed
  = Done (tt, server_101_closed).
Proof.
  apply (data_after_close_response_dropped (H:=quiet) "A" 101 []
           server_101 server_101_closed).
  vm_compute. reflexivity.
Defined.

(** [request_A] on [server_destIP_A] is dialled through [backend_A]. *)
Lemma destination_routing_dials_host_agent_witness :
  ∃ x w' s',
    ServeHTTP_dial (H:=quiet) fresh_writer request_A (Some 9) server_destIP_A
      = Done ((x, w'), s') ∧
    trace s' =
      [EvBackendSend backend_A (Packet_DialRequest "tcp" "A:443" 0)].
Proof.
  destruct (destination_routing_dials_host_agent (H:=quiet) fresh_writer
              request_A 9 server_destIP_A "A" "443" backend_A [])
    as (x & w' & s' & Hrun & Ht & _);
    [reflexivity|reflexivity|reflexivity|done|reflexivity|reflexivity
    |reflexivity|vm_compute; reflexivity|].
  exists x, w', s'. split; [done|]. rewrite Ht. vm_compute. reflexivity.
Defined.

Lemma sent_until_failure_quiet b cid reads t n :
  sent_until_failure (H:=quiet) b cid reads t n → n = length reads.
Proof.
  intros (Hle & _ & Hfail).
  destruct (decide (n < length reads)) as [Hlt|?]; [|lia].
  destruct (Hfail Hlt) as (_ & d & _ & [e He]). discriminate He.
Qed.

(** The tunnel of [server_tunnel_connected] forwards two chunks. *)
Lemma tunnel_forwards_chunks_witness :
  ∃ s',
    ServeHTTP_proxy (H:=quiet) 0 backend_A 9 [[]; []] server_tunnel_connected
      = Done (tt, s') ∧
    calls_only server_tunnel_connected s'
      [EvBackendSend backend_A (Packet_Data 55 []);
       EvBackendSend backend_A (Packet_Data 55 []);
       EvHTTPClose 9].
Proof.
  destruct (tunnel_forwards_chunks (H:=quiet) 0 backend_A 9 [[]; []]
              (set_connected (set_ids 55 "A" (tunnel_record 9 backend_A)))
              server_tunnel_connected)
    as (n & s' & Hrun & Hcalls & Hn).
  - vm_compute. reflexivity.
  - apply sent_until_failure_quiet in Hn. subst n.
    exists s'. split; [exact Hrun|exact Hcalls].
Defined.

(** The tunnel for [request_A] on [server_A], answered with connection
    55, forwards the chunk it reads. *)
Lemma tunnel_established_uses_agent_connID_witness :
  ∃ s2 s3,
    serveRecvBackend_pkt (H:=quiet) "A" (Packet_DialResponse 0 55 "")
      server_tunnel_dialed = Done (tt, s2) ∧
    lookup_frontend s2 "A" 55 = Some 0 ∧
    ServeHTTP_proxy (H:=quiet) 0 backend_A 9 [[]] s2 = Done (tt, s3) ∧
    calls_only s2 s3
      [EvBackendSend backend_A (Packet_Data 55 []); EvHTTPClose 9].
Proof.
  destruct (tunnel_established_uses_agent_connID (H:=quiet) fresh_writer
              (set_hijacked (WriteHeader StatusOK fresh_writer)) request_A
              (Some 9) 0 55 0 backend_A 9 "A" [[]] server_A
              server_tunnel_dialed)
    as (s2 & n & s3 & Hrun & _ & _ & Hl & _ & Hproxy & Hcalls & Hn).
  - vm_compute. reflexivity.
  - apply sent_until_failure_quiet in Hn. subst n.
    exists s2, s3. split_and!; [exact Hrun|exact Hl|exact Hproxy|exact Hcalls].
Defined.

(** Removing stream 7 of agent ["A"] from [storage_A]. *)
Lemma RemoveBackend_keeps_order_witness :
  ∃ s', RemoveBackend "A" 7 storage_A = Done s' ∧ backends_at s' "A" = [].
Proof.
  destruct (RemoveBackend_keeps_order "A" 7 storage_A storage_A_inv)
    as (s' & Hrun & Hat).
  exists s'. split; [done|]. rewrite Hat. vm_compute. reflexivity.
Defined.

(** A second stream of agent ["A"] does not replace its first handle. *)
Lemma AddBackend_keeps_first_witness :
  GetBackend "A" (AddBackend "A" 8 storage_A).2 = GetBackend "A" storage_A.
Proof.
  apply (AddBackend_keeps_first "A" "A" 8 storage_A storage_A_inv).
  exists [backend_A]. vm_compute. reflexivity.
Defined.

(** Stream 7 of agent ["A"] is registered a second time. *)
Lemma AddBackend_registered_again_witness :
  ∃ b, (AddBackend "A" 7 storage_A).1 = b ∧ b ∈ [backend_A] ∧ conn b = 7 ∧
       backends (AddBackend "A" 7 storage_A).2 = backends storage_A ∧
       agentIDs (AddBackend "A" 7 storage_A).2 = agentIDs storage_A.
Proof.
  apply (AddBackend_registered_again "A" 7 storage_A [backend_A]).
  - vm_compute. reflexivity.
  - simpl. constructor.
Defined.

(** Stream 8 of agent ["A"] is registered and removed again. *)
Lemma AddBackend_RemoveBackend_restores_witness :
  ∃ s',
    RemoveBackend "A" 8 (AddBackend "A" 8 storage_A).2 = Done s' ∧
    backends s' = backends storage_A ∧ agentIDs s' = agentIDs storage_A.
Proof.
  apply (AddBackend_RemoveBackend_restores "A" 8 storage_A storage_A_inv).
  intros l Hl. vm_compute in Hl. injection Hl as <-. simpl.
  intros [Heq|Hin%elem_of_nil]%elem_of_cons; [discriminate Heq|done].
Defined.

(** A stream of agent ["A"] connects to [server_empty], sends a packet and
    ends. *)
Lemma Connect_leaves_stream_deregistered_witness :
  ∃ r s',
    Connect (H:=quiet) no_authentication (λ _ _, None) "Bearer "
      (Some metadata_A) 7 None [Packet_Data 101 []] [] server_empty
      = Done (r, s') ∧
    reachable (H:=quiet) s' ∧
    tracks (∅ ∖ {[ ("A", 7) ]}) (storage s').
Proof.
  exact (Connect_leaves_stream_deregistered (H:=quiet) no_authentication
           (λ _ _, None) "Bearer " (Some metadata_A) 7 None
           [Packet_Data 101 []] [] ∅ server_empty (reachable_new _ _)
           tracks_new).
Defined.


(** A second dial with nonce 7 on [server_dialed], no handler being in
    its [DIAL_RSP] case. *)
Lemma reused_nonce_orphans_pending_dial_witness :
  ∃ v' s1,
    serveRecvFrontend_pkt (H:=quiet) 2
      (Packet_DialRequest "tcp" "10.0.0.2:80" 7) (mkVars 0 None) server_dialed
      = Done (v', s1) ∧
    pendingDial s1 !! 7%Z = Some (length (heap server_dialed)) ∧
    0 ≠ length (heap server_dialed) ∧
    ∀ sys2, rtc (Interleaved.run (H:=quiet)) (Interleaved.mkSystem s1 []) sys2 →
            ¬ in_pending (Interleaved.server sys2) 0 ∧
            ¬ in_registry (Interleaved.server sys2) 0 ∧
            ∃ c, heap (Interleaved.server sys2) !! 0 = Some c ∧
                 connected c = false.
Proof.
  apply (reused_nonce_orphans_pending_dial (H:=quiet) 2 "tcp" "10.0.0.2:80"
           7 0 backend_A (mkVars 0 None) server_dialed []
           (reachable_handlers (H:=quiet) _ server_dialed_reachable)).
  - vm_compute. reflexivity.
  - intros (h & Hh & _). exact (proj1 (elem_of_nil h) Hh).
  - vm_compute. reflexivity.
Defined.

(** The token ["abc"] is accepted. *)
Lemma validateAuthToken_accepts_witness :
  validateAuthToken agent_authentication sample_TokenReviews "abc" = None.
Proof.
  apply (proj2 (validateAuthToken_accepts agent_authentication
                  sample_TokenReviews "abc")).
  exists (mkStatus ""
            true "system:serviceaccount:kube-system:konnectivity-agent").
  split_and!; vm_compute; reflexivity.
Defined.

(** A stream whose metadata carries ["Bearer abc"] is authenticated. *)
Lemma authenticateAgentViaToken_accepts_witness :
  authenticateAgentViaToken agent_authentication sample_TokenReviews
    "Bearer " (Some (mkMetadata ["A"] ["Bearer abc"])) = None.
Proof.
  apply (proj2 (authenticateAgentViaToken_accepts agent_authentication
                  sample_TokenReviews "Bearer "
                  (Some (mkMetadata ["A"] ["Bearer abc"])))).
  exists (mkMetadata ["A"] ["Bearer abc"]), "abc".
  split_and!; vm_compute; reflexivity.
Defined.
